(** * Publisher.js (airflux): a shallow embedding and its verified properties

    The file models [src/src/Publisher.js]: the [Publisher] class with its
    subscription registry ([listen], [listenOnce]), the hook pipeline and
    emission cycle ([triggerSync], [trigger]) and the resolution of the
    promises returned by listeners ([resolve], [_handleDispatchPromises]).

    JavaScript objects that are mutated in place live in explicit stores of
    the [World]: the arrays referenced by [this._dispatchPromises], the
    closure environments created by [listen], the promise objects and the
    job queue of the runtime.  Methods are computations in a small
    state-and-error monad [M]. *)

From Stdlib Require Import ZArith Lia.
From stdpp Require Import base list strings numbers.

Open Scope string_scope.
Open Scope list_scope.
Open Scope nat_scope.

(** ** JavaScript values *)

#[warnings="-register-all"]
Inductive Value : Type :=
| VUndefined
| VNull
| VBool (b : bool)
| VNum (n : Z)
| VStr (s : string)
| VArray (xs : list Value)            (* a true Array *)
| VArguments (xs : list Value)        (* an [arguments] object *)
| VObject (fields : list (string * Value))
| VFun (f : nat)                      (* a function of the application *)
| VWrapper (h : nat)                  (* the arrow function made by listenOnce *)
| VPromise (p : nat)                  (* reference to a promise object *)
| VPublisher.                         (* [this], the publisher itself *)

(** [typeof x !== 'undefined'] *)
Definition defined (v : Value) : bool :=
  match v with VUndefined => false | _ => true end.

(** ToBoolean, as used by [if (...)] and [a || b]. *)
Definition truthy (v : Value) : bool :=
  match v with
  | VUndefined | VNull => false
  | VBool b => b
  | VNum n => negb (n =? 0)%Z
  | VStr s => match s with EmptyString => false | _ => true end
  | _ => true
  end.

(** [a || b] *)
Definition js_or (a b : Value) : Value := if truthy a then a else b.

(** Modelled from the spec: [_.isPromise] of [./utils], which is not among
    the sources.  The spec calls it the classification of a value as a
    deferred result; here the deferred results are the promise objects. *)
Definition isPromise (v : Value) : bool :=
  match v with VPromise _ => true | _ => false end.

(** Modelled from the spec: [_.isArguments] of [./utils], which is not among
    the sources: the classification of a value as an argument bundle, that
    is an [arguments] object. *)
Definition isArguments (v : Value) : bool :=
  match v with VArguments _ => true | _ => false end.

(** [[].concat(v)]: an Array is spread, anything else becomes the single
    element of the new Array. *)
Definition concat_empty (v : Value) : Value :=
  match v with
  | VArray xs => VArray xs
  | _ => VArray [v]
  end.

(** The argument list that [f.apply(thisArg, args)] passes on. *)
Definition apply_list (args : Value) : list Value :=
  match args with
  | VArray xs | VArguments xs => xs
  | _ => []
  end.

(** ** Observable events *)

Inductive Child := Completed | Failed.

Inductive Event : Type :=
| EInvoke (h : nat) (args : list Value)
    (* the event handler of subscription [h] applies its callback *)
| ECall (h : nat) (f : nat) (this : Value) (args : list Value)
    (* the application's function [f] runs, called for subscription [h] *)
| ECanHandlePromise
    (* [this.canHandlePromise()] is queried *)
| EWarn (msg : string)
    (* [console.warn(msg)] *)
| ETrigger (c : Child) (v : Value).
    (* [this.completed.asFunction(v)] or [this.failed.asFunction(v)] *)

(** ** Promise objects of the runtime *)

Inductive Outcome := Fulfilled (v : Value) | Rejected (e : Value).

(** The functions that this program hands to [then]. *)
Inductive Handler : Type :=
| HCompleted                 (* ( response ) => this.completed.asFunction( response ) *)
| HFailed                    (* ( error ) => this.failed.asFunction( error ) *)
| HMapItem (l : Value)       (* ( result ) => ({ listener: item.listener, value: result }) *)
| HAllResolve (a i : nat)    (* Promise.all: the resolve function of element i *)
| HAllReject (p : nat).      (* Promise.all: the reject function of the aggregate *)

Record Reaction := {
  on_fulfilled : option Handler;
  on_rejected : option Handler;
  derived : nat                      (* the promise returned by [then] *)
}.

Inductive PromiseState := Pending (rs : list Reaction) | Settled (o : Outcome).

Record PromiseCell := {
  cell_state : PromiseState;
  cell_handled : bool                (* a reaction was attached at some time *)
}.

Record Job := { job_reaction : Reaction; job_argument : Outcome }.

(** The bookkeeping of one call of [Promise.all]. *)
Record AllState := {
  all_promise : nat;
  all_values : list Value;
  all_remaining : nat
}.

(** ** The publisher's own objects *)

(** An element of [this._dispatchPromises]. *)
Record DispatchRecord := { promise : Value; listener : Value }.

(** The functions that reach [listen]: a function of the application, or
    the arrow function built by [listenOnce] with the variables it closes
    over ([callback], [bindContext], the [arguments] of [listenOnce], and
    [unsubscribe]). *)
Inductive Callback : Type :=
| CbUser (f : nat)
| CbOnce (callback : nat) (bindContext : Value) (arguments : list Value)
         (unsubscribe : nat).

(** The environment of one [eventHandler] closure made by [listen]. *)
Record Closure := { aborted : bool; callback : Callback }.

Definition fn_value (cb : Callback) : Value :=
  match cb with
  | CbUser f => VFun f
  | CbOnce _ _ _ u => VWrapper u
  end.

Record World := {
  dispatchPromises : nat;                 (* this._dispatchPromises, a reference *)
  arrays : list (list DispatchRecord);    (* the Array objects it has referred to *)
  emitter : list (string * nat);          (* this.emitter: registrations in order *)
  closures : list Closure;
  promises : list PromiseCell;
  alls : list AllState;
  jobs : list Job;                        (* promise jobs waiting to run *)
  ticks : list (list Value);              (* calls deferred by _.nextTick *)
  log : list Event
}.

Definition with_dispatchPromises (x : nat) (w : World) : World :=
  {| dispatchPromises := x; arrays := arrays w; emitter := emitter w;
     closures := closures w; promises := promises w; alls := alls w;
     jobs := jobs w; ticks := ticks w; log := log w |}.

Definition with_arrays (x : list (list DispatchRecord)) (w : World) : World :=
  {| dispatchPromises := dispatchPromises w; arrays := x; emitter := emitter w;
     closures := closures w; promises := promises w; alls := alls w;
     jobs := jobs w; ticks := ticks w; log := log w |}.

Definition with_emitter (x : list (string * nat)) (w : World) : World :=
  {| dispatchPromises := dispatchPromises w; arrays := arrays w; emitter := x;
     closures := closures w; promises := promises w; alls := alls w;
     jobs := jobs w; ticks := ticks w; log := log w |}.

Definition with_closures (x : list Closure) (w : World) : World :=
  {| dispatchPromises := dispatchPromises w; arrays := arrays w;
     emitter := emitter w; closures := x; promises := promises w;
     alls := alls w; jobs := jobs w; ticks := ticks w; log := log w |}.

Definition with_promises (x : list PromiseCell) (w : World) : World :=
  {| dispatchPromises := dispatchPromises w; arrays := arrays w;
     emitter := emitter w; closures := closures w; promises := x;
     alls := alls w; jobs := jobs w; ticks := ticks w; log := log w |}.

Definition with_alls (x : list AllState) (w : World) : World :=
  {| dispatchPromises := dispatchPromises w; arrays := arrays w;
     emitter := emitter w; closures := closures w; promises := promises w;
     alls := x; jobs := jobs w; ticks := ticks w; log := log w |}.

Definition with_jobs (x : list Job) (w : World) : World :=
  {| dispatchPromises := dispatchPromises w; arrays := arrays w;
     emitter := emitter w; closures := closures w; promises := promises w;
     alls := alls w; jobs := x; ticks := ticks w; log := log w |}.

Definition with_ticks (x : list (list Value)) (w : World) : World :=
  {| dispatchPromises := dispatchPromises w; arrays := arrays w;
     emitter := emitter w; closures := closures w; promises := promises w;
     alls := alls w; jobs := jobs w; ticks := x; log := log w |}.

Definition with_log (x : list Event) (w : World) : World :=
  {| dispatchPromises := dispatchPromises w; arrays := arrays w;
     emitter := emitter w; closures := closures w; promises := promises w;
     alls := alls w; jobs := jobs w; ticks := ticks w; log := x |}.

Definition add_log (e : Event) (w : World) : World := with_log (log w ++ [e]) w.

(** The records of the array that [this._dispatchPromises] refers to. *)
Definition array_at (a : nat) (w : World) : list DispatchRecord :=
  default [] (arrays w !! a).

Definition current_records (w : World) : list DispatchRecord :=
  array_at (dispatchPromises w) w.

(** ** The child publishers *)

(** Whether [this.completed] and [this.failed] are there.  The class
    refers to them but its constructor creates neither: they are attached
    from outside, by a subclass or by the application. *)
Class Children := { has_completed : bool; has_failed : bool }.

(** The TypeError of calling a method that the value does not have, or of
    reading a property of undefined. *)
Definition TypeError : Value := VStr "TypeError".

(** ** The promise runtime (ECMAScript semantics of [then] and [Promise.all]) *)

Definition pending_cell : PromiseCell :=
  {| cell_state := Pending []; cell_handled := false |}.

Definition enqueue (js : list Job) (w : World) : World :=
  with_jobs (jobs w ++ js) w.

(** Settling a promise: a pending promise takes the outcome and schedules
    one job per reaction; a settled one is left alone. *)
Definition settle (p : nat) (o : Outcome) (w : World) : World :=
  match promises w !! p with
  | Some c =>
      match cell_state c with
      | Pending rs =>
          enqueue (map (fun r => {| job_reaction := r; job_argument := o |}) rs)
            (with_promises
               (<[p := {| cell_state := Settled o; cell_handled := cell_handled c |}]>
                  (promises w)) w)
      | Settled _ => w
      end
  | None => w
  end.

(** [p.then(onF, onR)]: creates the derived promise, then either stores the
    reaction or, when [p] is settled already, schedules its job. *)
Definition perform_then (p : nat) (onF onR : option Handler) (w : World)
  : nat * World :=
  let d := length (promises w) in
  let r := {| on_fulfilled := onF; on_rejected := onR; derived := d |} in
  let w1 := with_promises (promises w ++ [pending_cell]) w in
  match promises w !! p with
  | Some c =>
      match cell_state c with
      | Pending rs =>
          (d, with_promises
                (<[p := {| cell_state := Pending (rs ++ [r]); cell_handled := true |}]>
                   (promises w1)) w1)
      | Settled o =>
          (d, enqueue [{| job_reaction := r; job_argument := o |}]
                (with_promises
                   (<[p := {| cell_state := Settled o; cell_handled := true |}]>
                      (promises w1)) w1))
      end
  | None => (d, w1)
  end.

(** Running one of the program's handlers on the settled value.  The
    handlers of [resolve] call [asFunction] of a child publisher, which
    returns undefined; when the child is missing, reading [asFunction] of
    undefined throws.  The other handlers return normally.  What a handler
    returns resolves the derived promise, what it throws rejects it. *)
Definition run_handler `{Children} (h : Handler) (arg : Value) (w : World)
  : Outcome * World :=
  match h with
  | HCompleted =>
      if has_completed then (Fulfilled VUndefined, add_log (ETrigger Completed arg) w)
      else (Rejected TypeError, w)
  | HFailed =>
      if has_failed then (Fulfilled VUndefined, add_log (ETrigger Failed arg) w)
      else (Rejected TypeError, w)
  | HMapItem l =>
      (Fulfilled (VObject [("listener", l); ("value", arg)]), w)
  | HAllResolve a i =>
      match alls w !! a with
      | Some st =>
          let vals := <[i := arg]> (all_values st) in
          let rem := all_remaining st - 1 in
          let w1 := with_alls
                      (<[a := {| all_promise := all_promise st; all_values := vals;
                                 all_remaining := rem |}]> (alls w)) w in
          (Fulfilled VUndefined,
           if Nat.eqb rem 0
           then settle (all_promise st) (Fulfilled (VArray vals)) w1
           else w1)
      | None => (Fulfilled VUndefined, w)
      end
  | HAllReject p => (Fulfilled VUndefined, settle p (Rejected arg) w)
  end.

Definition run_job `{Children} (j : Job) (w : World) : World :=
  let r := job_reaction j in
  let '(res, w1) :=
    match job_argument j with
    | Fulfilled v =>
        match on_fulfilled r with
        | Some h => run_handler h v w
        | None => (Fulfilled v, w)
        end
    | Rejected e =>
        match on_rejected r with
        | Some h => run_handler h e w
        | None => (Rejected e, w)
        end
    end in
  settle (derived r) res w1.

Fixpoint run_jobs `{Children} (fuel : nat) (w : World) : World :=
  match fuel with
  | 0 => w
  | S n =>
      match jobs w with
      | [] => w
      | j :: js => run_jobs n (run_job j (with_jobs js w))
      end
  end.

Definition reactions_of (c : PromiseCell) : nat :=
  match cell_state c with Pending rs => length rs | Settled _ => 0 end.

Definition pending_reactions (ps : list PromiseCell) : nat :=
  foldr (fun c n => reactions_of c + n) 0 ps.

(** Every job that can still run is either queued or waits as a reaction of
    a pending promise, which bounds the length of the run. *)
Definition job_bound (w : World) : nat :=
  length (jobs w) + pending_reactions (promises w).

(** Run the queued promise jobs until the queue is empty. *)
Definition drain `{Children} (w : World) : World := run_jobs (job_bound w) w.

(** The rejected promises to which no reaction was ever attached: the
    runtime reports them as uncaught errors. *)
Definition unhandled_rejection (c : PromiseCell) : bool :=
  match cell_state c with
  | Settled (Rejected _) => negb (cell_handled c)
  | _ => false
  end.

(** ** The monad of the methods

    A method either returns a value, throws, or exhausts the budget of
    nested calls into the application's functions; the world it reached is
    kept in every case. *)

Inductive Res (A : Type) : Type :=
| Ret (a : A) (w : World)
| Exn (e : Value) (w : World)
| Out (w : World).

Arguments Ret {A} a w.
Arguments Exn {A} e w.
Arguments Out {A} w.

Definition M (A : Type) : Type := World -> Res A.

Definition world_of {A} (r : Res A) : World :=
  match r with Ret _ w | Exn _ w | Out w => w end.

Definition ret {A} (a : A) : M A := fun w => Ret a w.

Definition bind {A B} (m : M A) (k : A -> M B) : M B :=
  fun w =>
    match m w with
    | Ret a w1 => k a w1
    | Exn e w1 => Exn e w1
    | Out w1 => Out w1
    end.

Definition throw {A} (e : Value) : M A := fun w => Exn e w.

Definition gets {A} (f : World -> A) : M A := fun w => Ret (f w) w.

Definition modify (f : World -> World) : M unit := fun w => Ret tt (f w).

Declare Scope js_scope.
Delimit Scope js_scope with js.
Notation "'let*' x := m 'in' k" := (bind m (fun x => k))
  (at level 10, x name, m at level 100, k at level 200) : js_scope.
Notation "m ;; k" := (bind m (fun _ => k))
  (at level 100, k at level 200, right associativity) : js_scope.
Open Scope js_scope.

Fixpoint for_each {A} (f : A -> M unit) (xs : list A) : M unit :=
  match xs with
  | [] => ret tt
  | x :: xs => f x ;; for_each f xs
  end.

Fixpoint map_m {A B} (f : A -> M B) (xs : list A) : M (list B) :=
  match xs with
  | [] => ret []
  | x :: xs => let* y := f x in let* ys := map_m f xs in ret (y :: ys)
  end.

(** [v.then(onF, onR)] on a value. *)
Definition promise_then (v : Value) (onF onR : option Handler) : M Value :=
  match v with
  | VPromise p =>
      fun w => let '(d, w1) := perform_then p onF onR w in Ret (VPromise d) w1
  | _ => throw TypeError
  end.

(** [Promise.resolve(x)]: a promise is returned as it is, another value
    gives a new promise fulfilled with it. *)
Definition promise_resolve (x : Value) (w : World) : nat * World :=
  match x with
  | VPromise q => (q, w)
  | _ =>
      (length (promises w),
       with_promises
         (promises w ++ [{| cell_state := Settled (Fulfilled x); cell_handled := false |}])
         w)
  end.

Definition update_all (a : nat) (f : AllState -> AllState) (w : World) : World :=
  with_alls (alter f a (alls w)) w.

(** The loop of [Promise.all] over the elements, [i] being the index of the
    first of [xs]. *)
Fixpoint all_loop (a p i : nat) (xs : list Value) (w : World) : World :=
  match xs with
  | [] => w
  | x :: xs =>
      let w1 := update_all a (fun st =>
                  {| all_promise := all_promise st;
                     all_values := all_values st ++ [VUndefined];
                     all_remaining := all_remaining st |}) w in
      let '(q, w2) := promise_resolve x w1 in
      let w3 := update_all a (fun st =>
                  {| all_promise := all_promise st;
                     all_values := all_values st;
                     all_remaining := all_remaining st + 1 |}) w2 in
      let '(_, w4) := perform_then q (Some (HAllResolve a i)) (Some (HAllReject p)) w3 in
      all_loop a p (S i) xs w4
  end.

(** [Promise.all(xs)] *)
Definition promise_all (xs : list Value) : M Value :=
  fun w =>
    let p := length (promises w) in
    let a := length (alls w) in
    let w1 := with_alls
                (alls w ++ [{| all_promise := p; all_values := []; all_remaining := 1 |}])
                (with_promises (promises w ++ [pending_cell]) w) in
    let w2 := all_loop a p 0 xs w1 in
    let w3 := update_all a (fun st =>
                {| all_promise := all_promise st;
                   all_values := all_values st;
                   all_remaining := all_remaining st - 1 |}) w2 in
    let w4 := match alls w3 !! a with
              | Some st =>
                  if Nat.eqb (all_remaining st) 0
                  then settle p (Fulfilled (VArray (all_values st))) w3
                  else w3
              | None => w3
              end in
    Ret (VPromise p) w4.

(** ** The event bus *)

(** Modelled from the spec: [addListener] of [_.EventEmitter] in [./utils],
    which is not among the sources; it registers a handler for an event
    type, after the handlers registered before. *)
Definition addListener (ty : string) (h : nat) (em : list (string * nat))
  : list (string * nat) :=
  em ++ [(ty, h)].

(** Modelled from the spec: [removeListener] of [_.EventEmitter] in
    [./utils], which is not among the sources; it takes the handler out of
    the registrations of the event type. *)
Definition removeListener (ty : string) (h : nat) (em : list (string * nat))
  : list (string * nat) :=
  filter (fun r => ¬ (r.1 = ty ∧ r.2 = h)) em.

(** Modelled from the spec: the handlers to which [emit] of
    [_.EventEmitter] in [./utils], which is not among the sources, fans
    out synchronously and in order: those registered for the type when the
    emission starts.  A handler that is removed while the emission is under
    way is still in this list. *)
Definition listeners (ty : string) (em : list (string * nat)) : list nat :=
  (filter (fun r => r.1 = ty) em).*2.

(** ** The application around the publisher *)

(** What a function of the application does with the publisher while it
    runs. *)
Inductive Cmd : Type :=
| CUnsubscribe (h : nat)              (* calls the function returned by listen *)
| CTriggerSync (args : list Value)
| CTrigger (args : list Value)
| CListen (f : nat)
| CListenOnce (f : nat) (ctx : option Value).

Record Script := { actions : list Cmd; result : Value }.

(** What the subclass and the application supply: the event type and the
    hooks, which a subclass may override; [canHandlePromise], which the
    class calls but does not define; and the functions of the application,
    which do not throw (the spec leaves a throwing listener to the bus).
    The child publishers [completed] and [failed] are external as well:
    whether they are attached is told by [Children], and calling
    [asFunction] of one that is there is recorded as the event [ETrigger]. *)
Record Config := {
  eventType : string;
  canHandlePromise : bool;
  preEmit : list Value -> Value;
  shouldEmit : list Value -> Value;
  body : nat -> Value -> list Value -> Script
}.

(** [new Publisher()]: a fresh emitter and an empty [_dispatchPromises]. *)
Definition constructor : World :=
  {| dispatchPromises := 0; arrays := [[]]; emitter := []; closures := [];
     promises := []; alls := []; jobs := []; ticks := []; log := [] |}.

(** ** The methods of [Publisher] *)

Section Publisher.

Variable cfg : Config.
Context `{Children}.

(** How the actions of a function of the application are carried out. *)
Variable exec : list Cmd -> M unit.

Definition emit_event (e : Event) : M unit := modify (add_log e).

(** A function of the application runs: its actions, then its result. *)
Definition call_user (h f : nat) (this : Value) (args : list Value) : M Value :=
  emit_event (ECall h f this args) ;;
  let s := body cfg f this args in
  exec (actions s) ;;
  ret (result s).

(** The function returned by [listen] for subscription [h]:
    [aborted = true; this.emitter.removeListener(this.eventType, eventHandler)] *)
Definition unsubscribe (h : nat) : M unit :=
  modify (fun w =>
    with_closures
      (alter (fun c => {| aborted := true; callback := callback c |}) h (closures w)) w) ;;
  modify (fun w => with_emitter (removeListener (eventType cfg) h (emitter w)) w).

(** [cb.apply(this, args)] for the functions that reach [listen].  The
    arrow function of [listenOnce] has no [arguments] of its own: the
    name refers to the arguments of [listenOnce]. *)
Definition apply_callback (h : nat) (cb : Callback) (this : Value) (args : Value)
  : M Value :=
  match cb with
  | CbUser f => call_user h f this (apply_list args)
  | CbOnce callback bindContext arguments unsubscribe_ =>
      let args := arguments in
      unsubscribe unsubscribe_ ;;
      call_user h callback bindContext args
  end.

(** [this._dispatchPromises.push(r)] *)
Definition push_record (r : DispatchRecord) : M unit :=
  modify (fun w =>
    with_arrays (alter (fun a => a ++ [r]) (dispatchPromises w) (arrays w)) w).

(** [this._dispatchPromises = []] *)
Definition clear_records : M unit :=
  modify (fun w =>
    with_dispatchPromises (length (arrays w)) (with_arrays (arrays w ++ [[]]) w)).

(** The [eventHandler] closure of subscription [h]. *)
Definition eventHandler (h : nat) (args : Value) : M unit :=
  let* c := gets (fun w => closures w !! h) in
  match c with
  | None => ret tt
  | Some c =>
      if aborted c then ret tt
      else
        emit_event (EInvoke h (apply_list args)) ;;
        let* result := apply_callback h (callback c) VPublisher args in
        if isPromise result then
          emit_event ECanHandlePromise ;;
          if negb (canHandlePromise cfg) then
            emit_event (EWarn ("Unhandled promise for " +:+ eventType cfg))
          else
            push_record {| promise := result; listener := fn_value (callback c) |}
        else ret tt
  end.

Definition listen (callback : Callback) : M nat :=
  let* h := gets (fun w => length (closures w)) in
  modify (fun w =>
    with_closures (closures w ++ [{| aborted := false; callback := callback |}]) w) ;;
  modify (fun w => with_emitter (addListener (eventType cfg) h (emitter w)) w) ;;
  ret h.

Definition listenOnce (callback : nat) (bindContext : option Value) : M nat :=
  let arguments := VFun callback :: option_list bindContext in
  let bindContext := js_or (default VUndefined bindContext) VPublisher in
  let* unsubscribe_ := gets (fun w => length (closures w)) in
  listen (CbOnce callback bindContext arguments unsubscribe_).

(** [this.emitter.emit(ty, args)] *)
Definition emit (ty : string) (args : Value) : M unit :=
  let* hs := gets (fun w => listeners ty (emitter w)) in
  for_each (fun h => eventHandler h args) hs.

(** [this.completed.asFunction(v)] and [this.failed.asFunction(v)] *)
Definition asFunction (c : Child) (v : Value) : M unit :=
  if match c with Completed => has_completed | Failed => has_failed end
  then emit_event (ETrigger c v)
  else throw TypeError.

Definition resolve (promise : Value) : M Value :=
  if negb (isPromise promise) then
    asFunction Completed promise ;;
    ret VUndefined
  else
    promise_then promise (Some HCompleted) (Some HFailed).

Definition _handleDispatchPromises : M Value :=
  let* ps := gets dispatchPromises in
  clear_records ;;
  let* items := gets (array_at ps) in
  match items with
  | [] => ret VUndefined
  | [item] => resolve (promise item)
  | _ =>
      let* mappedPromises :=
        map_m (fun item =>
                 promise_then (promise item) (Some (HMapItem (listener item))) None)
              items in
      let* joinedPromise := promise_all mappedPromises in
      resolve joinedPromise
  end.

Definition triggerSync (arguments : list Value) : M unit :=
  let args := VArguments arguments in
  let preResult := preEmit cfg (apply_list args) in
  let args :=
    if defined preResult then
      if isArguments preResult then preResult else concat_empty preResult
    else args in
  if truthy (shouldEmit cfg (apply_list args)) then
    clear_records ;;
    emit (eventType cfg) args ;;
    _handleDispatchPromises ;;
    ret tt
  else ret tt.

(** [_.nextTick( () => this.triggerSync.apply( this, args ) )]: the call is
    put off to a later turn, after the calls put off before ([_.nextTick]
    of [./utils] is not among the sources and is modelled from the spec). *)
Definition trigger (arguments : list Value) : M unit :=
  modify (fun w => with_ticks (ticks w ++ [arguments]) w).

Definition run_cmd (c : Cmd) : M unit :=
  match c with
  | CUnsubscribe h => unsubscribe h
  | CTriggerSync args => triggerSync args
  | CTrigger args => trigger args
  | CListen f => listen (CbUser f) ;; ret tt
  | CListenOnce f ctx => listenOnce f ctx ;; ret tt
  end.

Definition run_cmds (cs : list Cmd) : M unit := for_each run_cmd cs.

End Publisher.

(** Calls into the application nest at most [fuel] deep. *)
Fixpoint exec `{Children} (cfg : Config) (fuel : nat) (cs : list Cmd) : M unit :=
  match fuel with
  | 0 => fun w => Out w
  | S n => run_cmds cfg (exec cfg n) cs
  end.

(** ** The turns of the event loop *)

Inductive Task : Type :=
| TCmd (c : Cmd)                        (* the application calls the publisher *)
| TResolve (v : Value)                  (* publisher.resolve(v) *)
| TTick                                 (* the next function deferred by nextTick *)
| TNewPromise                           (* the application creates a promise *)
| TSettle (p : nat) (o : Outcome).      (* ... and settles it *)

Definition run_tick `{Children} (cfg : Config) (fuel : nat) : M unit :=
  fun w =>
    match ticks w with
    | [] => Ret tt w
    | args :: rest => triggerSync cfg (exec cfg fuel) args (with_ticks rest w)
    end.

(** One turn: the task runs to its end, then the promise jobs run. *)
Definition run_task `{Children} (cfg : Config) (fuel : nat) (t : Task) (w : World) : World :=
  drain
    (match t with
     | TCmd c => world_of (run_cmd cfg (exec cfg fuel) c w)
     | TResolve v => world_of (resolve v w)
     | TTick => world_of (run_tick cfg fuel w)
     | TNewPromise => with_promises (promises w ++ [pending_cell]) w
     | TSettle p o => settle p o w
     end).

Definition run_tasks `{Children} (cfg : Config) (fuel : nat) (ts : list Task) (w : World) : World :=
  foldl (fun w t => run_task cfg fuel t w) w ts.

(** ** A publisher with both children *)

(** The publisher of the statements below, unless they say otherwise, has
    its two children: the spec treats them as collaborators that exist. *)
#[export] Instance both_children : Children :=
  {| has_completed := true; has_failed := true |}.

(** * What the statements are about *)

(** ** The arguments of a cycle *)

(** The argument object that [triggerSync] hands to [shouldEmit] and to
    the fan-out. *)
Definition cycle_args (cfg : Config) (arguments : list Value) : Value :=
  let preResult := preEmit cfg arguments in
  if defined preResult then
    if isArguments preResult then preResult else concat_empty preResult
  else VArguments arguments.

(** The cycle that [triggerSync] runs once the arguments are fixed. *)
Definition cycle (cfg : Config) (exec : list Cmd -> M unit) (args : Value) : M unit :=
  if truthy (shouldEmit cfg (apply_list args)) then
    clear_records ;;
    emit cfg exec (eventType cfg) args ;;
    _handleDispatchPromises ;;
    ret tt
  else ret tt.

(** The elements of an ordered, array-like value: an Array or an
    [arguments] object. *)
Definition array_like (v : Value) : option (list Value) :=
  match v with
  | VArray xs | VArguments xs => Some xs
  | _ => None
  end.

(** ** Publishers without children *)

(** A publisher to which no child was attached, as [new Publisher()]
    leaves it. *)
Definition no_children : Children :=
  {| has_completed := false; has_failed := false |}.

(** What the specification says of [resolve]: it returns normally on
    every publisher, for every argument and in every state. *)
Definition resolve_never_throws : Prop :=
  forall (ch : Children) (v : Value) (w : World),
    exists r w', @resolve ch v w = Ret r w'.

(** ** Outcomes and promise cells *)

Definition trigger_of (o : Outcome) : Event :=
  match o with
  | Fulfilled v => ETrigger Completed v
  | Rejected e => ETrigger Failed e
  end.

(** The reaction that [resolve] attaches. *)
Definition resolve_reaction (d : nat) : Reaction :=
  {| on_fulfilled := Some HCompleted; on_rejected := Some HFailed; derived := d |}.

Definition fulfilled_cell (v : Value) (handled : bool) : PromiseCell :=
  {| cell_state := Settled (Fulfilled v); cell_handled := handled |}.

(** No promise of [w'] is a rejection without a handler unless it was one
    in [w] already. *)
Definition no_new_unhandled (w w' : World) : Prop :=
  forall k c, promises w' !! k = Some c -> unhandled_rejection c = true ->
              promises w !! k = Some c.

(** ** Relations between the world before and after a run *)

Definition respects {A} (R : relation World) (m : M A) : Prop :=
  forall w, R w (world_of (m w)).

(** What the promise runtime may change: nothing of the publisher's
    registry, records or deferred calls, and the log grows by triggers of
    the child publishers only. *)
Definition is_trigger (e : Event) : Prop :=
  match e with ETrigger _ _ => True | _ => False end.

Record promise_step (w w' : World) : Prop := {
  ps_dispatchPromises : dispatchPromises w' = dispatchPromises w;
  ps_arrays : arrays w' = arrays w;
  ps_emitter : emitter w' = emitter w;
  ps_closures : closures w' = closures w;
  ps_ticks : ticks w' = ticks w;
  ps_log : exists evs, log w' = log w ++ evs /\ Forall is_trigger evs
}.

(** *** Subscriptions that were cancelled *)

Definition is_aborted (h : nat) (w : World) : Prop :=
  exists c, closures w !! h = Some c /\ aborted c = true.

(** From [w] to [w'] the callback of subscription [h] was not applied. *)
Definition not_invoked (h : nat) (w w' : World) : Prop :=
  exists evs, log w' = log w ++ evs /\ forall args, EInvoke h args ∉ evs.

(** Once [h] is cancelled it stays so and its callback is not applied. *)
Definition quiet (h : nat) (w w' : World) : Prop :=
  is_aborted h w -> is_aborted h w' /\ not_invoked h w w'.

(** *** The arrays behind [this._dispatchPromises] *)

(** The array at [a], when it is not the one the field refers to, stays
    out of reach: it is neither written nor referred to again. *)
Definition keeps_array (a : nat) (w w' : World) : Prop :=
  a < length (arrays w) -> a <> dispatchPromises w ->
  a < length (arrays w') /\ a <> dispatchPromises w' /\ arrays w' !! a = arrays w !! a.

(** *** The log *)

Definition log_grows (w w' : World) : Prop := exists evs, log w' = log w ++ evs.

Definition is_call (h : nat) (e : Event) : bool :=
  match e with
  | ECall h' _ _ _ => Nat.eqb h' h
  | _ => false
  end.

(** How often a function of the application was called for subscription [h]. *)
Definition calls (h : nat) (l : list Event) : nat :=
  length (filter (fun e => is_call h e = true) l).

(** Subscription [h] holds the arrow function of [listenOnce], which
    cancels [h] itself, and its callback was called at most once, and not
    at all while the subscription is live. *)
Definition once_inv (h : nat) (w : World) : Prop :=
  exists c, closures w !! h = Some c /\
    (exists f ctx outer, callback c = CbOnce f ctx outer h) /\
    calls h (log w) <= (if aborted c then 1 else 0).

Definition once_kept (h : nat) (w w' : World) : Prop := once_inv h w -> once_inv h w'.

(** ** Several tracked promises: the aggregate *)

(** [{ listener: item.listener, value: v }] *)
Definition entry (item : DispatchRecord) (v : Value) : Value :=
  VObject [("listener", listener item); ("value", v)].

(** What a mapped promise settles to when the record's promise does. *)
Definition mapped (item : DispatchRecord) (o : Outcome) : Outcome :=
  match o with
  | Fulfilled v => Fulfilled (entry item v)
  | Rejected e => Rejected e
  end.

(** The element of the aggregate's value list for a record. *)
Definition slot (item : DispatchRecord) (s : option Outcome) : Value :=
  match s with
  | Some (Fulfilled v) => entry item v
  | _ => VUndefined
  end.

Definition slots (items : list DispatchRecord) (st : list (option Outcome))
  : list Value :=
  zip_with slot items st.

Fixpoint fulfilled_count (st : list (option Outcome)) : nat :=
  match st with
  | [] => 0
  | Some (Fulfilled _) :: st => S (fulfilled_count st)
  | _ :: st => fulfilled_count st
  end.

(** The outcome of the aggregate, once it has one. *)
Definition next_verdict (items : list DispatchRecord) (st : list (option Outcome))
    (vd : option Outcome) (j : nat) (o : Outcome) : option Outcome :=
  match vd with
  | Some x => Some x
  | None =>
      match o with
      | Rejected e => Some (Rejected e)
      | Fulfilled v =>
          let st' := <[j := Some o]> st in
          if Nat.eqb (length items - fulfilled_count st') 0
          then Some (Fulfilled (VArray (slots items st')))
          else None
      end
  end.

(** The settlements of the records' promises seen so far, by index of the
    record, and the outcome of the aggregate. *)
Definition verdict_step (items : list DispatchRecord)
    (s : list (option Outcome) * option Outcome) (x : nat * Outcome)
  : list (option Outcome) * option Outcome :=
  match s.1 !! x.1 with
  | Some None => (<[x.1 := Some x.2]> s.1, next_verdict items s.1 s.2 x.1 x.2)
  | _ => s
  end.

Definition aggregate_run (items : list DispatchRecord) (sched : list (nat * Outcome))
  : list (option Outcome) * option Outcome :=
  foldl (verdict_step items) (replicate (length items) None, None) sched.

Definition verdict_events (vd : option Outcome) : list Event :=
  match vd with
  | None => []
  | Some o => [trigger_of o]
  end.

(** The application settles the promises of the records, one per turn. *)
Definition settle_records (ps : list nat) (sched : list (nat * Outcome)) (w : World)
  : World :=
  foldl (fun w x =>
           match ps !! x.1 with
           | Some p => drain (settle p x.2 w)
           | None => w
           end) w sched.

(** The reactions and promises that [_handleDispatchPromises] sets up for
    [items]: [L] is the number of promises before, [a] the index of the
    bookkeeping of [Promise.all]. *)
Definition map_reaction (L i : nat) (item : DispatchRecord) : Reaction :=
  {| on_fulfilled := Some (HMapItem (listener item)); on_rejected := None;
     derived := L + i |}.

Definition all_reaction (L n a i : nat) : Reaction :=
  {| on_fulfilled := Some (HAllResolve a i); on_rejected := Some (HAllReject (L + n));
     derived := L + n + 1 + i |}.

Definition mapped_cell (L n a i : nat) (item : DispatchRecord) (s : option Outcome)
  : PromiseCell :=
  match s with
  | None => {| cell_state := Pending [all_reaction L n a i]; cell_handled := true |}
  | Some o => {| cell_state := Settled (mapped item o); cell_handled := true |}
  end.

Definition element_cell (s : option Outcome) : PromiseCell :=
  match s with
  | None => pending_cell
  | Some _ => fulfilled_cell VUndefined false
  end.

Definition aggregate_cell (L n : nat) (vd : option Outcome) : PromiseCell :=
  match vd with
  | None => {| cell_state := Pending [resolve_reaction (L + 2 * n + 1)];
               cell_handled := true |}
  | Some o => {| cell_state := Settled o; cell_handled := true |}
  end.

Definition result_cell (vd : option Outcome) : PromiseCell :=
  match vd with
  | None => pending_cell
  | Some _ => fulfilled_cell VUndefined false
  end.

(** ** The aggregate in the middle of a turn *)

(** How far the promise of a record has come: it is pending; it is
    settled and the job of its mapping continuation is queued; the mapped
    promise is settled and the job of the aggregate's continuation is
    queued; that job has run. *)
Inductive Phase : Type :=
| Waiting
| Mapping (o : Outcome)
| Joining (o : Outcome)
| Done (o : Outcome).

Definition joined (ph : Phase) : option Outcome :=
  match ph with Done o => Some o | _ => None end.

Definition mapped_outcome (ph : Phase) : option Outcome :=
  match ph with Joining o | Done o => Some o | _ => None end.

Definition phase_of (s : option Outcome) : Phase :=
  match s with Some o => Done o | None => Waiting end.

Definition item_at (items : list DispatchRecord) (i : nat) : DispatchRecord :=
  default {| promise := VUndefined; listener := VUndefined |} (items !! i).

(** The records that hold promise [p], in record order: those among the
    first [k], and all of them. *)
Definition holders_upto (ps : list nat) (k p : nat) : list nat :=
  filter (fun i => ps !! i = Some p) (seq 0 k).

Definition holders (ps : list nat) (p : nat) : list nat :=
  holders_upto ps (length ps) p.

(** The mapping continuations that wait on promise [p]. *)
Definition waiting_reactions (items : list DispatchRecord) (ps : list nat) (L p : nat)
  : list Reaction :=
  (fun i => map_reaction L i (item_at items i)) <$> holders ps p.

Definition source_of (items : list DispatchRecord) (ps : list nat) (L p : nat)
    (ph : Phase) : PromiseCell :=
  match ph with
  | Waiting => {| cell_state := Pending (waiting_reactions items ps L p);
                  cell_handled := true |}
  | Mapping o | Joining o | Done o => {| cell_state := Settled o; cell_handled := true |}
  end.

Definition map_job (items : list DispatchRecord) (L : nat) (x : nat * Outcome) : Job :=
  {| job_reaction := map_reaction L x.1 (item_at items x.1); job_argument := x.2 |}.

Definition all_job (items : list DispatchRecord) (L a : nat) (x : nat * Outcome) : Job :=
  {| job_reaction := all_reaction L (length items) a x.1;
     job_argument := mapped (item_at items x.1) x.2 |}.

Definition trigger_jobs (d : nat) (t : option Outcome) : list Job :=
  match t with
  | Some o => [{| job_reaction := resolve_reaction d; job_argument := o |}]
  | None => []
  end.

(** The aggregate in the middle of a turn: the phases of the records, the
    outcome of the aggregate, and the jobs that wait, in their order. *)
Record Batch := {
  phases : list Phase;
  verdict : option Outcome;
  to_map : list (nat * Outcome);
  to_join : list (nat * Outcome);
  to_trigger : option Outcome
}.

Record batch_inv (items : list DispatchRecord) (ps : list nat) (L a : nat)
    (base_log : list Event) (b : Batch) (w : World) : Prop := {
  bi_length : length (phases b) = length items;
  bi_to_map : forall i o, (i, o) ∈ to_map b <-> phases b !! i = Some (Mapping o);
  bi_to_join : forall i o, (i, o) ∈ to_join b <-> phases b !! i = Some (Joining o);
  bi_map_once : NoDup (to_map b).*1;
  bi_join_once : NoDup (to_join b).*1;
  bi_source : forall i p ph,
    ps !! i = Some p -> phases b !! i = Some ph ->
    promises w !! p = Some (source_of items ps L p ph);
  bi_mapped : forall i ph,
    phases b !! i = Some ph ->
    promises w !! (L + i)
    = Some (mapped_cell L (length items) a i (item_at items i) (mapped_outcome ph));
  bi_element : forall i ph,
    phases b !! i = Some ph ->
    promises w !! (L + length items + 1 + i) = Some (element_cell (joined ph));
  bi_aggregate :
    promises w !! (L + length items) = Some (aggregate_cell L (length items) (verdict b));
  bi_result :
    promises w !! (L + 2 * length items + 1)
    = Some (match to_trigger b with
            | Some _ => pending_cell
            | None => result_cell (verdict b)
            end);
  bi_all : alls w !! a =
           Some {| all_promise := L + length items;
                   all_values := slots items (joined <$> phases b);
                   all_remaining := length items - fulfilled_count (joined <$> phases b) |};
  bi_jobs : jobs w = (map_job items L <$> to_map b) ++ (all_job items L a <$> to_join b)
                     ++ trigger_jobs (L + 2 * length items + 1) (to_trigger b);
  bi_order : to_map b <> [] -> to_trigger b = None;
  bi_trigger : forall o, to_trigger b = Some o -> verdict b = Some o;
  bi_log : log w = base_log ++ match to_trigger b with
                               | Some _ => []
                               | None => verdict_events (verdict b)
                               end
}.

Definition outcome_at (w : World) (p : nat) : option Outcome :=
  match promises w !! p with
  | Some c => match cell_state c with Settled o => Some o | Pending _ => None end
  | None => None
  end.

Definition initial_phase (w : World) (p : nat) : Phase :=
  match outcome_at w p with Some o => Mapping o | None => Waiting end.

(** The records whose promise is settled when the cycle is resolved, in
    record order, each with the outcome of its promise: those among the
    first [k], and all of them. *)
Definition settled_upto (w : World) (ps : list nat) (k : nat) : list (nat * Outcome) :=
  omap (fun i => match ps !! i with
                 | Some p => match outcome_at w p with
                             | Some o => Some (i, o)
                             | None => None
                             end
                 | None => None
                 end) (seq 0 k).

Definition settled_at (w : World) (ps : list nat) : list (nat * Outcome) :=
  settled_upto w ps (length ps).

(** Settling the promise of record [x.1] with [x.2] settles every record
    that holds the same promise. *)
Definition settles (ps : list nat) (x : nat * Outcome) : list (nat * Outcome) :=
  match ps !! x.1 with
  | Some p => (fun i => (i, x.2)) <$> holders ps p
  | None => []
  end.

(** No reaction waits on the promise. *)
Definition unobserved (c : PromiseCell) : Prop :=
  match cell_state c with Pending rs => rs = [] | Settled _ => True end.

(** The settlements of the records' promises in the order in which the
    runtime sees them: those found at the resolution, then those that the
    application makes. *)
Definition settlements (w : World) (ps : list nat) (sched : list (nat * Outcome))
  : list (nat * Outcome) :=
  settled_at w ps ++ flat_map (settles ps) sched.

Definition fulfilled (o : Outcome) : Prop :=
  match o with Fulfilled _ => True | Rejected _ => False end.

(** The job of the continuation that [resolve] attached is queued when the
    aggregate gets its outcome. *)
Definition next_trigger (vd vd' t : option Outcome) : option Outcome :=
  match vd, vd' with
  | None, Some x => Some x
  | _, _ => t
  end.

(** What the queued jobs of a batch make of the aggregate, and how many
    steps of the queue that takes at most. *)
Definition settle_all (items : list DispatchRecord) (b : Batch)
  : list (option Outcome) * option Outcome :=
  foldl (verdict_step items) (joined <$> phases b, verdict b) (to_join b ++ to_map b).

Definition batch_size (b : Batch) : nat :=
  3 * length (to_map b) + 2 * length (to_join b)
  + match to_trigger b with Some _ => 1 | None => 0 end.

(** The phases after promise [p] is settled with [o]. *)
Definition settle_phases (ps : list nat) (p : nat) (o : Outcome) (phs : list Phase)
  : list Phase :=
  imap (fun k ph => if decide (ps !! k = Some p) then Mapping o else ph) phs.

(** ** Publishers and worlds used as examples *)

(** A listener that publishes on the same publisher while a cycle is
    fanning out: listener 1 returns promise 0; listener 2 returns promise
    1 and, when the event carries [0], first calls [triggerSync(1)]. *)
Definition cfg_reentrant : Config :=
  {| eventType := "event"; canHandlePromise := true;
     preEmit := fun _ => VUndefined; shouldEmit := fun _ => VBool true;
     body := fun f this args =>
       match f with
       | 1 => {| actions := []; result := VPromise 0 |}
       | _ =>
           {| actions := match args with
                         | [VNum 0%Z] => [CTriggerSync [VNum 1]]
                         | _ => []
                         end;
              result := VPromise 1 |}
       end |}.

(** Two promises exist and both listeners are subscribed. *)
Definition w_listening : World :=
  run_tasks cfg_reentrant 2
    [TNewPromise; TNewPromise; TCmd (CListen 1); TCmd (CListen 2)] constructor.

(** The cycle of [triggerSync(0)] after listener 1 has run. *)
Definition w_mid : World :=
  world_of (eventHandler cfg_reentrant (exec cfg_reentrant 2) 0 (VArguments [VNum 0])
              (world_of (clear_records w_listening))).

(** The claim as it is stated: a cycle that starts while another one is
    fanning out leaves the records which that one has collected. *)
Definition reentrant_cycle_keeps_records : Prop :=
  forall cfg fuel arguments w,
    current_records (world_of (triggerSync cfg (exec cfg fuel) arguments w))
    = current_records w.

(** The functions of the application do nothing and return undefined. *)
Definition cfg_plain : Config :=
  {| eventType := "event"; canHandlePromise := true;
     preEmit := fun _ => VUndefined; shouldEmit := fun _ => VBool true;
     body := fun _ _ _ => {| actions := []; result := VUndefined |} |}.

(** A publisher that tracks one record, whose promise is in state [s]. *)
Definition w_one (s : PromiseState) : World :=
  with_arrays [[{| promise := VPromise 0; listener := VFun 1 |}]]
    (with_promises [{| cell_state := s; cell_handled := false |}] constructor).

(** A publisher that tracks three records: the promise of the first is
    fulfilled already, the two others hold the same pending promise. *)
Definition items_mixed : list DispatchRecord :=
  [{| promise := VPromise 0; listener := VFun 1 |};
   {| promise := VPromise 1; listener := VFun 2 |};
   {| promise := VPromise 1; listener := VFun 3 |}].

Definition w_mixed : World :=
  with_arrays [items_mixed]
    (with_promises [fulfilled_cell (VNum 5) false; pending_cell] constructor).

(** A publisher whose [shouldEmit] always refuses. *)
Definition cfg_never : Config :=
  {| eventType := "event"; canHandlePromise := true;
     preEmit := fun _ => VUndefined; shouldEmit := fun _ => VBool false;
     body := fun _ _ _ => {| actions := []; result := VUndefined |} |}.

(** Function 0 is subscribed with [listen]. *)
Definition w_subscribed : World := world_of (listen cfg_plain (CbUser 0) constructor).

(** Function [f] returns promise [f]; promise 0 is fulfilled with 5 from
    the start. *)
Definition cfg_promises (can : bool) : Config :=
  {| eventType := "event"; canHandlePromise := can;
     preEmit := fun _ => VUndefined; shouldEmit := fun _ => VBool true;
     body := fun f _ _ => {| actions := []; result := VPromise f |} |}.

Definition w_resolved : World :=
  with_promises [fulfilled_cell (VNum 5) false; pending_cell; pending_cell] constructor.

(** Function 0 cancels subscription 1 when it is called. *)
Definition cfg_cancelling : Config :=
  {| eventType := "event"; canHandlePromise := true;
     preEmit := fun _ => VUndefined; shouldEmit := fun _ => VBool true;
     body := fun f _ _ =>
       {| actions := match f with 0 => [CUnsubscribe 1] | _ => [] end;
          result := VUndefined |} |}.

(** [preEmit] returns an Array: the arguments and one more. *)
Definition cfg_preEmit : Config :=
  {| eventType := "event"; canHandlePromise := true;
     preEmit := fun args => VArray (args ++ [VStr "extra"]);
     shouldEmit := fun _ => VBool true;
     body := fun _ _ _ => {| actions := []; result := VUndefined |} |}.

(** ** Subscriptions, the fan-out and what a run keeps *)

(** Every handler that the bus serves was made by [listen]. *)
Definition handlers_known (w : World) : Prop :=
  Forall (fun r : string * nat => r.2 < length (closures w)) (emitter w).

(** A subscription that is cancelled, or that holds a function which the
    application gave to [listen] itself. *)
Definition plain_closure (c : Closure) : bool :=
  aborted c || match callback c with CbUser _ => true | CbOnce _ _ _ _ => false end.

(** The functions of the application call nothing of the publisher. *)
Definition passive (cfg : Config) : Prop :=
  forall f this args, actions (body cfg f this args) = [].

(** What [eventHandler] of subscription [h] logs and tracks when it
    receives [args], the closures being [cl] and the function called being
    passive: nothing when the subscription is cancelled; otherwise the
    callback is applied to the arguments with the publisher as [this], and
    a promise that it returns is tracked with the callback as its listener,
    or discarded with a warning. *)
Definition delivery (cfg : Config) (cl : list Closure) (args : Value) (h : nat)
  : list Event * list DispatchRecord :=
  match cl !! h with
  | Some c =>
      if aborted c then ([], [])
      else
        match callback c with
        | CbUser f =>
            let xs := apply_list args in
            let r := result (body cfg f VPublisher xs) in
            if isPromise r then
              if canHandlePromise cfg then
                ([EInvoke h xs; ECall h f VPublisher xs; ECanHandlePromise],
                 [{| promise := r; listener := VFun f |}])
              else
                ([EInvoke h xs; ECall h f VPublisher xs; ECanHandlePromise;
                  EWarn ("Unhandled promise for " +:+ eventType cfg)], [])
            else ([EInvoke h xs; ECall h f VPublisher xs], [])
        | CbOnce _ _ _ _ => ([], [])
        end
  | None => ([], [])
  end.

Definition fanout_log (cfg : Config) (cl : list Closure) (args : Value) (hs : list nat)
  : list Event :=
  flat_map (fun h => (delivery cfg cl args h).1) hs.

Definition fanout_records (cfg : Config) (cl : list Closure) (args : Value)
    (hs : list nat) : list DispatchRecord :=
  flat_map (fun h => (delivery cfg cl args h).2) hs.

(** The world in which a cycle starts its resolution, after the fan-out of
    [args] to passive listeners: a new array holds the records, in the
    order in which the bus served the handlers. *)
Definition after_fanout (cfg : Config) (args : Value) (w : World) : World :=
  let hs := listeners (eventType cfg) (emitter w) in
  with_log (log w ++ fanout_log cfg (closures w) args hs)
    (with_arrays (arrays w ++ [fanout_records cfg (closures w) args hs])
       (with_dispatchPromises (length (arrays w)) w)).

Definition holds_promise (r : DispatchRecord) : Prop := isPromise (promise r) = true.

(** Every record of every array holds a promise. *)
Definition tracks_promises (w : World) : Prop :=
  Forall (Forall holds_promise) (arrays w).

(** [m] keeps the invariant [I], relates the world in which it starts to
    the one it reaches by [R], and does not throw. *)
Definition keeps (I : World -> Prop) (R : relation World) {A} (m : M A) : Prop :=
  forall w, I w ->
    I (world_of (m w)) /\ R w (world_of (m w)) /\ forall e w', m w <> Exn e w'.

(** From [w] to [w'] no promise was touched, no job was queued and no child
    publisher was triggered. *)
Definition unresolved (w w' : World) : Prop :=
  promises w' = promises w /\ jobs w' = jobs w /\ alls w' = alls w /\
  exists evs, log w' = log w ++ evs /\ forall c v, ETrigger c v ∉ evs.

Definition any_world (w w' : World) : Prop := True.

(** The field [_dispatchPromises] refers to an array, and every handler
    that the bus serves was made by [listen]. *)
Definition wellformed (w : World) : Prop :=
  dispatchPromises w < length (arrays w) /\ handlers_known w.

Definition stays_wellformed (w w' : World) : Prop := wellformed w -> wellformed w'.

(** Function 0, which returns promise 0, is subscribed with [listen]. *)
Definition w_promising : World :=
  world_of (listen (cfg_promises true) (CbUser 0) w_resolved).

(** * Properties *)

(** ** The hook pipeline *)

Lemma triggerSync_cycle cfg exec arguments :
  triggerSync cfg exec arguments = cycle cfg exec (cycle_args cfg arguments).
Proof. reflexivity. Qed.

(** C4: when [shouldEmit], asked with the arguments that [preEmit] may have
    replaced, answers with a false value, [triggerSync] returns at once and
    leaves the world as it was: no listener is invoked and nothing is
    logged, no record is created and the record list is what it was (empty
    if it was empty), no promise gets a reaction, no job is queued and no
    child publisher is triggered. *)
Theorem triggerSync_suppressed cfg exec arguments w :
  truthy (shouldEmit cfg (apply_list (cycle_args cfg arguments))) = false ->
  triggerSync cfg exec arguments w = Ret tt w.
Proof.
  intros H. rewrite triggerSync_cycle. unfold cycle. rewrite H. reflexivity.
Qed.

Lemma triggerSync_suppressed_witness :
  triggerSync cfg_never (exec cfg_never 1) [VNum 1] constructor = Ret tt constructor.
Proof. apply triggerSync_suppressed. reflexivity. Defined.

(** C8: the value of [preEmit] decides the argument list of the cycle, for
    [shouldEmit] and for the fan-out alike: undefined keeps the arguments
    of the call; an ordered, array-like value (an [arguments] object or an
    Array) is used with its own elements; any other defined value becomes
    the only element of the list. *)
Theorem triggerSync_preEmit cfg exec arguments w :
  let r := preEmit cfg arguments in
  (r = VUndefined ->
     triggerSync cfg exec arguments w = cycle cfg exec (VArguments arguments) w) /\
  (forall xs, array_like r = Some xs ->
     apply_list r = xs /\
     triggerSync cfg exec arguments w = cycle cfg exec r w) /\
  (defined r = true -> array_like r = None ->
     triggerSync cfg exec arguments w = cycle cfg exec (VArray [r]) w).
Proof.
  intros r. rewrite triggerSync_cycle. unfold cycle_args. fold r.
  split; [|split].
  - intros ->. reflexivity.
  - intros xs Hxs. destruct r; simpl in Hxs; try discriminate;
      inversion Hxs; subst; split; reflexivity.
  - intros Hd Hn. destruct r; simpl in *; try discriminate; reflexivity.
Qed.

(** ** What a listener returns *)

(** C10: when the callback of a live subscription returns a value that is
    not a promise, undefined included, the event handler ends in the very
    state in which the callback returned: it pushes no record, writes no
    warning and does not query [canHandlePromise].  The query is made when
    the callback returns a promise, and only then; after it the promise is
    tracked, or discarded with a warning. *)
Theorem eventHandler_plain_result cfg exec h args w c v w1 :
  closures w !! h = Some c ->
  aborted c = false ->
  apply_callback cfg exec h (callback c) VPublisher args
    (add_log (EInvoke h (apply_list args)) w) = Ret v w1 ->
  (isPromise v = false -> eventHandler cfg exec h args w = Ret tt w1) /\
  (isPromise v = true ->
     eventHandler cfg exec h args w =
     (if canHandlePromise cfg
      then push_record {| promise := v; listener := fn_value (callback c) |}
      else emit_event (EWarn ("Unhandled promise for " +:+ eventType cfg)))
       (add_log ECanHandlePromise w1)).
Proof.
  intros Hc Ha Hcall.
  split; intros Hv; unfold eventHandler, bind, gets; rewrite Hc, Ha;
    unfold emit_event at 1; unfold modify; rewrite Hcall, Hv.
  - reflexivity.
  - simpl. destruct (canHandlePromise cfg); reflexivity.
Qed.

Lemma eventHandler_plain_result_witness :
  eventHandler cfg_plain (exec cfg_plain 1) 0 (VArguments [VNum 1]) w_subscribed
  = Ret tt (add_log (ECall 0 0 VPublisher [VNum 1])
              (add_log (EInvoke 0 [VNum 1]) w_subscribed)).
Proof.
  apply (eventHandler_plain_result cfg_plain (exec cfg_plain 1) 0 (VArguments [VNum 1])
           w_subscribed {| aborted := false; callback := CbUser 0 |} VUndefined);
    reflexivity.
Defined.

(** ** Termination of the promise jobs *)

Lemma pending_reactions_app ps qs :
  pending_reactions (ps ++ qs) = pending_reactions ps + pending_reactions qs.
Proof. induction ps as [|c ps IH]; simpl; [done|]. rewrite IH. lia. Qed.

Lemma pending_reactions_insert ps p c c' :
  ps !! p = Some c ->
  pending_reactions (<[p := c']> ps) + reactions_of c
  = pending_reactions ps + reactions_of c'.
Proof.
  revert p. induction ps as [|x ps IH]; intros [|p] H; simpl in *; try discriminate.
  - inversion H; subst. lia.
  - specialize (IH _ H). lia.
Qed.

Lemma settle_bound p o w : job_bound (settle p o w) = job_bound w.
Proof.
  unfold settle. destruct (promises w !! p) as [c|] eqn:E; [|done].
  destruct (cell_state c) as [rs|o'] eqn:Es; [|done].
  unfold job_bound. simpl. rewrite length_app, length_map.
  pose proof (pending_reactions_insert (promises w) p c
    {| cell_state := Settled o; cell_handled := cell_handled c |} E) as H.
  unfold reactions_of in H at 1 2. rewrite Es in H. simpl in H. lia.
Qed.

Lemma run_handler_bound h v w :
  job_bound (run_handler h v w).2 = job_bound w.
Proof.
  destruct h; simpl; try done.
  - destruct (alls w !! a) as [st|]; simpl; [|done].
    destruct (Nat.eqb _ 0); [rewrite settle_bound|]; done.
  - by rewrite settle_bound.
Qed.

Lemma run_job_bound j w : job_bound (run_job j w) = job_bound w.
Proof.
  unfold run_job.
  destruct (job_argument j), (on_fulfilled (job_reaction j)), (on_rejected (job_reaction j));
    try (rewrite settle_bound; done);
    match goal with |- context [run_handler ?h ?v ?w] =>
      pose proof (run_handler_bound h v w); destruct (run_handler h v w) end;
    rewrite settle_bound; done.
Qed.

Lemma drain_nil w : jobs w = [] -> drain w = w.
Proof. unfold drain. intros H. destruct (job_bound w); simpl; by rewrite ?H. Qed.

Lemma drain_cons w j js :
  jobs w = j :: js -> drain w = drain (run_job j (with_jobs js w)).
Proof.
  intros H. unfold drain.
  assert (job_bound w = S (job_bound (run_job j (with_jobs js w)))) as ->.
  { rewrite run_job_bound. unfold job_bound. rewrite H. simpl. lia. }
  simpl. by rewrite H.
Qed.

Lemma run_jobs_empties k : forall w, job_bound w <= k -> jobs (run_jobs k w) = [].
Proof.
  induction k as [|k IH]; intros w Hb; simpl.
  - unfold job_bound in Hb. destruct (jobs w); simpl in *; [done|lia].
  - destruct (jobs w) as [|j js] eqn:Hj; [done|].
    apply IH. rewrite run_job_bound. unfold job_bound in *. rewrite Hj in Hb.
    simpl in *. lia.
Qed.

(** The promise jobs always run to an empty queue. *)
Lemma drain_empties w : jobs (drain w) = [].
Proof. apply run_jobs_empties. done. Qed.

(** ** [resolve] and one tracked promise *)

Ltac unfold_world :=
  unfold add_log, enqueue, with_dispatchPromises, with_arrays, with_emitter,
    with_closures, with_promises, with_alls, with_jobs, with_ticks, with_log in *;
  simpl in *.

Lemma lookup_insert_fresh {A} (ps : list A) p c x :
  p < length ps -> <[p := c]> (ps ++ [x]) !! length ps = Some x.
Proof.
  intros H. rewrite list_lookup_insert_ne by lia.
  rewrite lookup_app_r by lia. by rewrite Nat.sub_diag.
Qed.

Lemma lookup_insert_old {A} (ps : list A) p c x :
  p < length ps -> <[p := c]> (ps ++ [x]) !! p = Some c.
Proof. intros H. apply list_lookup_insert_eq. rewrite length_app. simpl. lia. Qed.

Lemma resolve_promise_returns p w : exists r w', resolve (VPromise p) w = Ret r w'.
Proof.
  unfold resolve. simpl.
  destruct (perform_then p (Some HCompleted) (Some HFailed) w). eauto.
Qed.

(** C9 (as amended): [resolve] returns normally for every promise, and
    for any other value when the publisher has its "completed" child.
    Such a value is handed at once to that child, and [resolve] returns
    undefined; without the child the call throws a TypeError and triggers
    nothing.  On a promise [resolve] triggers nothing itself, whatever
    children there are: it attaches the two continuations, which wait as
    a reaction of a pending promise or are queued as a job of a settled
    one, and it returns the promise that [then] made. *)
Theorem resolve_total `{Children} (v : Value) (w : World) :
  (isPromise v = true \/ has_completed = true ->
     exists r w', resolve v w = Ret r w') /\
  (isPromise v = false ->
     resolve v w = if has_completed
                   then Ret VUndefined (add_log (ETrigger Completed v) w)
                   else Exn TypeError w) /\
  (forall p c, v = VPromise p -> promises w !! p = Some c ->
     let d := length (promises w) in
     exists w',
       resolve v w = Ret (VPromise d) w' /\
       log w' = log w /\
       promises w' !! d = Some pending_cell /\
       match cell_state c with
       | Pending rs =>
           promises w' !! p =
             Some {| cell_state := Pending (rs ++ [resolve_reaction d]);
                     cell_handled := true |} /\
           jobs w' = jobs w
       | Settled o =>
           jobs w' = jobs w ++ [{| job_reaction := resolve_reaction d;
                                   job_argument := o |}]
       end).
Proof.
  split; [|split].
  - intros Hv. unfold resolve, asFunction. destruct (isPromise v) eqn:E; simpl.
    + destruct v; try discriminate. simpl.
      destruct (perform_then p (Some HCompleted) (Some HFailed) w). eauto.
    + destruct Hv as [Hv|Hv]; [discriminate|]. rewrite Hv. simpl. eauto.
  - intros Hv. unfold resolve, asFunction. rewrite Hv. simpl.
    destruct has_completed; reflexivity.
  - intros p c -> Hc d.
    assert (p < length (promises w)) as Hlt by (eapply lookup_lt_Some; eauto).
    unfold resolve. simpl. unfold perform_then. rewrite Hc.
    destruct (cell_state c) as [rs|o]; eexists; (split; [reflexivity|]); simpl.
    + split; [done|]. split; [by apply lookup_insert_fresh|].
      split; [by apply lookup_insert_old|done].
    + split; [done|]. split; [by apply lookup_insert_fresh|done].
Qed.

(** On a publisher as the constructor leaves it, [resolve(5)] throws: the
    "completed" child is read and is not there.  On a promise [resolve]
    returns, and the continuation throws when the job runs: no child is
    triggered and the promise that [resolve] returned is rejected. *)
Lemma resolve_throws_without_completed :
  ~ resolve_never_throws /\
  @resolve no_children (VNum 5) constructor = Exn TypeError constructor /\
  (exists w', @resolve no_children (VPromise 0) w_resolved = Ret (VPromise 3) w' /\
     log (@drain no_children w') = [] /\
     promises (@drain no_children w') !! 3
     = Some {| cell_state := Settled (Rejected TypeError); cell_handled := false |}).
Proof.
  split; [|split].
  - intros H. destruct (H no_children (VNum 5) constructor) as (r & w' & E).
    vm_compute in E. discriminate.
  - reflexivity.
  - eexists. split; [reflexivity|]. split; vm_compute; reflexivity.
Qed.

Lemma run_resolve_job d o w :
  promises w !! d = Some pending_cell ->
  run_job {| job_reaction := resolve_reaction d; job_argument := o |} w
  = with_promises (<[d := fulfilled_cell VUndefined false]> (promises w))
      (add_log (trigger_of o) w).
Proof.
  intros H. unfold run_job. destruct o; simpl; unfold settle; simpl; rewrite H; simpl;
    unfold enqueue; simpl; rewrite app_nil_r; destruct w; reflexivity.
Qed.

(** [resolve] on a promise that is settled already: the reaction job is
    queued at once, and running the jobs triggers the child. *)
Lemma resolve_settled w p c o :
  promises w !! p = Some c ->
  cell_state c = Settled o ->
  jobs w = [] ->
  let d := length (promises w) in
  resolve (VPromise p) w
  = Ret (VPromise d)
      (with_jobs [{| job_reaction := resolve_reaction d; job_argument := o |}]
         (with_promises
            (<[p := {| cell_state := Settled o; cell_handled := true |}]>
               (promises w ++ [pending_cell])) w)) /\
  drain (world_of (resolve (VPromise p) w))
  = with_promises
      (<[d := fulfilled_cell VUndefined false]>
         (<[p := {| cell_state := Settled o; cell_handled := true |}]>
            (promises w ++ [pending_cell])))
      (add_log (trigger_of o) w).
Proof.
  intros Hp Hs Hj d.
  assert (p < length (promises w)) as Hlt by (eapply lookup_lt_Some; eauto).
  assert (resolve (VPromise p) w
  = Ret (VPromise d)
      (with_jobs [{| job_reaction := resolve_reaction d; job_argument := o |}]
         (with_promises
            (<[p := {| cell_state := Settled o; cell_handled := true |}]>
               (promises w ++ [pending_cell])) w))) as E.
  { unfold resolve, promise_then, perform_then. simpl. rewrite Hp, Hs.
    unfold enqueue. simpl. rewrite Hj. reflexivity. }
  split; [exact E|]. rewrite E. simpl.
  erewrite drain_cons by reflexivity.
  rewrite run_resolve_job by (simpl; apply lookup_insert_fresh; done).
  rewrite drain_nil by reflexivity.
  unfold_world. rewrite Hj. reflexivity.
Qed.

(** [resolve] on a pending promise without other reactions: nothing
    happens until the promise is settled; then the child is triggered. *)
Lemma resolve_pending w p c o :
  promises w !! p = Some c ->
  cell_state c = Pending [] ->
  jobs w = [] ->
  let d := length (promises w) in
  let w1 :=
    with_promises
      (<[p := {| cell_state := Pending [resolve_reaction d]; cell_handled := true |}]>
         (promises w ++ [pending_cell])) w in
  resolve (VPromise p) w = Ret (VPromise d) w1 /\
  drain w1 = w1 /\
  drain (settle p o w1)
  = with_promises
      (<[d := fulfilled_cell VUndefined false]>
         (<[p := {| cell_state := Settled o; cell_handled := true |}]>
            (promises w ++ [pending_cell])))
      (add_log (trigger_of o) w).
Proof.
  intros Hp Hs Hj d w1.
  assert (p < length (promises w)) as Hlt by (eapply lookup_lt_Some; eauto).
  split; [|split].
  - unfold resolve, promise_then, perform_then. simpl. rewrite Hp, Hs. reflexivity.
  - apply drain_nil. exact Hj.
  - unfold settle. subst w1. simpl. rewrite lookup_insert_old by done. simpl.
    rewrite list_insert_insert_eq.
    erewrite drain_cons by (unfold enqueue; simpl; rewrite Hj; reflexivity).
    rewrite run_resolve_job by (simpl; apply lookup_insert_fresh; done).
    rewrite drain_nil by reflexivity.
    unfold_world. rewrite Hj. reflexivity.
Qed.

Lemma array_at_clear_records a w :
  array_at a (world_of (clear_records w)) = array_at a w.
Proof.
  unfold array_at, clear_records, modify. simpl.
  destruct (decide (a < length (arrays w))) as [H|H].
  - by rewrite lookup_app_l.
  - rewrite (lookup_ge_None_2 (arrays w)) by lia.
    destruct (decide (a = length (arrays w))) as [->|Hne].
    + rewrite lookup_app_r by lia. by rewrite Nat.sub_diag.
    + rewrite lookup_ge_None_2; [done|]. rewrite length_app. simpl. lia.
Qed.

(** [_handleDispatchPromises] reads the array, points the field to a new
    empty one, and then works on what it read. *)
Lemma handleDispatchPromises_unfold w :
  _handleDispatchPromises w =
  let w0 := world_of (clear_records w) in
  match current_records w with
  | [] => Ret VUndefined w0
  | [item] => resolve (promise item) w0
  | items =>
      (let* mappedPromises :=
         map_m (fun item =>
                  promise_then (promise item) (Some (HMapItem (listener item))) None)
               items in
       let* joinedPromise := promise_all mappedPromises in
       resolve joinedPromise) w0
  end.
Proof.
  unfold _handleDispatchPromises at 1. unfold bind at 1. unfold gets at 1.
  unfold bind at 1. simpl. unfold bind at 1. unfold gets at 1.
  pose proof (array_at_clear_records (dispatchPromises w) w) as H. simpl in H.
  rewrite H. unfold current_records.
  destruct (array_at (dispatchPromises w) w) as [|? [|? ?]]; reflexivity.
Qed.

Lemma no_new_unhandled_resolved w p c o :
  promises w !! p = Some c ->
  cell_state c = Settled o \/ cell_state c = Pending [] ->
  no_new_unhandled w
    (with_promises
      (<[length (promises w) := fulfilled_cell VUndefined false]>
         (<[p := {| cell_state := Settled o; cell_handled := true |}]>
            (promises w ++ [pending_cell])))
      (add_log (trigger_of o) w)).
Proof.
  intros Hp Hs k x Hk Hx. simpl in Hk.
  assert (p < length (promises w)) as Hlt by (eapply lookup_lt_Some; eauto).
  destruct (decide (k = length (promises w))) as [->|Hk1].
  { rewrite list_lookup_insert_eq in Hk
      by (rewrite length_insert, length_app; simpl; lia).
    inversion Hk; subst. discriminate. }
  rewrite list_lookup_insert_ne in Hk by done.
  destruct (decide (k = p)) as [->|Hk2].
  { rewrite lookup_insert_old in Hk by done. inversion Hk; subst.
    unfold unhandled_rejection in Hx. simpl in Hx. destruct o; discriminate. }
  rewrite list_lookup_insert_ne in Hk by done.
  apply lookup_app_Some in Hk as [Hk|[Hge Hk]]; [done|].
  destruct (k - length (promises w)) eqn:E; [lia|]. simpl in Hk. discriminate.
Qed.

(** C1: when the cycle tracked exactly one record, [_handleDispatchPromises]
    passes the record's promise itself to [resolve]; no [{listener, value}]
    structure and no aggregate is built.  When that promise is fulfilled
    with [V], be it already or later, the jobs trigger the "completed"
    child exactly once with [V] as it is, and nothing else happens. *)
Theorem single_record_completed (w : World) (item : DispatchRecord) (p : nat)
    (c : PromiseCell) (V : Value) :
  current_records w = [item] ->
  promise item = VPromise p ->
  promises w !! p = Some c ->
  jobs w = [] ->
  let w1 := world_of (_handleDispatchPromises w) in
  _handleDispatchPromises w = resolve (promise item) (world_of (clear_records w)) /\
  (cell_state c = Settled (Fulfilled V) ->
     log (drain w1) = log w ++ [ETrigger Completed V]) /\
  (cell_state c = Pending [] ->
     log (drain w1) = log w /\
     log (drain (settle p (Fulfilled V) (drain w1))) = log w ++ [ETrigger Completed V]).
Proof.
  intros Hrec Hitem Hp Hj w1.
  assert (_handleDispatchPromises w = resolve (promise item) (world_of (clear_records w)))
    as E by (rewrite handleDispatchPromises_unfold, Hrec; reflexivity).
  split; [exact E|]. subst w1. rewrite E, Hitem.
  set (w0 := world_of (clear_records w)).
  assert (promises w0 !! p = Some c) as Hp0 by exact Hp.
  assert (jobs w0 = []) as Hj0 by exact Hj.
  split; intros Hs.
  - destruct (resolve_settled w0 p c (Fulfilled V) Hp0 Hs Hj0) as [_ ->]. reflexivity.
  - destruct (resolve_pending w0 p c (Fulfilled V) Hp0 Hs Hj0) as (-> & Hd & Hd2).
    cbn [world_of]. rewrite Hd. split; [reflexivity|]. rewrite Hd2. reflexivity.
Qed.

Lemma single_record_completed_witness :
  log (drain (world_of (_handleDispatchPromises (w_one (Settled (Fulfilled (VNum 5)))))))
  = [ETrigger Completed (VNum 5)].
Proof.
  exact (proj1 (proj2
    (single_record_completed (w_one (Settled (Fulfilled (VNum 5))))
       {| promise := VPromise 0; listener := VFun 1 |} 0
       {| cell_state := Settled (Fulfilled (VNum 5)); cell_handled := false |}
       (VNum 5) eq_refl eq_refl eq_refl eq_refl)) eq_refl).
Defined.

(** C3: when the only tracked record's promise fails with [E], the cycle's
    resolution returns normally, the jobs trigger the "failed" child with
    [E] and nothing else, and the failure is left on no promise as a
    rejection without a handler. *)
Theorem single_record_failed (w : World) (item : DispatchRecord) (p : nat)
    (c : PromiseCell) (E : Value) :
  current_records w = [item] ->
  promise item = VPromise p ->
  promises w !! p = Some c ->
  jobs w = [] ->
  let w1 := world_of (_handleDispatchPromises w) in
  (exists r, _handleDispatchPromises w = Ret r w1) /\
  (cell_state c = Settled (Rejected E) ->
     log (drain w1) = log w ++ [ETrigger Failed E] /\
     no_new_unhandled w (drain w1)) /\
  (cell_state c = Pending [] ->
     log (drain w1) = log w /\
     log (drain (settle p (Rejected E) (drain w1))) = log w ++ [ETrigger Failed E] /\
     no_new_unhandled w (drain (settle p (Rejected E) (drain w1)))).
Proof.
  intros Hrec Hitem Hp Hj w1.
  assert (_handleDispatchPromises w = resolve (promise item) (world_of (clear_records w)))
    as E0 by (rewrite handleDispatchPromises_unfold, Hrec; reflexivity).
  subst w1. rewrite E0, Hitem.
  set (w0 := world_of (clear_records w)).
  assert (promises w0 !! p = Some c) as Hp0 by exact Hp.
  assert (jobs w0 = []) as Hj0 by exact Hj.
  split; [|split; intros Hs].
  - destruct (resolve_promise_returns p w0) as (r & w' & ->). eauto.
  - destruct (resolve_settled w0 p c (Rejected E) Hp0 Hs Hj0) as [_ ->].
    split; [reflexivity|].
    apply (no_new_unhandled_resolved w0 p c (Rejected E)); auto.
  - destruct (resolve_pending w0 p c (Rejected E) Hp0 Hs Hj0) as (-> & Hd & Hd2).
    cbn [world_of]. rewrite Hd. split; [reflexivity|]. rewrite Hd2.
    split; [reflexivity|].
    apply (no_new_unhandled_resolved w0 p c (Rejected E)); auto.
Qed.

Lemma single_record_failed_witness :
  log (drain (settle 0 (Rejected (VStr "E"))
                (drain (world_of (_handleDispatchPromises (w_one (Pending [])))))))
  = [ETrigger Failed (VStr "E")].
Proof.
  exact (proj1 (proj2 (proj2 (proj2
    (single_record_failed (w_one (Pending []))
       {| promise := VPromise 0; listener := VFun 1 |} 0
       {| cell_state := Pending []; cell_handled := false |}
       (VStr "E") eq_refl eq_refl eq_refl eq_refl)) eq_refl))).
Defined.

(** ** Relations that every step of a run respects *)

Section Respects.

Context (R : relation World) `{!PreOrder R}.

Lemma respects_ret {A} (a : A) : respects R (ret a).
Proof. intros w. simpl. reflexivity. Qed.

Lemma respects_gets {A} (f : World -> A) : respects R (gets f).
Proof. intros w. simpl. reflexivity. Qed.

Lemma respects_bind {A B} (m : M A) (k : A -> M B) :
  respects R m -> (forall a, respects R (k a)) -> respects R (bind m k).
Proof.
  intros Hm Hk w. unfold bind. specialize (Hm w).
  destruct (m w) as [a w1|e w1|w1]; simpl in *; [|done..].
  etrans; [exact Hm|]. apply Hk.
Qed.

Lemma respects_for_each {A} (f : A -> M unit) (xs : list A) :
  (forall x, respects R (f x)) -> respects R (for_each f xs).
Proof.
  intros Hf. induction xs as [|x xs IH]; simpl.
  - apply respects_ret.
  - apply respects_bind; [apply Hf|]. intros _. exact IH.
Qed.

Lemma respects_map_m {A B} (f : A -> M B) (xs : list A) :
  (forall x, respects R (f x)) -> respects R (map_m f xs).
Proof.
  intros Hf. induction xs as [|x xs IH]; simpl.
  - apply respects_ret.
  - apply respects_bind; [apply Hf|]. intros y.
    apply respects_bind; [exact IH|]. intros ys. apply respects_ret.
Qed.

End Respects.

#[local] Instance promise_step_preorder : PreOrder promise_step.
Proof.
  split.
  - intros w. split; try done. exists []. by rewrite app_nil_r.
  - intros w1 w2 w3 [] []. split; try congruence.
    destruct ps_log0 as (e1 & E1 & F1), ps_log1 as (e2 & E2 & F2).
    exists (e1 ++ e2). rewrite E2, E1, app_assoc. split; [done|].
    by apply Forall_app.
Qed.

Lemma promise_step_fields w w' :
  dispatchPromises w' = dispatchPromises w -> arrays w' = arrays w ->
  emitter w' = emitter w -> closures w' = closures w -> ticks w' = ticks w ->
  log w' = log w -> promise_step w w'.
Proof. intros. split; try done. exists []. by rewrite app_nil_r. Qed.

Lemma settle_step p o w : promise_step w (settle p o w).
Proof.
  unfold settle. destruct (promises w !! p) as [c|]; [|reflexivity].
  destruct (cell_state c); [|reflexivity].
  by apply promise_step_fields.
Qed.

Lemma perform_then_step p f g w : promise_step w (perform_then p f g w).2.
Proof.
  unfold perform_then. destruct (promises w !! p) as [c|]; [destruct (cell_state c)|];
    by apply promise_step_fields.
Qed.

Lemma add_trigger_step c v w : promise_step w (add_log (ETrigger c v) w).
Proof. split; try done. exists [ETrigger c v]. split; [done|]. by constructor. Qed.

Lemma run_handler_step h v w : promise_step w (run_handler h v w).2.
Proof.
  destruct h; simpl; try apply add_trigger_step; try reflexivity.
  - destruct (alls w !! a) as [st|]; simpl; [|reflexivity].
    destruct (Nat.eqb _ 0).
    + etrans; [|apply settle_step]. by apply promise_step_fields.
    + by apply promise_step_fields.
  - apply settle_step.
Qed.

Lemma run_job_step j w : promise_step w (run_job j w).
Proof.
  unfold run_job.
  destruct (job_argument j), (on_fulfilled (job_reaction j)), (on_rejected (job_reaction j));
    try apply settle_step;
    match goal with |- context [run_handler ?h ?v ?w] =>
      pose proof (run_handler_step h v w); destruct (run_handler h v w) end;
    (etrans; [eassumption|apply settle_step]).
Qed.

Lemma run_jobs_step k : forall w, promise_step w (run_jobs k w).
Proof.
  induction k as [|k IH]; intros w; simpl; [reflexivity|].
  destruct (jobs w) as [|j js]; [reflexivity|].
  etrans; [|apply IH]. etrans; [|apply run_job_step]. by apply promise_step_fields.
Qed.

Lemma drain_step w : promise_step w (drain w).
Proof. apply run_jobs_step. Qed.

Lemma promise_then_step v f g : respects promise_step (promise_then v f g).
Proof.
  intros w. destruct v; simpl; try reflexivity.
  pose proof (perform_then_step p f g w). destruct (perform_then p f g w). done.
Qed.

Lemma promise_resolve_step x w : promise_step w (promise_resolve x w).2.
Proof. destruct x; simpl; try reflexivity; by apply promise_step_fields. Qed.

Lemma all_loop_step a p xs : forall i w, promise_step w (all_loop a p i xs w).
Proof.
  induction xs as [|x xs IH]; intros i w; simpl; [reflexivity|].
  match goal with |- context [promise_resolve ?x ?w] =>
    pose proof (promise_resolve_step x w) as H1; destruct (promise_resolve x w) as [q w2] end.
  match goal with |- context [perform_then ?q ?f ?g ?w] =>
    pose proof (perform_then_step q f g w) as H2; destruct (perform_then q f g w) as [d w4] end.
  etrans; [|apply IH]. etrans; [|exact H2]. simpl in *.
  etrans; [|etrans; [exact H1|]]; by apply promise_step_fields.
Qed.

Lemma promise_all_step xs : respects promise_step (promise_all xs).
Proof.
  intros w. unfold promise_all. simpl.
  match goal with |- context [all_loop ?a ?p ?i ?xs ?w] =>
    pose proof (all_loop_step a p xs i w) as H1; set (w2 := all_loop a p i xs w) in * end.
  match goal with |- promise_step _ (match ?o with _ => _ end) => destruct o as [st|] end;
    [destruct (Nat.eqb _ 0)|];
    try (etrans; [|apply settle_step]);
    (etrans; [|etrans; [exact H1|]]; by apply promise_step_fields).
Qed.

Lemma resolve_step v : respects promise_step (resolve v).
Proof.
  unfold resolve. destruct (isPromise v); simpl.
  - apply promise_then_step.
  - intros w. simpl. apply add_trigger_step.
Qed.

(** ** A relation kept by the publisher's steps is kept by every run *)

Section Delivery.

Variable cfg : Config.
Context (R : relation World) `{!PreOrder R}.

(** The subscription whose handler receives the event. *)
Variable h : nat.

Hypothesis R_call : forall w f this args, R w (add_log (ECall h f this args) w).
Hypothesis R_query : forall w, R w (add_log ECanHandlePromise w).
Hypothesis R_warn : forall w msg, R w (add_log (EWarn msg) w).
Hypothesis R_invoke : forall w c args,
  closures w !! h = Some c -> aborted c = false -> R w (add_log (EInvoke h args) w).
Hypothesis R_unsubscribe : forall h', respects R (unsubscribe cfg h').
Hypothesis R_push : forall r, respects R (push_record r).

Variable exec : list Cmd -> M unit.
Hypothesis R_exec : forall cs, respects R (exec cs).

Lemma respects_call_user f this args : respects R (call_user cfg exec h f this args).
Proof.
  unfold call_user. apply respects_bind; [done|intros w; apply R_call|]. intros _.
  apply respects_bind; [done|apply R_exec|]. intros _. by apply respects_ret.
Qed.

Lemma respects_apply_callback cb this args :
  respects R (apply_callback cfg exec h cb this args).
Proof.
  destruct cb; simpl; [apply respects_call_user|].
  apply respects_bind; [done|apply R_unsubscribe|]. intros _. apply respects_call_user.
Qed.

Lemma respects_eventHandler args : respects R (eventHandler cfg exec h args).
Proof.
  intros w. unfold eventHandler. unfold bind at 1. unfold gets at 1.
  destruct (closures w !! h) as [c|] eqn:Hc; [|simpl; reflexivity].
  destruct (aborted c) eqn:Ha; [simpl; reflexivity|].
  unfold bind at 1. unfold emit_event at 1. unfold modify. cbv beta iota.
  etrans; [apply (R_invoke w c (apply_list args)); assumption|].
  clear Hc. generalize (add_log (EInvoke h (apply_list args)) w). clear w.
  change (respects R
    (let* result := apply_callback cfg exec h (callback c) VPublisher args in
     if isPromise result then
       emit_event ECanHandlePromise ;;
       if negb (canHandlePromise cfg) then
         emit_event (EWarn ("Unhandled promise for " +:+ eventType cfg))
       else
         push_record {| promise := result; listener := fn_value (callback c) |}
     else ret tt)).
  apply respects_bind; [done|apply respects_apply_callback|]. intros result.
  destruct (isPromise result); [|by apply respects_ret].
  apply respects_bind; [done|intros w; apply R_query|]. intros _.
  destruct (negb (canHandlePromise cfg)); [intros w; apply R_warn|apply R_push].
Qed.

End Delivery.

Section Traversal.

Variable cfg : Config.
Context (R : relation World) `{!PreOrder R}.

Hypothesis R_promise_step : forall w w', promise_step w w' -> R w w'.
Hypothesis R_unsubscribe : forall h, respects R (unsubscribe cfg h).
Hypothesis R_clear : respects R clear_records.
Hypothesis R_listen : forall cb, respects R (listen cfg cb).
Hypothesis R_trigger : forall args, respects R (trigger args).
Hypothesis R_tick : forall w args rest,
  ticks w = args :: rest -> R w (with_ticks rest w).
Hypothesis R_deliver : forall exec,
  (forall cs, respects R (exec cs)) ->
  forall h args, respects R (eventHandler cfg exec h args).

Lemma respects_promise_step {A} (m : M A) : respects promise_step m -> respects R m.
Proof. intros H w. apply R_promise_step, H. Qed.

Section Open.

Variable exec : list Cmd -> M unit.
Hypothesis R_exec : forall cs, respects R (exec cs).

Lemma respects_emit ty args : respects R (emit cfg exec ty args).
Proof.
  unfold emit. apply respects_bind; [done|by apply respects_gets|]. intros hs.
  apply respects_for_each; [done|]. intros h. by apply R_deliver.
Qed.

Lemma respects_resolve v : respects R (resolve v).
Proof. apply respects_promise_step, resolve_step. Qed.

Lemma respects_handleDispatchPromises : respects R _handleDispatchPromises.
Proof.
  unfold _handleDispatchPromises.
  apply respects_bind; [done|by apply respects_gets|]. intros ps.
  apply respects_bind; [done|apply R_clear|]. intros _.
  apply respects_bind; [done|by apply respects_gets|]. intros items.
  destruct items as [|item [|item2 items]].
  - by apply respects_ret.
  - apply respects_resolve.
  - apply respects_bind; [done| |].
    + apply respects_map_m; [done|]. intros x.
      apply respects_promise_step, promise_then_step.
    + intros ms. apply respects_bind; [done| |].
      * apply respects_promise_step, promise_all_step.
      * intros j. apply respects_resolve.
Qed.

Lemma respects_cycle args : respects R (cycle cfg exec args).
Proof.
  unfold cycle. destruct (truthy _); [|by apply respects_ret].
  apply respects_bind; [done|apply R_clear|]. intros _.
  apply respects_bind; [done|apply respects_emit|]. intros _.
  apply respects_bind; [done|apply respects_handleDispatchPromises|]. intros _.
  by apply respects_ret.
Qed.

Lemma respects_triggerSync args : respects R (triggerSync cfg exec args).
Proof. rewrite triggerSync_cycle. apply respects_cycle. Qed.

Lemma respects_listenOnce f ctx : respects R (listenOnce cfg f ctx).
Proof.
  unfold listenOnce. apply respects_bind; [done|by apply respects_gets|].
  intros u. apply R_listen.
Qed.

Lemma respects_run_cmd c : respects R (run_cmd cfg exec c).
Proof.
  destruct c; simpl.
  - apply R_unsubscribe.
  - apply respects_triggerSync.
  - apply R_trigger.
  - apply respects_bind; [done|apply R_listen|]. intros _. by apply respects_ret.
  - apply respects_bind; [done|apply respects_listenOnce|]. intros _.
    by apply respects_ret.
Qed.

Lemma respects_run_cmds cs : respects R (run_cmds cfg exec cs).
Proof. apply respects_for_each; [done|]. apply respects_run_cmd. Qed.

End Open.

Lemma respects_exec fuel : forall cs, respects R (exec cfg fuel cs).
Proof.
  induction fuel as [|n IH]; intros cs; simpl.
  - intros w. simpl. reflexivity.
  - apply respects_run_cmds. exact IH.
Qed.

Lemma respects_run_tick fuel : respects R (run_tick cfg fuel).
Proof.
  intros w. unfold run_tick. destruct (ticks w) as [|args rest] eqn:Ht.
  - simpl. reflexivity.
  - etrans; [eapply R_tick; eauto|]. apply respects_triggerSync, respects_exec.
Qed.

Lemma respects_run_task fuel t w : R w (run_task cfg fuel t w).
Proof.
  unfold run_task. etrans; [|apply R_promise_step, drain_step].
  destruct t.
  - apply respects_run_cmd, respects_exec.
  - apply respects_resolve.
  - apply respects_run_tick.
  - apply R_promise_step. by apply promise_step_fields.
  - apply R_promise_step, settle_step.
Qed.

Lemma respects_run_tasks fuel ts : forall w, R w (run_tasks cfg fuel ts w).
Proof.
  induction ts as [|t ts IH]; intros w; simpl; [reflexivity|].
  etrans; [apply (respects_run_task fuel t)|]. apply IH.
Qed.

End Traversal.

(** ** Subscriptions that were cancelled *)

#[local] Instance quiet_preorder h : PreOrder (quiet h).
Proof.
  split.
  - intros w H. split; [done|]. exists []. rewrite app_nil_r. split; [done|].
    intros args Hin. by apply elem_of_nil in Hin.
  - intros w1 w2 w3 H12 H23 H1.
    destruct (H12 H1) as (H2 & e1 & E1 & N1).
    destruct (H23 H2) as (H3 & e2 & E2 & N2).
    split; [done|]. exists (e1 ++ e2). rewrite E2, E1, app_assoc. split; [done|].
    intros args Hin. apply elem_of_app in Hin as [Hin|Hin]; [by eapply N1|by eapply N2].
Qed.

Lemma quiet_event h e w :
  (forall args, e <> EInvoke h args) -> quiet h w (add_log e w).
Proof.
  intros He H. split; [exact H|]. exists [e]. split; [done|].
  intros args Hin. apply list_elem_of_singleton in Hin. by eapply He.
Qed.

Lemma quiet_same h w w' :
  closures w' = closures w -> log w' = log w -> quiet h w w'.
Proof.
  intros Hc Hl H. split.
  - unfold is_aborted. by rewrite Hc.
  - exists []. rewrite app_nil_r. split; [done|].
    intros args Hin. by apply elem_of_nil in Hin.
Qed.

Lemma quiet_promise_step h w w' : promise_step w w' -> quiet h w w'.
Proof.
  intros [] H. split.
  - unfold is_aborted. by rewrite ps_closures0.
  - destruct ps_log0 as (evs & E & F). exists evs. split; [done|].
    intros args Hin. rewrite list.Forall_forall in F. by apply F in Hin.
Qed.

Lemma is_aborted_unsubscribe cfg h h' w :
  is_aborted h w -> is_aborted h (world_of (unsubscribe cfg h' w)).
Proof.
  intros (c & Hc & Ha). unfold is_aborted. simpl.
  destruct (decide (h' = h)) as [->|Hne].
  - eexists. rewrite list_lookup_alter_eq, Hc. simpl. eauto.
  - exists c. rewrite list_lookup_alter_ne by done. eauto.
Qed.

Lemma unsubscribe_aborts cfg h w :
  h < length (closures w) -> is_aborted h (world_of (unsubscribe cfg h w)).
Proof.
  intros H. apply lookup_lt_is_Some_2 in H as [c Hc].
  unfold is_aborted. simpl. eexists. rewrite list_lookup_alter_eq, Hc. simpl. eauto.
Qed.

Lemma quiet_unsubscribe cfg h h' : respects (quiet h) (unsubscribe cfg h').
Proof.
  intros w H. split; [by apply is_aborted_unsubscribe|].
  exists []. simpl. rewrite app_nil_r. split; [done|].
  intros args Hin. by apply elem_of_nil in Hin.
Qed.

Lemma quiet_listen cfg h cb : respects (quiet h) (listen cfg cb).
Proof.
  intros w (c & Hc & Ha). split.
  - exists c. simpl. rewrite lookup_app_l by (eapply lookup_lt_Some; eauto). eauto.
  - exists []. simpl. rewrite app_nil_r. split; [done|].
    intros args Hin. by apply elem_of_nil in Hin.
Qed.

Lemma quiet_invoke h w h' c args :
  closures w !! h' = Some c -> aborted c = false ->
  quiet h w (add_log (EInvoke h' args) w).
Proof.
  intros Hc Ha H. apply quiet_event; [|exact H].
  intros args' E. inversion E; subst.
  destruct H as (c' & Hc' & Ha'). congruence.
Qed.

Ltac quiet_steps :=
  first
    [ exact _
    | exact (quiet_promise_step _)
    | exact (quiet_unsubscribe _ _)
    | exact (quiet_listen _ _)
    | (intros; eapply quiet_invoke; eassumption)
    | (intros; apply quiet_event; intros; discriminate)
    | (intros; intros ?; apply quiet_same; reflexivity)
    | (intros; apply quiet_same; reflexivity) ].

Lemma quiet_deliver cfg h exec :
  (forall cs, respects (quiet h) (exec cs)) ->
  forall h' args, respects (quiet h) (eventHandler cfg exec h' args).
Proof. intros Hexec h' args. apply respects_eventHandler; first [exact Hexec|quiet_steps]. Qed.

Lemma quiet_exec cfg h fuel cs : respects (quiet h) (exec cfg fuel cs).
Proof. apply respects_exec; first [exact (quiet_deliver cfg h)|quiet_steps]. Qed.

Lemma quiet_eventHandler cfg h fuel h' args :
  respects (quiet h) (eventHandler cfg (exec cfg fuel) h' args).
Proof. apply quiet_deliver, quiet_exec. Qed.

Lemma quiet_run_cmd cfg h fuel c : respects (quiet h) (run_cmd cfg (exec cfg fuel) c).
Proof.
  apply respects_run_cmd;
    first [exact (quiet_deliver cfg h)|apply quiet_exec|quiet_steps].
Qed.

Lemma quiet_run_tasks cfg h fuel ts w : quiet h w (run_tasks cfg fuel ts w).
Proof. apply respects_run_tasks; first [exact (quiet_deliver cfg h)|quiet_steps]. Qed.

(** C7: once the function returned by [listen] has run, the subscription
    is marked as aborted, and from then on its callback is not applied
    again: a delivery that the bus still makes to its handler does nothing,
    and neither the rest of a fan-out that was under way, nor any later
    call of the publisher, nor any later turn of the event loop applies
    it.  In particular a cycle started after the cancellation does not. *)
Theorem unsubscribed_never_invoked (cfg : Config) (fuel h : nat) :
  (forall w, h < length (closures w) ->
     is_aborted h (world_of (unsubscribe cfg h w))) /\
  (forall w, is_aborted h w ->
     (forall args, eventHandler cfg (exec cfg fuel) h args w = Ret tt w) /\
     (forall args hs,
        let w' := world_of
          (for_each (fun h' => eventHandler cfg (exec cfg fuel) h' args) hs w) in
        is_aborted h w' /\ not_invoked h w w') /\
     (forall c,
        let w' := world_of (run_cmd cfg (exec cfg fuel) c w) in
        is_aborted h w' /\ not_invoked h w w') /\
     (forall ts,
        let w' := run_tasks cfg fuel ts w in
        is_aborted h w' /\ not_invoked h w w')).
Proof.
  split; [intros w; apply unsubscribe_aborts|].
  intros w Hw. split; [|split; [|split]].
  - intros args. destruct Hw as (c & Hc & Ha).
    unfold eventHandler, bind, gets. by rewrite Hc, Ha.
  - intros args hs.
    apply (respects_for_each (quiet h) _ hs
             (fun h' => quiet_eventHandler cfg h fuel h' args) w Hw).
  - intros c. apply (quiet_run_cmd cfg h fuel c w Hw).
  - intros ts. apply (quiet_run_tasks cfg h fuel ts w Hw).
Qed.

(** ** The arrays behind [this._dispatchPromises] *)

#[local] Instance keeps_array_preorder a : PreOrder (keeps_array a).
Proof.
  split.
  - intros w H1 H2. done.
  - intros w1 w2 w3 H12 H23 H1 H2.
    destruct (H12 H1 H2) as (H3 & H4 & E1).
    destruct (H23 H3 H4) as (H5 & H6 & E2).
    repeat split; [done..|congruence].
Qed.

Lemma keeps_array_same a w w' :
  arrays w' = arrays w -> dispatchPromises w' = dispatchPromises w ->
  keeps_array a w w'.
Proof. intros E1 E2 H1 H2. rewrite E1, E2. done. Qed.

Lemma keeps_array_promise_step a w w' : promise_step w w' -> keeps_array a w w'.
Proof. intros []. by apply keeps_array_same. Qed.

Lemma keeps_array_push a r : respects (keeps_array a) (push_record r).
Proof.
  intros w H1 H2. simpl. rewrite length_alter.
  repeat split; [done..|]. by rewrite list_lookup_alter_ne.
Qed.

Lemma keeps_array_clear a : respects (keeps_array a) clear_records.
Proof.
  intros w H1 H2. simpl. rewrite length_app. simpl.
  repeat split; [lia..|]. by rewrite lookup_app_l.
Qed.

Ltac keeps_array_steps :=
  first
    [ exact _
    | exact (keeps_array_promise_step _)
    | exact (keeps_array_push _)
    | exact (keeps_array_clear _)
    | (intros; intros ?; apply keeps_array_same; reflexivity)
    | (intros; apply keeps_array_same; reflexivity) ].

Lemma keeps_array_deliver cfg a exec :
  (forall cs, respects (keeps_array a) (exec cs)) ->
  forall h args, respects (keeps_array a) (eventHandler cfg exec h args).
Proof.
  intros Hexec h args. apply respects_eventHandler; first [exact Hexec|keeps_array_steps].
Qed.

Lemma keeps_array_exec cfg a fuel cs : respects (keeps_array a) (exec cfg fuel cs).
Proof. apply respects_exec; first [exact (keeps_array_deliver cfg a)|keeps_array_steps]. Qed.

Lemma keeps_array_run_cmd cfg a fuel c :
  respects (keeps_array a) (run_cmd cfg (exec cfg fuel) c).
Proof.
  apply respects_run_cmd;
    first [exact (keeps_array_deliver cfg a)|apply keeps_array_exec|keeps_array_steps].
Qed.

Lemma keeps_array_run_tasks cfg a fuel ts w : keeps_array a w (run_tasks cfg fuel ts w).
Proof.
  apply respects_run_tasks; first [exact (keeps_array_deliver cfg a)|keeps_array_steps].
Qed.

Lemma promise_step_current_records w w' :
  promise_step w w' -> current_records w' = current_records w.
Proof. intros []. unfold current_records, array_at. congruence. Qed.

Lemma promise_step_array_at a w w' :
  promise_step w w' -> array_at a w' = array_at a w.
Proof. intros []. unfold array_at. congruence. Qed.

Lemma handleDispatchPromises_after_clear w :
  promise_step (world_of (clear_records w)) (world_of (_handleDispatchPromises w)).
Proof.
  rewrite handleDispatchPromises_unfold. cbv zeta.
  generalize (world_of (clear_records w)). intros w0.
  destruct (current_records w) as [|item [|item2 items]].
  - simpl. reflexivity.
  - apply resolve_step.
  - revert w0. apply (respects_bind promise_step).
    + apply respects_map_m; [apply _|]. intros x. apply promise_then_step.
    + intros ms. apply (respects_bind promise_step); [apply promise_all_step|].
      intros j. apply resolve_step.
Qed.

Lemma current_records_cleared w : current_records (world_of (clear_records w)) = [].
Proof.
  unfold current_records, array_at. simpl.
  rewrite lookup_app_r by lia. by rewrite Nat.sub_diag.
Qed.

Lemma handleDispatchPromises_clears w :
  current_records (world_of (_handleDispatchPromises w)) = [].
Proof.
  rewrite (promise_step_current_records _ _ (handleDispatchPromises_after_clear w)).
  apply current_records_cleared.
Qed.

Lemma bind_Ret_inv {A B} (m : M A) (k : A -> M B) w b w' :
  bind m k w = Ret b w' -> exists a w1, m w = Ret a w1 /\ k a w1 = Ret b w'.
Proof. unfold bind. destruct (m w); [eauto|discriminate..]. Qed.

Lemma cycle_leaves_no_record cfg exec args w w' :
  cycle cfg exec args w = Ret tt w' ->
  truthy (shouldEmit cfg (apply_list args)) = true ->
  current_records w' = [].
Proof.
  unfold cycle. intros H Ht. rewrite Ht in H.
  apply bind_Ret_inv in H as (? & w1 & _ & H).
  apply bind_Ret_inv in H as (? & w2 & _ & H).
  apply bind_Ret_inv in H as (r & w3 & H3 & H).
  inversion H; subst.
  change w' with (world_of (Ret r w')). rewrite <- H3.
  apply handleDispatchPromises_clears.
Qed.

(** C5 (as amended): the record list is cleared when a cycle that emits
    starts, and [_handleDispatchPromises] reads the list and then points
    the field to a new empty array.  So when such a cycle has returned the
    list is empty, and it stays empty when a promise settles later; and
    the array that a resolution has read is never written again, whatever
    the publisher is asked to do afterwards, new cycles included. *)
Theorem dispatch_records_lifecycle (cfg : Config) (fuel : nat) :
  (forall exec args w,
     truthy (shouldEmit cfg (apply_list args)) = true ->
     current_records (world_of (clear_records w)) = [] /\
     cycle cfg exec args w
     = (emit cfg exec (eventType cfg) args ;; _handleDispatchPromises ;; ret tt)
         (world_of (clear_records w))) /\
  (forall w,
     let w' := world_of (_handleDispatchPromises w) in
     current_records w' = [] /\
     dispatchPromises w' = length (arrays w) /\
     array_at (dispatchPromises w) w' = current_records w) /\
  (forall exec arguments w w',
     triggerSync cfg exec arguments w = Ret tt w' ->
     truthy (shouldEmit cfg (apply_list (cycle_args cfg arguments))) = true ->
     current_records w' = [] /\
     forall p o, current_records (drain (settle p o w')) = []) /\
  (forall w ts,
     dispatchPromises w < length (arrays w) ->
     let w' := world_of (_handleDispatchPromises w) in
     array_at (dispatchPromises w) (run_tasks cfg fuel ts w') = current_records w).
Proof.
  split; [|split; [|split]].
  - intros exec args w Ht. split; [apply current_records_cleared|].
    unfold cycle. rewrite Ht. reflexivity.
  - intros w w'. subst w'.
    pose proof (handleDispatchPromises_after_clear w) as Hs.
    split; [apply handleDispatchPromises_clears|]. split.
    + destruct Hs as [-> _ _ _ _ _]. reflexivity.
    + rewrite (promise_step_array_at _ _ _ Hs). apply array_at_clear_records.
  - intros exec arguments w w' H Ht. rewrite triggerSync_cycle in H.
    pose proof (cycle_leaves_no_record _ _ _ _ _ H Ht) as E.
    split; [exact E|]. intros p o.
    rewrite (promise_step_current_records w' (drain (settle p o w'))); [exact E|].
    etrans; [apply settle_step|apply drain_step].
  - intros w ts Hlt w'. subst w'.
    pose proof (handleDispatchPromises_after_clear w) as [Hd Ha _ _ _ _].
    simpl in Hd, Ha.
    destruct (keeps_array_run_tasks cfg (dispatchPromises w) fuel ts
                (world_of (_handleDispatchPromises w))) as (_ & _ & E).
    + rewrite Ha, length_app. simpl. lia.
    + rewrite Hd. lia.
    + unfold array_at, current_records, array_at. rewrite E, Ha.
      by rewrite lookup_app_l.
Qed.

(** The cycle started by listener 2 empties the list in which the outer
    cycle had collected the record of listener 1; the outer cycle then
    resolves the record of listener 2 alone, and "completed" is triggered
    with its bare value. *)
Lemma reentrant_cycle_drops_records :
  ~ reentrant_cycle_keeps_records /\
  current_records w_mid = [{| promise := VPromise 0; listener := VFun 1 |}] /\
  current_records
    (world_of (triggerSync cfg_reentrant (exec cfg_reentrant 1) [VNum 1] w_mid)) = [] /\
  log (run_tasks cfg_reentrant 2
         [TCmd (CTriggerSync [VNum 0]);
          TSettle 0 (Fulfilled (VStr "V1")); TSettle 1 (Fulfilled (VStr "V2"))]
         w_listening)
  = [EInvoke 0 [VNum 0]; ECall 0 1 VPublisher [VNum 0]; ECanHandlePromise;
     EInvoke 1 [VNum 0]; ECall 1 2 VPublisher [VNum 0];
     EInvoke 0 [VNum 1]; ECall 0 1 VPublisher [VNum 1]; ECanHandlePromise;
     EInvoke 1 [VNum 1]; ECall 1 2 VPublisher [VNum 1]; ECanHandlePromise;
     ECanHandlePromise;
     ETrigger Completed (VStr "V2");
     ETrigger Completed
       (VArray [VObject [("listener", VFun 1); ("value", VStr "V1")];
                VObject [("listener", VFun 2); ("value", VStr "V2")]])].
Proof.
  split; [|split; [|split]]; try (vm_compute; reflexivity).
  intros H. specialize (H cfg_reentrant 1 [VNum 1] w_mid).
  vm_compute in H. discriminate.
Qed.

(** ** [listenOnce] *)

#[local] Instance log_grows_preorder : PreOrder log_grows.
Proof.
  split.
  - intros w. exists []. by rewrite app_nil_r.
  - intros w1 w2 w3 [e1 E1] [e2 E2]. exists (e1 ++ e2). by rewrite E2, E1, app_assoc.
Qed.

Lemma log_grows_same w w' : log w' = log w -> log_grows w w'.
Proof. intros E. exists []. by rewrite app_nil_r. Qed.

Lemma log_grows_event e w : log_grows w (add_log e w).
Proof. by exists [e]. Qed.

Lemma log_grows_promise_step w w' : promise_step w w' -> log_grows w w'.
Proof. intros [? ? ? ? ? (evs & E & _)]. by exists evs. Qed.

Ltac log_grows_steps :=
  first
    [ exact _
    | exact log_grows_promise_step
    | (intros; apply log_grows_event)
    | (intros; intros ?; apply log_grows_same; reflexivity)
    | (intros; apply log_grows_same; reflexivity) ].

Lemma log_grows_deliver cfg exec :
  (forall cs, respects log_grows (exec cs)) ->
  forall h args, respects log_grows (eventHandler cfg exec h args).
Proof.
  intros Hexec h args. apply respects_eventHandler; first [exact Hexec|log_grows_steps].
Qed.

Lemma log_grows_exec cfg fuel cs : respects log_grows (exec cfg fuel cs).
Proof. apply respects_exec; first [exact (log_grows_deliver cfg)|log_grows_steps]. Qed.

(** The callback given to [listenOnce] is applied to the arguments of
    [listenOnce] itself, whatever arguments the event carries. *)
Lemma listenOnce_passes_own_arguments (cfg : Config) (fuel : nat) (f : nat)
    (ctx : option Value) (args : Value) (w : World) :
  let h := length (closures w) in
  let w1 := world_of (listenOnce cfg f ctx w) in
  let w2 := world_of (eventHandler cfg (exec cfg fuel) h args w1) in
  exists evs,
    log w2 = log w ++
      [EInvoke h (apply_list args);
       ECall h f (js_or (default VUndefined ctx) VPublisher) (VFun f :: option_list ctx)]
      ++ evs.
Proof.
  intros h w1 w2. subst w2.
  assert (closures w1 !! h =
          Some {| aborted := false;
                  callback := CbOnce f (js_or (default VUndefined ctx) VPublisher)
                                (VFun f :: option_list ctx) h |}) as Hc.
  { subst w1 h. simpl. rewrite lookup_app_r by lia. by rewrite Nat.sub_diag. }
  assert (log w1 = log w) as Hl by reflexivity.
  unfold eventHandler. unfold bind at 1. unfold gets at 1. rewrite Hc.
  cbn [aborted callback]. unfold bind at 1. unfold emit_event at 1. unfold modify.
  cbv beta iota. unfold bind at 1. unfold apply_callback. unfold bind at 1.
  unfold unsubscribe at 1. unfold bind at 1. unfold modify. cbv beta iota.
  unfold call_user. unfold bind at 1. unfold emit_event at 1. unfold modify.
  cbv beta iota.
  match goal with |- context [world_of (match ?m ?w0 with _ => _ end)] =>
    set (w4 := w0); set (rest := m) end.
  assert (log w4 = log w ++
      [EInvoke h (apply_list args);
       ECall h f (js_or (default VUndefined ctx) VPublisher) (VFun f :: option_list ctx)])
    as H4.
  { subst w4 w1. simpl. rewrite <- app_assoc. reflexivity. }
  assert (respects log_grows rest) as Hrest.
  { subst rest. apply respects_bind; [apply _|apply log_grows_exec|].
    intros _. apply respects_ret. apply _. }
  specialize (Hrest w4). destruct (rest w4) as [r w5|e w5|w5]; simpl in Hrest.
  - destruct (isPromise r).
    + match goal with |- context [world_of (?m w5)] =>
        assert (respects log_grows m) as Hm end.
      { apply respects_bind; [apply _|intros w'; apply log_grows_event|]. intros _.
        destruct (negb _); intros w'; [apply log_grows_event|by apply log_grows_same]. }
      specialize (Hm w5). destruct Hrest as [e1 E1], Hm as [e2 E2].
      exists (e1 ++ e2). rewrite E2, E1, H4. by rewrite <- !app_assoc.
    + destruct Hrest as [e1 E1]. exists e1. simpl. rewrite E1, H4.
      by rewrite <- !app_assoc.
  - destruct Hrest as [e1 E1]. exists e1. simpl. rewrite E1, H4. by rewrite <- !app_assoc.
  - destruct Hrest as [e1 E1]. exists e1. simpl. rewrite E1, H4. by rewrite <- !app_assoc.
Qed.

#[local] Instance once_kept_preorder h : PreOrder (once_kept h).
Proof. split; [intros w H; exact H|intros w1 w2 w3 H12 H23 H; auto]. Qed.

Lemma calls_app h l1 l2 : calls h (l1 ++ l2) = calls h l1 + calls h l2.
Proof. unfold calls. by rewrite list.filter_app, length_app. Qed.

Lemma calls_other h e : is_call h e = false -> calls h [e] = 0.
Proof.
  intros H. unfold calls.
  rewrite filter_cons_False by (rewrite H; discriminate). reflexivity.
Qed.

Lemma calls_self h f this args : calls h [ECall h f this args] = 1.
Proof.
  unfold calls. rewrite filter_cons_True by (simpl; by rewrite Nat.eqb_refl).
  reflexivity.
Qed.

Lemma once_kept_same h w w' :
  closures w' = closures w -> log w' = log w -> once_kept h w w'.
Proof. intros Hc Hl (c & H1 & H2 & H3). exists c. by rewrite Hc, Hl. Qed.

Lemma once_kept_event h e w : is_call h e = false -> once_kept h w (add_log e w).
Proof.
  intros He (c & H1 & H2 & H3). exists c. simpl. repeat split; [done..|].
  rewrite calls_app, (calls_other h e He). lia.
Qed.

Lemma once_kept_promise_step h w w' : promise_step w w' -> once_kept h w w'.
Proof.
  intros [_ _ _ Hc _ (evs & E & F)] (c & H1 & H2 & H3). exists c.
  rewrite Hc, E, calls_app. repeat split; [done..|].
  assert (calls h evs = 0) as ->; [|lia].
  clear E. induction F as [|e evs He _ IH]; [done|].
  change (e :: evs) with ([e] ++ evs). rewrite calls_app, IH.
  rewrite calls_other; [done|]. by destruct e.
Qed.

Lemma once_kept_unsubscribe cfg h h' : respects (once_kept h) (unsubscribe cfg h').
Proof.
  intros w (c & H1 & H2 & H3). simpl.
  destruct (decide (h' = h)) as [->|Hne].
  - exists {| aborted := true; callback := callback c |}. simpl.
    rewrite list_lookup_alter_eq, H1. simpl. repeat split; [done|].
    destruct (aborted c); lia.
  - exists c. simpl. rewrite list_lookup_alter_ne by done. done.
Qed.

Lemma once_kept_listen cfg h cb : respects (once_kept h) (listen cfg cb).
Proof.
  intros w (c & H1 & H2 & H3). exists c. simpl.
  rewrite lookup_app_l by (eapply lookup_lt_Some; eauto). done.
Qed.

Ltac once_steps :=
  first
    [ exact _
    | exact (once_kept_promise_step _)
    | exact (once_kept_unsubscribe _ _)
    | exact (once_kept_listen _ _)
    | (intros; apply once_kept_event; reflexivity)
    | (intros; intros ?; apply once_kept_same; reflexivity)
    | (intros; apply once_kept_same; reflexivity) ].

Lemma once_kept_deliver cfg h exec :
  (forall cs, respects (once_kept h) (exec cs)) ->
  forall h' args, respects (once_kept h) (eventHandler cfg exec h' args).
Proof.
  intros Hexec h' args. destruct (decide (h' = h)) as [->|Hne].
  - intros w Hinv. destruct Hinv as (c & Hc & (f & ctx & outer & Hcb) & Hcalls).
    unfold eventHandler. unfold bind at 1. unfold gets at 1. rewrite Hc.
    destruct (aborted c) eqn:Ha; [simpl; exists c; rewrite Ha; eauto 10|].
    rewrite Hcb. unfold bind at 1. unfold emit_event at 1. unfold modify.
    cbv beta iota. unfold bind at 1. unfold apply_callback. unfold bind at 1.
    unfold unsubscribe at 1. unfold bind at 1. unfold modify. cbv beta iota.
    unfold call_user. unfold bind at 1. unfold emit_event at 1. unfold modify.
    cbv beta iota.
    match goal with |- context [world_of (match ?m ?w0 with _ => _ end)] =>
      set (w3 := w0); set (rest := m) end.
    assert (once_inv h w3) as H3.
    { exists {| aborted := true; callback := callback c |}. subst w3. simpl.
      rewrite list_lookup_alter_eq, Hc. simpl. rewrite Hcb. repeat split; [eauto|].
      rewrite !calls_app. rewrite (calls_other h (EInvoke _ _)) by reflexivity.
      rewrite calls_self. lia. }
    assert (respects (once_kept h) rest) as Hrest.
    { subst rest. apply respects_bind; [apply _|apply Hexec|].
      intros _. apply respects_ret. apply _. }
    specialize (Hrest w3 H3). destruct (rest w3) as [r w4|e w4|w4]; simpl in Hrest;
      [|exact Hrest..].
    destruct (isPromise r); [|exact Hrest].
    match goal with |- context [world_of (?m w4)] =>
      assert (respects (once_kept h) m) as Hm end.
    { apply respects_bind; [apply _|intros w'; by apply once_kept_event|]. intros _.
      destruct (negb _); intros w'; [by apply once_kept_event|by apply once_kept_same]. }
    exact (Hm w4 Hrest).
  - apply respects_eventHandler; try once_steps; try exact Hexec.
    + intros w f this args'. apply once_kept_event. simpl.
      by apply Nat.eqb_neq.
Qed.

Lemma once_kept_run_tasks cfg h fuel ts w : once_kept h w (run_tasks cfg fuel ts w).
Proof. apply respects_run_tasks; first [exact (once_kept_deliver cfg h)|once_steps]. Qed.

(** A callback subscribed with [listenOnce] is called at most once, whatever
    the publisher is asked to do afterwards. *)
Lemma listenOnce_at_most_once (cfg : Config) (fuel : nat) (f : nat) (ctx : option Value)
    (w : World) (ts : list Task) :
  let h := length (closures w) in
  calls h (log w) = 0 ->
  calls h (log (run_tasks cfg fuel ts (world_of (listenOnce cfg f ctx w)))) <= 1.
Proof.
  intros h H0.
  destruct (once_kept_run_tasks cfg h fuel ts (world_of (listenOnce cfg f ctx w)))
    as (c & _ & _ & Hle).
  - eexists. simpl. rewrite lookup_app_r by lia. rewrite Nat.sub_diag. simpl.
    repeat split; [eauto|]. fold h. rewrite H0. simpl. lia.
  - destruct (aborted c); lia.
Qed.

(** C6: [listenOnce(f)] followed by [triggerSync(1, 2)]: the callback runs
    once, bound to the publisher, but it receives the arguments of
    [listenOnce], here [f] itself, and not [1, 2] of the event. *)
Theorem listenOnce_callback_arguments :
  log (run_tasks cfg_plain 1
         [TCmd (CListenOnce 0 None); TCmd (CTriggerSync [VNum 1; VNum 2]);
          TCmd (CTriggerSync [VNum 3])] constructor)
  = [EInvoke 0 [VNum 1; VNum 2]; ECall 0 0 VPublisher [VFun 0]].
Proof. vm_compute. reflexivity. Qed.

(** ** Several tracked promises *)

Lemma settle_pending p o w c rs :
  promises w !! p = Some c -> cell_state c = Pending rs ->
  settle p o w =
  enqueue (map (fun r => {| job_reaction := r; job_argument := o |}) rs)
    (with_promises
       (<[p := {| cell_state := Settled o; cell_handled := cell_handled c |}]>
          (promises w)) w).
Proof. intros H1 H2. unfold settle. by rewrite H1, H2. Qed.

Lemma settle_settled p o w c o' :
  promises w !! p = Some c -> cell_state c = Settled o' -> settle p o w = w.
Proof. intros H1 H2. unfold settle. by rewrite H1, H2. Qed.

Lemma fulfilled_count_insert st j o :
  st !! j = Some None ->
  fulfilled_count (<[j := Some o]> st)
  = fulfilled_count st + match o with Fulfilled _ => 1 | Rejected _ => 0 end.
Proof.
  revert j. induction st as [|s st IH]; intros [|j] H; simpl in *; try discriminate.
  - inversion H; subst. destruct o; simpl; lia.
  - rewrite (IH _ H). destruct s as [[]|]; lia.
Qed.

Lemma slots_insert items st j item o :
  items !! j = Some item ->
  slots items (<[j := Some o]> st) = <[j := slot item (Some o)]> (slots items st).
Proof.
  unfold slots. revert st j. induction items as [|x xs IH]; intros st j H.
  - by rewrite lookup_nil in H.
  - destruct st as [|s st]; [by destruct j|].
    destruct j as [|j]; simpl in *.
    + by inversion H; subst.
    + f_equal. by apply IH.
Qed.

Ltac cell_eq := repeat (first [reflexivity | lia | progress f_equal]).

Lemma all_loop_spec (a A : nat) (ms : list nat) : forall (i : nat) (w : World) (st0 : AllState),
  NoDup ms ->
  (forall m, m ∈ ms -> exists c, promises w !! m = Some c /\ cell_state c = Pending []) ->
  alls w !! a = Some st0 ->
  let w' := all_loop a A i (map VPromise ms) w in
  length (promises w') = length (promises w) + length ms /\
  (forall k m, ms !! k = Some m ->
     promises w' !! m =
     Some {| cell_state :=
               Pending [{| on_fulfilled := Some (HAllResolve a (i + k));
                           on_rejected := Some (HAllReject A);
                           derived := length (promises w) + k |}];
             cell_handled := true |}) /\
  (forall k, k < length ms -> promises w' !! (length (promises w) + k) = Some pending_cell) /\
  (forall k, k < length (promises w) -> k ∉ ms -> promises w' !! k = promises w !! k) /\
  alls w' !! a =
    Some {| all_promise := all_promise st0;
            all_values := all_values st0 ++ replicate (length ms) VUndefined;
            all_remaining := all_remaining st0 + length ms |} /\
  jobs w' = jobs w /\ log w' = log w.
Proof.
  induction ms as [|m ms IH]; intros i w st0 Hnd Hpend Hall.
  - cbv zeta. simpl.
    split; [lia|]. split; [intros k m H; by rewrite lookup_nil in H|].
    split; [intros k H; lia|]. split; [done|]. split; [|done].
    rewrite Hall, app_nil_r, Nat.add_0_r. by destruct st0.
  - apply list.NoDup_cons in Hnd as [Hnotin Hnd].
    destruct (Hpend m) as (c & Hc & Hcs); [left|].
    assert (m < length (promises w)) as Hmlt by (eapply lookup_lt_Some; eauto).
    set (L := length (promises w)) in *.
    set (r := {| on_fulfilled := Some (HAllResolve a i);
                 on_rejected := Some (HAllReject A); derived := L |}).
    set (P1 := <[m := {| cell_state := Pending [r]; cell_handled := true |}]>
                 (promises w ++ [pending_cell])).
    set (st1 := {| all_promise := all_promise st0;
                   all_values := all_values st0 ++ [VUndefined];
                   all_remaining := all_remaining st0 + 1 |}).
    set (A1 := alter (fun st => {| all_promise := all_promise st;
                                   all_values := all_values st;
                                   all_remaining := all_remaining st + 1 |}) a
                (alter (fun st => {| all_promise := all_promise st;
                                     all_values := all_values st ++ [VUndefined];
                                     all_remaining := all_remaining st |}) a (alls w))).
    assert (all_loop a A i (map VPromise (m :: ms)) w
            = all_loop a A (S i) (map VPromise ms)
                (with_promises P1 (with_alls A1 w))) as E.
    { simpl. unfold perform_then. simpl. rewrite Hc, Hcs. reflexivity. }
    assert (length P1 = L + 1) as HlenP1
      by (subst P1; rewrite length_insert, length_app; reflexivity).
    assert (A1 !! a = Some st1) as HA1.
    { subst A1. rewrite !list_lookup_alter_eq, Hall. reflexivity. }
    cbv zeta. rewrite E.
    destruct (IH (S i) (with_promises P1 (with_alls A1 w)) st1 Hnd)
      as (Hlen & Hreact & Hfresh & Hframe & Halls & Hjobs & Hlog).
    { intros m' Hin. destruct (Hpend m') as (c' & Hc' & Hcs'); [by right|].
      exists c'. split; [|done]. simpl. subst P1.
      assert (m' <> m) by (intros ->; done).
      rewrite list_lookup_insert_ne by done.
      rewrite lookup_app_l by (eapply lookup_lt_Some; eauto). done. }
    { exact HA1. }
    simpl in Hlen, Hreact, Hfresh, Hframe, Halls, Hjobs, Hlog. rewrite HlenP1 in *.
    split; [|split; [|split; [|split; [|split; [|split]]]]].
    + rewrite Hlen. simpl. lia.
    + intros [|k] m' Hm'; simpl in *.
      * inversion Hm'; subst m'. rewrite Hframe by (first [lia|done]).
        subst P1. rewrite lookup_insert_old by done. subst r. cell_eq.
      * rewrite (Hreact k m' Hm'). cell_eq.
    + intros [|k] Hk.
      * rewrite Nat.add_0_r. rewrite Hframe.
        -- subst P1. by apply lookup_insert_fresh.
        -- lia.
        -- intros Hin. destruct (Hpend L) as (c' & Hc' & _); [by right|].
           apply lookup_lt_Some in Hc'. lia.
      * simpl in Hk. replace (L + S k) with (L + 1 + k) by lia. apply Hfresh. lia.
    + intros k Hk Hnin. apply not_elem_of_cons in Hnin as [Hkm Hnin].
      rewrite Hframe by (first [lia|done]).
      subst P1. rewrite list_lookup_insert_ne by done. by rewrite lookup_app_l.
    + rewrite Halls. subst st1. simpl. rewrite <- app_assoc. simpl. cell_eq.
    + exact Hjobs.
    + exact Hlog.
Qed.

Lemma handleDispatchPromises_many w :
  2 <= length (current_records w) ->
  _handleDispatchPromises w =
  (let* mappedPromises :=
     map_m (fun item => promise_then (promise item) (Some (HMapItem (listener item))) None)
           (current_records w) in
   let* joinedPromise := promise_all mappedPromises in
   resolve joinedPromise) (world_of (clear_records w)).
Proof.
  intros H. rewrite handleDispatchPromises_unfold.
  destruct (current_records w) as [|i1 [|i2 rest]]; simpl in H; try lia. reflexivity.
Qed.

Lemma slots_replicate items :
  slots items (replicate (length items) None) = replicate (length items) VUndefined.
Proof.
  unfold slots. induction items as [|x xs IH]; simpl; [done|]. by rewrite IH.
Qed.

Lemma fulfilled_count_replicate k : fulfilled_count (replicate k None) = 0.
Proof. induction k; simpl; done. Qed.

Lemma verdict_step_settled items st x sched :
  (foldl (verdict_step items) (st, Some x) sched).2 = Some x.
Proof.
  revert st. induction sched as [|[j o] sched IH]; intros st; simpl; [done|].
  unfold verdict_step at 2. simpl.
  destruct (st !! j) as [[o'|]|]; simpl; apply IH.
Qed.

Lemma slots_all_fulfilled items vs st :
  length vs = length items -> length st = length items ->
  (forall i, i < length items -> st !! i = Some (Some (Fulfilled (default VUndefined (vs !! i))))) ->
  slots items st = zip_with entry items vs.
Proof.
  intros Hvs Hst H. unfold slots. apply list_eq. intros i.
  rewrite !lookup_zip_with.
  destruct (items !! i) as [item|] eqn:Hi; simpl; [|done].
  assert (i < length items) as Hlt by (eapply lookup_lt_Some; eauto).
  rewrite (H i Hlt). simpl.
  destruct (vs !! i) as [v|] eqn:Hv; simpl; [done|].
  apply lookup_ge_None in Hv. lia.
Qed.

(** ** The aggregate, job by job *)

Section Batches.

Variables (items : list DispatchRecord) (ps : list nat) (L a : nat).
Variable base_log : list Event.

Hypothesis ps_length : length ps = length items.
Hypothesis ps_lt : forall i p, ps !! i = Some p -> p < L.

#[local] Abbreviation n := (length items).
#[local] Abbreviation inv := (batch_inv items ps L a base_log).

Ltac lk :=
  repeat first
    [ rewrite list_lookup_insert_ne by lia
    | rewrite list_lookup_insert_eq by (rewrite ?length_insert; lia) ].

Lemma run_map_job i o w :
  i < n ->
  promises w !! (L + i) = Some (mapped_cell L n a i (item_at items i) None) ->
  run_job (map_job items L (i, o)) w
  = with_jobs (jobs w ++ [all_job items L a (i, o)])
      (with_promises
         (<[L + i := mapped_cell L n a i (item_at items i) (Some o)]> (promises w)) w).
Proof.
  intros Hi Hc. unfold run_job, map_job. simpl.
  destruct o as [v|e]; simpl;
    (erewrite settle_pending by (first [exact Hc|reflexivity])); reflexivity.
Qed.

Lemma phases_lt b w i ph : inv b w -> phases b !! i = Some ph -> i < n.
Proof. intros Hinv H. rewrite <- (bi_length _ _ _ _ _ _ _ Hinv). by eapply lookup_lt_Some. Qed.

Lemma map_step b w i o q :
  inv b w ->
  to_map b = (i, o) :: q ->
  inv {| phases := <[i := Joining o]> (phases b); verdict := verdict b;
         to_map := q; to_join := to_join b ++ [(i, o)]; to_trigger := to_trigger b |}
      (run_job (map_job items L (i, o))
         (with_jobs ((map_job items L <$> q) ++ (all_job items L a <$> to_join b)) w)).
Proof.
  intros Hinv Hq.
  pose proof Hinv as [Hlen Hmap Hjoin Hnd1 Hnd2 Hsrc Hmp Hel Hagg Hres Hall Hjobs Hord Htr Hlog].
  assert (phases b !! i = Some (Mapping o)) as Hph
    by (apply Hmap; rewrite Hq; left).
  assert (i < n) as Hi by (eapply phases_lt; eauto).
  assert (to_trigger b = None) as Hpt by (apply Hord; rewrite Hq; discriminate).
  rewrite Hq in Hnd1. simpl in Hnd1. apply list.NoDup_cons in Hnd1 as [Hni Hnd1].
  rewrite run_map_job by (first [exact Hi | simpl; exact (Hmp i _ Hph)]).
  split; simpl.
  - by rewrite length_insert.
  - intros k o'. destruct (decide (k = i)) as [->|Hne].
    + rewrite list_lookup_insert_eq by lia. split; [|discriminate].
      intros Hin. exfalso. apply Hni. apply list_elem_of_fmap. by exists (i, o').
    + rewrite list_lookup_insert_ne by done. rewrite <- Hmap, Hq.
      rewrite elem_of_cons. split; [tauto|]. intros [E|?]; [|done]. congruence.
  - intros k o'. rewrite elem_of_app, list_elem_of_singleton.
    destruct (decide (k = i)) as [->|Hne].
    + rewrite list_lookup_insert_eq by lia. split.
      * intros [Hin|E]; [|congruence]. apply Hjoin in Hin. congruence.
      * intros E. right. congruence.
    + rewrite list_lookup_insert_ne by done. rewrite <- Hjoin.
      split; [|tauto]. intros [?|E]; [done|congruence].
  - exact Hnd1.
  - rewrite fmap_app. simpl. apply list.NoDup_app. split; [exact Hnd2|].
    split; [|apply NoDup_singleton].
    intros k Hk Hk'. apply list_elem_of_singleton in Hk'. subst k.
    apply list_elem_of_fmap in Hk as ([k o'] & E & Hin). simpl in E. subst k.
    apply Hjoin in Hin. congruence.
  - intros k p ph Hp Hk. destruct (decide (k = i)) as [->|Hne].
    + rewrite list_lookup_insert_eq in Hk by lia. inversion Hk; subst ph.
      rewrite list_lookup_insert_ne by (specialize (ps_lt _ _ Hp); lia).
      exact (Hsrc i p _ Hp Hph).
    + rewrite list_lookup_insert_ne in Hk by done.
      rewrite list_lookup_insert_ne by (specialize (ps_lt _ _ Hp); lia).
      exact (Hsrc k p ph Hp Hk).
  - intros k ph Hk. destruct (decide (k = i)) as [->|Hne].
    + rewrite list_lookup_insert_eq in Hk by lia. inversion Hk; subst ph.
      rewrite list_lookup_insert_eq; [done|].
      apply lookup_lt_Some with (x := mapped_cell L n a i (item_at items i) None).
      exact (Hmp i _ Hph).
    + rewrite list_lookup_insert_ne in Hk by done.
      rewrite list_lookup_insert_ne by lia. exact (Hmp k ph Hk).
  - intros k ph Hk. rewrite list_lookup_insert_ne by lia.
    destruct (decide (k = i)) as [->|Hne].
    + rewrite list_lookup_insert_eq in Hk by lia. inversion Hk; subst ph.
      exact (Hel i _ Hph).
    + rewrite list_lookup_insert_ne in Hk by done. exact (Hel k ph Hk).
  - rewrite list_lookup_insert_ne by lia. exact Hagg.
  - rewrite list_lookup_insert_ne by lia. exact Hres.
  - rewrite list_fmap_insert. simpl.
    rewrite list_insert_id; [exact Hall|]. by rewrite list_lookup_fmap, Hph.
  - rewrite Hpt. simpl. rewrite fmap_app, app_nil_r, <- app_assoc. reflexivity.
  - intros _. exact Hpt.
  - exact Htr.
  - exact Hlog.
Qed.


Lemma item_at_lookup i item : items !! i = Some item -> item_at items i = item.
Proof. intros H. unfold item_at. by rewrite H. Qed.

Lemma items_lookup i : i < n -> items !! i = Some (item_at items i).
Proof.
  intros H. destruct (lookup_lt_is_Some_2 items i H) as [item E].
  by rewrite (item_at_lookup i item E).
Qed.

(** What is left to check after the job of a record's element has run. *)
Lemma join_close b w w' i o q vd vd' :
  inv b w ->
  verdict b = vd ->
  to_map b = [] ->
  to_join b = (i, o) :: q ->
  (forall k, k < L -> promises w' !! k = promises w !! k) ->
  (forall k, k < n -> promises w' !! (L + k) = promises w !! (L + k)) ->
  (forall k, k < n -> k <> i ->
     promises w' !! (L + n + 1 + k) = promises w !! (L + n + 1 + k)) ->
  promises w' !! (L + n + 1 + i) = Some (fulfilled_cell VUndefined false) ->
  promises w' !! (L + n) = Some (aggregate_cell L n vd') ->
  promises w' !! (L + 2 * n + 1) = promises w !! (L + 2 * n + 1) ->
  alls w' !! a =
    Some {| all_promise := L + n;
            all_values := slots items (joined <$> <[i := Done o]> (phases b));
            all_remaining := n - fulfilled_count (joined <$> <[i := Done o]> (phases b)) |} ->
  jobs w' = (all_job items L a <$> q)
            ++ trigger_jobs (L + 2 * n + 1) (next_trigger vd vd' (to_trigger b)) ->
  log w' = log w ->
  (forall x, vd = Some x -> vd' = Some x) ->
  inv {| phases := <[i := Done o]> (phases b); verdict := vd';
         to_map := []; to_join := q;
         to_trigger := next_trigger vd vd' (to_trigger b) |} w'.
Proof.
  intros Hinv <- Hq1 Hq2 Hlow Hmid Helt Hi' Hagg' Hres' Hall' Hjobs' Hlog' Hv2.
  assert (verdict b = None -> to_trigger b = None) as Hv1.
  { intros Ev. destruct (to_trigger b) as [x|] eqn:Et; [|done].
    rewrite (bi_trigger _ _ _ _ _ _ _ Hinv x Et) in Ev. discriminate. }
  pose proof Hinv as [Hlen Hmap Hjoin Hnd1 Hnd2 Hsrc Hmp Hel Hagg Hres Hall Hjobs Hord Htr Hlog].
  assert (phases b !! i = Some (Joining o)) as Hph
    by (apply Hjoin; rewrite Hq2; left).
  assert (i < n) as Hi by (eapply phases_lt; eauto).
  rewrite Hq2 in Hnd2. simpl in Hnd2. apply list.NoDup_cons in Hnd2 as [Hni Hnd2].
  split; cbn [phases verdict to_map to_join to_trigger].
  - by rewrite length_insert.
  - intros k o'. rewrite elem_of_nil. split; [done|]. intros Hk.
    destruct (decide (k = i)) as [->|Hne].
    + rewrite list_lookup_insert_eq in Hk by lia. discriminate.
    + rewrite list_lookup_insert_ne in Hk by done. apply Hmap in Hk.
      rewrite Hq1 in Hk. by apply elem_of_nil in Hk.
  - intros k o'. destruct (decide (k = i)) as [->|Hne].
    + rewrite list_lookup_insert_eq by lia. split; [|discriminate].
      intros Hin. exfalso. apply Hni. apply list_elem_of_fmap. by exists (i, o').
    + rewrite list_lookup_insert_ne by done. rewrite <- Hjoin, Hq2.
      rewrite elem_of_cons. split; [tauto|]. intros [E|?]; [|done]. congruence.
  - constructor.
  - exact Hnd2.
  - intros k p ph Hp Hk. rewrite Hlow by eauto.
    destruct (decide (k = i)) as [->|Hne].
    + rewrite list_lookup_insert_eq in Hk by lia. inversion Hk; subst ph.
      exact (Hsrc i p _ Hp Hph).
    + rewrite list_lookup_insert_ne in Hk by done. exact (Hsrc k p ph Hp Hk).
  - intros k ph Hk.
    assert (k < n) as Hkn.
    { apply lookup_lt_Some in Hk. rewrite length_insert in Hk. lia. }
    rewrite Hmid by done.
    destruct (decide (k = i)) as [->|Hne].
    + rewrite list_lookup_insert_eq in Hk by lia. inversion Hk; subst ph.
      exact (Hmp i _ Hph).
    + rewrite list_lookup_insert_ne in Hk by done. exact (Hmp k ph Hk).
  - intros k ph Hk.
    assert (k < n) as Hkn.
    { apply lookup_lt_Some in Hk. rewrite length_insert in Hk. lia. }
    destruct (decide (k = i)) as [->|Hne].
    + rewrite list_lookup_insert_eq in Hk by lia. inversion Hk; subst ph. exact Hi'.
    + rewrite list_lookup_insert_ne in Hk by done. rewrite Helt by done.
      exact (Hel k ph Hk).
  - exact Hagg'.
  - rewrite Hres', Hres. unfold next_trigger.
    destruct (verdict b) as [x|] eqn:Ev.
    + by rewrite (Hv2 x eq_refl).
    + rewrite (Hv1 eq_refl). by destruct vd'.
  - exact Hall'.
  - exact Hjobs'.
  - intros H. by destruct H.
  - unfold next_trigger. intros x. destruct (verdict b) as [y|] eqn:Ev.
    + rewrite (Hv2 y eq_refl). intros Et. specialize (Htr x Et). congruence.
    + destruct vd'; [congruence|]. rewrite (Hv1 eq_refl). discriminate.
  - rewrite Hlog', Hlog. unfold next_trigger.
    destruct (verdict b) as [y|] eqn:Ev.
    + by rewrite (Hv2 y eq_refl).
    + rewrite (Hv1 eq_refl). by destruct vd'.
Qed.


Lemma joined_insert_done (phs : list Phase) i o :
  joined <$> <[i := Done o]> phs = <[i := Some o]> (joined <$> phs).
Proof. by rewrite list_fmap_insert. Qed.

Ltac join_cells :=
  simpl; intros;
  repeat first
    [ rewrite list_lookup_insert_ne by lia
    | rewrite list_lookup_insert_eq by (rewrite ?length_insert; lia) ];
  try done.

Ltac join_rest J Hv1 :=
  first
    [ congruence
    | (try unfold enqueue; simpl; subst J; rewrite ?(Hv1 eq_refl); simpl;
       by rewrite ?app_nil_r) ].

Lemma join_step b w i o q :
  inv b w ->
  to_map b = [] ->
  to_join b = (i, o) :: q ->
  inv {| phases := <[i := Done o]> (phases b);
         verdict := next_verdict items (joined <$> phases b) (verdict b) i o;
         to_map := []; to_join := q;
         to_trigger :=
           next_trigger (verdict b)
             (next_verdict items (joined <$> phases b) (verdict b) i o) (to_trigger b) |}
      (run_job (all_job items L a (i, o))
         (with_jobs ((all_job items L a <$> q)
                     ++ trigger_jobs (L + 2 * n + 1) (to_trigger b)) w)).
Proof.
  intros Hinv Hq1 Hq2.
  pose proof Hinv as [Hlen Hmap Hjoin Hnd1 Hnd2 Hsrc Hmp Hel Hagg Hres Hall Hjobs Hord Htr Hlog].
  assert (phases b !! i = Some (Joining o)) as Hph
    by (apply Hjoin; rewrite Hq2; left).
  assert (i < n) as Hi by (eapply phases_lt; eauto).
  pose proof (items_lookup i Hi) as Hitem.
  set (st := joined <$> phases b) in *.
  assert (st !! i = Some None) as Hs by (subst st; by rewrite list_lookup_fmap, Hph).
  pose proof (Hel i _ Hph) as HD. simpl in HD.
  assert (L + 2 * n + 1 < length (promises w)) as Hbig
    by (eapply lookup_lt_Some; eauto).
  assert (a < length (alls w)) as Ha by (eapply lookup_lt_Some; eauto).
  assert (verdict b = None -> to_trigger b = None) as Hv1.
  { intros Ev. destruct (to_trigger b) as [x|] eqn:Et; [|done].
    specialize (Htr x eq_refl). congruence. }
  set (J := (all_job items L a <$> q) ++ trigger_jobs (L + 2 * n + 1) (to_trigger b)).
  destruct o as [v|e].
  - pose proof (slots_insert items st i (item_at items i) (Fulfilled v) Hitem) as Hsl.
    simpl in Hsl.
    pose proof (fulfilled_count_insert st i (Fulfilled v) Hs) as Hfc. simpl in Hfc.
    unfold run_job, all_job. simpl. rewrite Hall. simpl.
    rewrite <- Hsl.
    replace (n - fulfilled_count st - 1)
      with (n - fulfilled_count (<[i := Some (Fulfilled v)]> st)) by lia.
    set (st' := <[i := Some (Fulfilled v)]> st) in *.
    destruct (verdict b) as [x|] eqn:Ev; simpl next_verdict; fold st';
      destruct (Nat.eqb (n - fulfilled_count st') 0) eqn:Hz.
    + erewrite (settle_settled (L + n)) by (simpl; first [exact Hagg|reflexivity]).
      erewrite settle_pending by (simpl; first [exact HD|reflexivity]).
      apply (join_close b w _ i (Fulfilled v) q (Some x) (Some x)); try done;
        try (rewrite joined_insert_done; fold st st'); join_cells; join_rest J Hv1.
    + erewrite settle_pending by (simpl; first [exact HD|reflexivity]).
      apply (join_close b w _ i (Fulfilled v) q (Some x) (Some x)); try done;
        try (rewrite joined_insert_done; fold st st'); join_cells; join_rest J Hv1.
    + erewrite (settle_pending (L + n)) by (simpl; first [exact Hagg|reflexivity]).
      erewrite settle_pending by (simpl; lk; first [exact HD|reflexivity]).
      apply (join_close b w _ i (Fulfilled v) q None (Some (Fulfilled (VArray (slots items st')))));
        try done; try (rewrite joined_insert_done; fold st st'); join_cells; join_rest J Hv1.
    + erewrite settle_pending by (simpl; first [exact HD|reflexivity]).
      apply (join_close b w _ i (Fulfilled v) q None None); try done;
        try (rewrite joined_insert_done; fold st st'); join_cells; join_rest J Hv1.
  - pose proof (fulfilled_count_insert st i (Rejected e) Hs) as Hfc. simpl in Hfc.
    rewrite Nat.add_0_r in Hfc.
    assert (slots items (<[i := Some (Rejected e)]> st) = slots items st) as Hsl.
    { rewrite (slots_insert items st i (item_at items i) (Rejected e) Hitem). simpl.
      apply list_insert_id. unfold slots. rewrite lookup_zip_with, Hitem. simpl.
      by rewrite Hs. }
    unfold run_job, all_job. simpl.
    destruct (verdict b) as [x|] eqn:Ev; simpl next_verdict.
    + erewrite (settle_settled (L + n)) by (simpl; first [exact Hagg|reflexivity]).
      erewrite settle_pending by (simpl; first [exact HD|reflexivity]).
      apply (join_close b w _ i (Rejected e) q (Some x) (Some x)); try done;
        try (rewrite joined_insert_done; fold st; rewrite Hsl, Hfc);
        join_cells; join_rest J Hv1.
    + erewrite (settle_pending (L + n)) by (simpl; first [exact Hagg|reflexivity]).
      erewrite settle_pending by (simpl; lk; first [exact HD|reflexivity]).
      apply (join_close b w _ i (Rejected e) q None (Some (Rejected e))); try done;
        try (rewrite joined_insert_done; fold st; rewrite Hsl, Hfc);
        join_cells; join_rest J Hv1.
Qed.


Lemma trigger_step b w o :
  inv b w ->
  to_map b = [] -> to_join b = [] -> to_trigger b = Some o ->
  inv {| phases := phases b; verdict := verdict b;
         to_map := []; to_join := []; to_trigger := None |}
      (run_job {| job_reaction := resolve_reaction (L + 2 * n + 1); job_argument := o |}
         (with_jobs [] w)).
Proof.
  intros Hinv Hq1 Hq2 Ht.
  pose proof Hinv as [Hlen Hmap Hjoin Hnd1 Hnd2 Hsrc Hmp Hel Hagg Hres Hall Hjobs Hord Htr Hlog].
  rewrite Ht in Hres, Hlog. pose proof (Htr o Ht) as Ev.
  rewrite run_resolve_job by exact Hres.
  assert (L + 2 * n + 1 < length (promises w)) as Hbig
    by (eapply lookup_lt_Some; eauto).
  split; cbn [phases verdict to_map to_join to_trigger].
  - exact Hlen.
  - intros i o'. rewrite <- Hmap, Hq1. done.
  - intros i o'. rewrite <- Hjoin, Hq2. done.
  - constructor.
  - constructor.
  - intros i p ph Hp Hi. simpl.
    rewrite list_lookup_insert_ne by (specialize (ps_lt _ _ Hp); lia). eauto.
  - intros i ph Hi. assert (i < n) by (eapply phases_lt; eauto). simpl.
    rewrite list_lookup_insert_ne by lia. eauto.
  - intros i ph Hi. assert (i < n) by (eapply phases_lt; eauto). simpl.
    rewrite list_lookup_insert_ne by lia. eauto.
  - simpl. rewrite list_lookup_insert_ne by lia. exact Hagg.
  - simpl. rewrite list_lookup_insert_eq by lia. by rewrite Ev.
  - exact Hall.
  - reflexivity.
  - done.
  - discriminate.
  - simpl. rewrite Hlog, Ev, app_nil_r. reflexivity.
Qed.

Lemma joined_insert_joining (phs : list Phase) i o o' :
  phs !! i = Some (Mapping o') ->
  joined <$> <[i := Joining o]> phs = joined <$> phs.
Proof.
  intros H. rewrite list_fmap_insert. simpl.
  apply list_insert_id. by rewrite list_lookup_fmap, H.
Qed.

(** The outcome of running the jobs that wait: the queued elements are
    joined in their order. *)
Lemma drain_batch m : forall b w,
  batch_size b <= m ->
  inv b w ->
  exists phs,
    inv {| phases := phs; verdict := (settle_all items b).2;
           to_map := []; to_join := []; to_trigger := None |} (drain w) /\
    joined <$> phs = (settle_all items b).1.
Proof.
  induction m as [|m IH]; intros b w Hm Hinv.
  - unfold batch_size in Hm.
    destruct b as [phs vd q1 q2 t]. simpl in *.
    destruct q1; [|simpl in Hm; lia]. destruct q2; [|simpl in Hm; lia].
    destruct t; [lia|].
    exists phs. rewrite drain_nil by (rewrite (bi_jobs _ _ _ _ _ _ _ Hinv); done).
    split; [exact Hinv|reflexivity].
  - destruct (to_map b) as [|[i o] q1] eqn:Hq1.
    + destruct (to_join b) as [|[i o] q2] eqn:Hq2.
      * destruct (to_trigger b) as [o|] eqn:Ht.
        -- pose proof (trigger_step b w o Hinv Hq1 Hq2 Ht) as H1.
           erewrite drain_cons
             by (rewrite (bi_jobs _ _ _ _ _ _ _ Hinv), Hq1, Hq2, Ht; reflexivity).
           rewrite drain_nil by (rewrite (bi_jobs _ _ _ _ _ _ _ H1); done).
           exists (phases b). unfold settle_all. rewrite Hq1, Hq2. simpl.
           split; [exact H1|reflexivity].
        -- exists (phases b).
           rewrite drain_nil
             by (rewrite (bi_jobs _ _ _ _ _ _ _ Hinv), Hq1, Hq2, Ht; done).
           unfold settle_all. rewrite Hq1, Hq2. simpl.
           destruct b; simpl in *; subst. split; [exact Hinv|reflexivity].
      * pose proof (join_step b w i o q2 Hinv Hq1 Hq2) as H1.
        erewrite drain_cons
          by (rewrite (bi_jobs _ _ _ _ _ _ _ Hinv), Hq1, Hq2; reflexivity).
        match type of H1 with inv ?b1 _ =>
          assert (batch_size b1 <= m) as Hm1 end.
        { unfold batch_size in *. rewrite Hq1, Hq2 in Hm. simpl in *.
          unfold next_trigger.
          destruct (verdict b), (next_verdict _ _ _ _ _), (to_trigger b); simpl; lia. }
        destruct (IH _ _ Hm1 H1) as (phs & H2 & E).
        assert ((joined <$> phases b) !! i = Some None) as Hs.
        { rewrite list_lookup_fmap.
          rewrite (proj1 (bi_to_join _ _ _ _ _ _ _ Hinv i o)) by (rewrite Hq2; left).
          reflexivity. }
        assert (settle_all items b =
                settle_all items {| phases := <[i := Done o]> (phases b);
                              verdict := next_verdict items (joined <$> phases b)
                                           (verdict b) i o;
                              to_map := []; to_join := q2;
                              to_trigger :=
                                next_trigger (verdict b)
                                  (next_verdict items (joined <$> phases b) (verdict b) i o)
                                  (to_trigger b) |}) as Es.
        { unfold settle_all. rewrite Hq1, Hq2. simpl.
          unfold verdict_step at 2. simpl. rewrite Hs.
          by rewrite joined_insert_done. }
        rewrite Es. exists phs. split; [exact H2|exact E].
    + pose proof (map_step b w i o q1 Hinv Hq1) as H1.
      assert (to_trigger b = None) as Ht
        by (apply (bi_order _ _ _ _ _ _ _ Hinv); rewrite Hq1; discriminate).
      erewrite drain_cons
        by (rewrite (bi_jobs _ _ _ _ _ _ _ Hinv), Hq1, Ht; simpl;
            rewrite app_nil_r; reflexivity).
      match type of H1 with inv ?b1 _ =>
        assert (batch_size b1 <= m) as Hm1 end.
      { unfold batch_size in *. rewrite Hq1 in Hm. simpl in *.
        rewrite length_app. simpl. rewrite Ht in *. lia. }
      destruct (IH _ _ Hm1 H1) as (phs & H2 & E).
      assert (settle_all items b =
              settle_all items {| phases := <[i := Joining o]> (phases b); verdict := verdict b;
                            to_map := q1; to_join := to_join b ++ [(i, o)];
                            to_trigger := to_trigger b |}) as Es.
      { unfold settle_all. rewrite Hq1. simpl.
        rewrite (joined_insert_joining _ i o o)
          by (apply (bi_to_map _ _ _ _ _ _ _ Hinv); rewrite Hq1; left).
        by rewrite <- app_assoc. }
      rewrite Es. exists phs. split; [exact H2|exact E].
Qed.


#[local] Abbreviation clean phs vd :=
  {| phases := phs; verdict := vd; to_map := []; to_join := []; to_trigger := None |}.

Lemma clean_phase phs vd w i ph :
  inv (clean phs vd) w -> phs !! i = Some ph -> ph = Waiting \/ exists o, ph = Done o.
Proof.
  intros Hinv Hi. destruct ph as [|o|o|o]; [by left| | |right; eauto].
  - apply (bi_to_map _ _ _ _ _ _ _ Hinv) in Hi. by apply elem_of_nil in Hi.
  - apply (bi_to_join _ _ _ _ _ _ _ Hinv) in Hi. by apply elem_of_nil in Hi.
Qed.

Lemma elem_of_holders k p : k ∈ holders ps p <-> ps !! k = Some p.
Proof.
  unfold holders, holders_upto. rewrite list_elem_of_filter, elem_of_seq. split; [tauto|].
  intros H. split; [done|]. apply lookup_lt_Some in H. lia.
Qed.

Lemma NoDup_holders p : NoDup (holders ps p).
Proof. apply list.NoDup_filter, NoDup_seq. Qed.

Lemma same_source b w i k p ph :
  inv b w -> ps !! i = Some p -> ps !! k = Some p ->
  phases b !! i = Some Waiting -> phases b !! k = Some ph -> ph = Waiting.
Proof.
  intros Hinv Hi Hk Hpi Hpk.
  pose proof (bi_source _ _ _ _ _ _ _ Hinv i p _ Hi Hpi) as H1.
  pose proof (bi_source _ _ _ _ _ _ _ Hinv k p _ Hk Hpk) as H2.
  rewrite H1 in H2. by destruct ph.
Qed.

Lemma settled_source b w i k p o ph :
  inv b w -> ps !! i = Some p -> ps !! k = Some p ->
  phases b !! i = Some (Done o) -> phases b !! k = Some ph -> ph <> Waiting.
Proof.
  intros Hinv Hi Hk Hpi Hpk ->.
  pose proof (bi_source _ _ _ _ _ _ _ Hinv i p _ Hi Hpi) as H1.
  pose proof (bi_source _ _ _ _ _ _ _ Hinv k p _ Hk Hpk) as H2.
  rewrite H1 in H2. discriminate.
Qed.

Lemma settle_phases_lookup p o phs k :
  settle_phases ps p o phs !! k
  = (fun ph => if decide (ps !! k = Some p) then Mapping o else ph) <$> phs !! k.
Proof. unfold settle_phases. by rewrite list_lookup_imap. Qed.

Lemma settle_waiting phs vd w j p o :
  inv (clean phs vd) w ->
  ps !! j = Some p -> phs !! j = Some Waiting ->
  inv {| phases := settle_phases ps p o phs; verdict := vd;
         to_map := (fun k => (k, o)) <$> holders ps p;
         to_join := []; to_trigger := None |} (settle p o w) /\
  joined <$> settle_phases ps p o phs = joined <$> phs.
Proof.
  intros Hinv Hj Hw.
  pose proof Hinv as [Hlen Hmap Hjoin Hnd1 Hnd2 Hsrc Hmp Hel Hagg Hres Hall Hjobs Hord Htr Hlog].
  simpl in *.
  assert (forall k ph, ps !! k = Some p -> phs !! k = Some ph -> ph = Waiting) as Hsame.
  { intros k ph Hk Hph. exact (same_source _ _ j k p ph Hinv Hj Hk Hw Hph). }
  assert (joined <$> settle_phases ps p o phs = joined <$> phs) as Ejoin.
  { apply list_eq. intros k. rewrite !list_lookup_fmap, settle_phases_lookup.
    destruct (phs !! k) as [ph|] eqn:Hk; simpl; [|done].
    destruct (decide (ps !! k = Some p)) as [Hp|]; [|done].
    by rewrite (Hsame k ph Hp Hk). }
  split; [|exact Ejoin].
  pose proof (Hsrc j p _ Hj Hw) as Hcell. simpl in Hcell.
  assert (p < L) as HpL by eauto.
  erewrite settle_pending by (first [exact Hcell|reflexivity]).
  split; cbn [phases verdict to_map to_join to_trigger]; simpl.
  - unfold settle_phases. by rewrite length_imap.
  - intros k o'. rewrite list_elem_of_fmap, settle_phases_lookup. split.
    + intros (k' & E & Hin). inversion E; subst k' o'.
      apply elem_of_holders in Hin.
      destruct (lookup_lt_is_Some_2 phs k) as [ph Hph].
      { rewrite Hlen, <- ps_length. by eapply lookup_lt_Some. }
      rewrite Hph. simpl. by rewrite decide_True.
    + destruct (phs !! k) as [ph|] eqn:Hph; simpl; [|discriminate].
      destruct (decide (ps !! k = Some p)) as [Hp|Hp].
      * intros E. inversion E; subst o'. exists k. split; [done|].
        by apply elem_of_holders.
      * intros E. inversion E; subst ph.
        destruct (clean_phase _ _ _ _ _ Hinv Hph) as [?|[? ?]]; discriminate.
  - intros k o'. rewrite settle_phases_lookup. split; [by intros ?%elem_of_nil|].
    destruct (phs !! k) as [ph|] eqn:Hph; simpl; [|discriminate].
    destruct (decide (ps !! k = Some p)) as [Hp|Hp]; [discriminate|].
    intros E. inversion E; subst ph.
    destruct (clean_phase _ _ _ _ _ Hinv Hph) as [?|[? ?]]; discriminate.
  - match goal with |- NoDup ?l => assert (l = holders ps p) as -> end;
      [|apply NoDup_holders].
    induction (holders ps p) as [|? ? IH]; simpl; [done|f_equal; exact IH].
  - constructor.
  - intros k p' ph' Hk Hph'. rewrite settle_phases_lookup in Hph'.
    destruct (phs !! k) as [ph|] eqn:Hph; simpl in Hph'; [|discriminate].
    inversion Hph' as [E]. clear Hph'.
    destruct (decide (ps !! k = Some p)) as [Hp|Hp].
    + assert (p' = p) as -> by congruence.
      rewrite list_lookup_insert_eq by (eapply lookup_lt_Some; eauto). done.
    + rewrite list_lookup_insert_ne by congruence. exact (Hsrc k p' ph Hk Hph).
  - intros k ph' Hph'. rewrite settle_phases_lookup in Hph'.
    destruct (phs !! k) as [ph|] eqn:Hph; simpl in Hph'; [|discriminate].
    inversion Hph' as [E]. clear Hph'.
    rewrite list_lookup_insert_ne by lia.
    destruct (decide (ps !! k = Some p)) as [Hp|Hp].
    + rewrite (Hsame k ph Hp Hph) in Hph. exact (Hmp k _ Hph).
    + exact (Hmp k ph Hph).
  - intros k ph' Hph'. rewrite settle_phases_lookup in Hph'.
    destruct (phs !! k) as [ph|] eqn:Hph; simpl in Hph'; [|discriminate].
    inversion Hph' as [E]. clear Hph'.
    rewrite list_lookup_insert_ne by lia.
    destruct (decide (ps !! k = Some p)) as [Hp|Hp].
    + rewrite (Hsame k ph Hp Hph) in Hph. exact (Hel k _ Hph).
    + exact (Hel k ph Hph).
  - rewrite list_lookup_insert_ne by lia. exact Hagg.
  - rewrite list_lookup_insert_ne by lia. exact Hres.
  - rewrite Ejoin. exact Hall.
  - rewrite Hjobs. simpl. rewrite app_nil_r. unfold waiting_reactions.
    rewrite <- !list_fmap_compose. reflexivity.
  - done.
  - done.
  - exact Hlog.
Qed.

Lemma settle_done phs vd w j p o o' :
  inv (clean phs vd) w ->
  ps !! j = Some p -> phs !! j = Some (Done o') ->
  drain (settle p o w) = w /\
  foldl (verdict_step items) (joined <$> phs, vd) ((fun k => (k, o)) <$> holders ps p)
  = (joined <$> phs, vd).
Proof.
  intros Hinv Hj Hd. split.
  - pose proof (bi_source _ _ _ _ _ _ _ Hinv j p _ Hj Hd) as Hcell. simpl in Hcell.
    erewrite settle_settled by (first [exact Hcell|reflexivity]).
    apply drain_nil. rewrite (bi_jobs _ _ _ _ _ _ _ Hinv). done.
  - assert (forall k, k ∈ holders ps p ->
              exists o'', (joined <$> phs) !! k = Some (Some o'')) as Hall.
    { intros k Hk. apply elem_of_holders in Hk.
      destruct (lookup_lt_is_Some_2 phs k) as [ph Hph].
      { pose proof (bi_length _ _ _ _ _ _ _ Hinv) as Hl. simpl in Hl.
        rewrite Hl, <- ps_length. by eapply lookup_lt_Some. }
      pose proof (settled_source _ _ j k p o' ph Hinv Hj Hk Hd Hph) as Hne.
      destruct (clean_phase _ _ _ _ _ Hinv Hph) as [->|[o'' ->]]; [done|].
      exists o''. by rewrite list_lookup_fmap, Hph. }
    induction (holders ps p) as [|k ks IH]; [done|]. simpl.
    destruct (Hall k) as [o'' Hk]; [left|].
    unfold verdict_step at 2. simpl. rewrite Hk.
    apply IH. intros k' Hk'. apply Hall. by right.
Qed.


(** The promises follow the computed settlements, whatever promises the
    application settles and in whatever order. *)
Lemma settle_records_follow sched : forall phs vd w,
  inv (clean phs vd) w ->
  exists phs',
    inv (clean phs'
           (foldl (verdict_step items) (joined <$> phs, vd) (flat_map (settles ps) sched)).2)
        (settle_records ps sched w) /\
    joined <$> phs'
    = (foldl (verdict_step items) (joined <$> phs, vd) (flat_map (settles ps) sched)).1.
Proof.
  induction sched as [|[j o] sched IH]; intros phs vd w Hinv.
  - exists phs. split; [exact Hinv|reflexivity].
  - cbn [flat_map]. rewrite foldl_app.
    change (settle_records ps ((j, o) :: sched) w)
      with (settle_records ps sched
              (match ps !! j with Some p => drain (settle p o w) | None => w end)).
    assert (settles ps (j, o)
            = match ps !! j with
              | Some p => (fun i => (i, o)) <$> holders ps p
              | None => []
              end) as -> by reflexivity.
    destruct (ps !! j) as [p|] eqn:Hj; [|by apply IH].
    destruct (lookup_lt_is_Some_2 phs j) as [ph Hph].
    { pose proof (bi_length _ _ _ _ _ _ _ Hinv) as Hl. simpl in Hl.
      rewrite Hl, <- ps_length. by eapply lookup_lt_Some. }
    destruct (clean_phase _ _ _ _ _ Hinv Hph) as [->|[o' ->]].
    + destruct (settle_waiting phs vd w j p o Hinv Hj Hph) as [H1 Ej].
      destruct (drain_batch _ _ _ (le_n _) H1) as (phs1 & H2 & E1).
      unfold settle_all in H2, E1. cbn [phases verdict to_map to_join] in H2, E1.
      rewrite Ej in H2, E1. simpl in H2, E1.
      destruct (IH _ _ _ H2) as (phs' & H3 & E3).
      rewrite E1 in H3, E3. exists phs'.
      rewrite <- surjective_pairing in H3, E3. split; [exact H3|exact E3].
    + destruct (settle_done phs vd w j p o o' Hinv Hj Hph) as [-> ->].
      by apply IH.
Qed.

End Batches.

Lemma map_m_snoc {A B} (f : A -> M B) (xs : list A) (x : A) (w : World) :
  map_m f (xs ++ [x]) w
  = match map_m f xs w with
    | Ret ys w1 =>
        match f x w1 with
        | Ret y w2 => Ret (ys ++ [y]) w2
        | Exn e w2 => Exn e w2
        | Out w2 => Out w2
        end
    | Exn e w1 => Exn e w1
    | Out w1 => Out w1
    end.
Proof.
  revert w. induction xs as [|a xs IH]; intros w; simpl.
  - unfold bind, ret. destruct (f x w); reflexivity.
  - unfold bind. destruct (f a w) as [y w1|e w1|w1]; [|reflexivity..].
    rewrite IH.
    destruct (map_m f xs w1) as [ys w2|e w2|w2]; [|reflexivity..].
    unfold ret. destruct (f x w2); reflexivity.
Qed.

Lemma holders_upto_S ps k p :
  holders_upto ps (S k) p
  = holders_upto ps k p ++ (if decide (ps !! k = Some p) then [k] else []).
Proof.
  unfold holders_upto. rewrite seq_S, list.filter_app. simpl. f_equal.
Qed.

Lemma settled_upto_S w ps k :
  settled_upto w ps (S k)
  = settled_upto w ps k
    ++ match ps !! k with
       | Some p => match outcome_at w p with Some o => [(k, o)] | None => [] end
       | None => []
       end.
Proof.
  unfold settled_upto. rewrite seq_S, omap_app. simpl. f_equal.
  destruct (ps !! k) as [p|]; [|done]. by destruct (outcome_at w p).
Qed.

Lemma map_then_prefix (items : list DispatchRecord) (ps : list nat) (w : World) :
  length ps = length items ->
  map promise items = map VPromise ps ->
  (forall p, p ∈ ps -> exists c, promises w !! p = Some c /\ unobserved c) ->
  forall k, k <= length items ->
  exists P',
    map_m (fun item => promise_then (promise item) (Some (HMapItem (listener item))) None)
      (take k items) w
    = Ret (map VPromise (seq (length (promises w)) k))
        (with_jobs (jobs w ++ (map_job items (length (promises w)) <$> settled_upto w ps k))
           (with_promises P' w)) /\
    length P' = length (promises w) + k /\
    (forall p, p ∈ ps ->
       exists c', P' !! p = Some c' /\
         cell_state c'
         = match outcome_at w p with
           | Some o => Settled o
           | None =>
               Pending ((fun i => map_reaction (length (promises w)) i (item_at items i))
                          <$> holders_upto ps k p)
           end /\
         (p ∈ take k ps -> cell_handled c' = true)) /\
    (forall i, i < k -> P' !! (length (promises w) + i) = Some pending_cell).
Proof.
  intros Hlen Hmap Hpend. set (L := length (promises w)).
  assert (forall p, p ∈ ps -> p < L) as HpL.
  { intros p Hp. destruct (Hpend p Hp) as (c & Hc & _). by eapply lookup_lt_Some. }
  induction k as [|k IH]; intros Hk.
  - exists (promises w). split; [|split; [|split]].
    + simpl. unfold ret. rewrite app_nil_r. by destruct w.
    + lia.
    + intros p Hp. destruct (Hpend p Hp) as (c & Hc & Hu). exists c.
      split; [done|]. split.
      * unfold outcome_at. rewrite Hc. unfold unobserved in Hu.
        destruct (cell_state c) as [rs|o]; [by subst rs|done].
      * rewrite take_0. by intros ?%elem_of_nil.
    + intros i Hi. lia.
  - destruct IH as (P' & E & HlenP & Hcells & Hfresh); [lia|].
    destruct (lookup_lt_is_Some_2 items k) as [item Hitem]; [lia|].
    destruct (lookup_lt_is_Some_2 ps k) as [p Hp]; [lia|].
    assert (promise item = VPromise p) as Hpi.
    { assert (map promise items !! k = Some (promise item)) as H1
        by (by rewrite list_lookup_fmap, Hitem).
      rewrite Hmap in H1. change (map VPromise ps) with (VPromise <$> ps) in H1.
      rewrite list_lookup_fmap, Hp in H1. simpl in H1. congruence. }
    assert (p ∈ ps) as Hin by (by eapply list_elem_of_lookup_2).
    pose proof (HpL p Hin) as Hlt.
    destruct (Hcells p Hin) as (c' & Hc' & Hst & _).
    rewrite (take_S_r items k item Hitem), map_m_snoc, E.
    rewrite Hpi. unfold promise_then, perform_then.
    cbn [promises with_jobs with_promises]. rewrite Hc', HlenP.
    assert (item_at items k = item) as Hat by (unfold item_at; by rewrite Hitem).
    assert (forall q, q ∈ ps -> q <> p ->
              holders_upto ps (S k) q = holders_upto ps k q) as Hother.
    { intros q _ Hne. rewrite holders_upto_S.
      rewrite decide_False by congruence. by rewrite app_nil_r. }
    assert (forall (c0 : PromiseCell) q, q ∈ ps ->
              (<[p := c0]> (P' ++ [pending_cell])) !! q
              = if decide (q = p) then Some c0 else P' !! q) as Hlook.
    { intros c0 q Hq. pose proof (HpL q Hq). destruct (decide (q = p)) as [->|Hne].
      - apply list_lookup_insert_eq. rewrite length_app. simpl. lia.
      - rewrite list_lookup_insert_ne by done. apply lookup_app_l. lia. }
    assert (forall (c0 : PromiseCell) i, i < S k ->
              (<[p := c0]> (P' ++ [pending_cell])) !! (L + i) = Some pending_cell) as Hfr.
    { intros c0 i Hi. rewrite list_lookup_insert_ne by lia.
      destruct (decide (i = k)) as [->|Hne].
      - rewrite lookup_app_r by lia. by replace (L + k - length P') with 0 by lia.
      - rewrite lookup_app_l by lia. apply Hfresh. lia. }
    assert (forall q, q ∈ take (S k) ps -> q <> p -> q ∈ take k ps) as Htake.
    { intros q Hq Hne. rewrite (take_S_r ps k p Hp) in Hq.
      apply elem_of_app in Hq as [?|Hq]; [done|].
      apply list_elem_of_singleton in Hq. done. }
    rewrite Hst. rewrite settled_upto_S, Hp.
    rewrite seq_S, map_app. cbn [map].
    destruct (outcome_at w p) as [o|] eqn:Ho.
    + exists (<[p := {| cell_state := Settled o; cell_handled := true |}]>
                (P' ++ [pending_cell])).
      split; [|split; [|split]].
      * unfold enqueue. cbn [jobs promises with_jobs with_promises].
        rewrite fmap_app, app_assoc.
        assert (map_job items L <$> [(k, o)]
                = [{| job_reaction := map_reaction L k item; job_argument := o |}]) as ->
          by (simpl; unfold map_job; simpl; by rewrite Hat).
        reflexivity.
      * rewrite length_insert, length_app. simpl. lia.
      * intros q Hq. rewrite Hlook by done. destruct (decide (q = p)) as [->|Hne].
        -- eexists. split; [reflexivity|]. simpl. by rewrite Ho.
        -- destruct (Hcells q Hq) as (c2 & Hc2 & Hs2 & Hh2). exists c2.
           split; [done|]. split; [|by intros ?%Htake%Hh2].
           rewrite Hs2. destruct (outcome_at w q); [done|].
           by rewrite Hother.
      * intros i Hi. by apply Hfr.
    + exists (<[p := {| cell_state :=
                          Pending (((fun i => map_reaction L i (item_at items i))
                                      <$> holders_upto ps k p)
                                   ++ [map_reaction L k item]);
                        cell_handled := true |}]> (P' ++ [pending_cell])).
      split; [|split; [|split]].
      * cbn [jobs promises with_jobs with_promises]. rewrite app_nil_r. reflexivity.
      * rewrite length_insert, length_app. simpl. lia.
      * intros q Hq. rewrite Hlook by done. destruct (decide (q = p)) as [->|Hne].
        -- eexists. split; [reflexivity|]. simpl. rewrite Ho.
           rewrite holders_upto_S, decide_True by done.
           rewrite fmap_app. simpl. rewrite Hat. unfold map_reaction. done.
        -- destruct (Hcells q Hq) as (c2 & Hc2 & Hs2 & Hh2). exists c2.
           split; [done|]. split; [|by intros ?%Htake%Hh2].
           rewrite Hs2. destruct (outcome_at w q); [done|].
           by rewrite Hother.
      * intros i Hi. by apply Hfr.
Qed.

Lemma elem_of_settled_upto w ps k i o :
  (i, o) ∈ settled_upto w ps k
  <-> i < k /\ exists p, ps !! i = Some p /\ outcome_at w p = Some o.
Proof.
  unfold settled_upto. rewrite list_elem_of_omap. split.
  - intros (j & Hj & E). apply elem_of_seq in Hj.
    destruct (ps !! j) as [p|] eqn:Hp; [|done].
    destruct (outcome_at w p) as [o'|] eqn:Ho; [|done].
    inversion E; subst. split; [lia|]. by exists p.
  - intros (Hi & p & Hp & Ho). exists i. split; [apply elem_of_seq; lia|].
    by rewrite Hp, Ho.
Qed.

Lemma NoDup_settled_upto w ps k : NoDup (settled_upto w ps k).*1.
Proof.
  induction k as [|k IH]; [apply NoDup_nil_2|].
  rewrite settled_upto_S, fmap_app. apply list.NoDup_app. split; [done|]. split.
  - intros i Hi Hk. apply list_elem_of_fmap in Hi as ([i' o] & -> & Hi).
    apply elem_of_settled_upto in Hi as [Hi _]. simpl in Hk.
    destruct (ps !! k) as [p|]; [|by apply elem_of_nil in Hk].
    destruct (outcome_at w p); [|by apply elem_of_nil in Hk].
    apply list_elem_of_singleton in Hk. simpl in Hk. lia.
  - destruct (ps !! k) as [p|]; [|apply NoDup_nil_2].
    destruct (outcome_at w p); [apply NoDup_singleton|apply NoDup_nil_2].
Qed.

Lemma joined_initial (w : World) (ps : list nat) :
  joined <$> (initial_phase w <$> ps) = replicate (length ps) None.
Proof.
  induction ps as [|p ps IH]; [done|]. rewrite !fmap_cons, IH. simpl. f_equal.
  unfold initial_phase. by destruct (outcome_at w p).
Qed.

Lemma initial_phase_lookup (w : World) (ps : list nat) (i : nat) (ph : Phase) :
  (initial_phase w <$> ps) !! i = Some ph ->
  exists p, ps !! i = Some p /\ ph = initial_phase w p /\
            mapped_outcome ph = None /\ joined ph = None.
Proof.
  rewrite list_lookup_fmap. destruct (ps !! i) as [p|]; [|done].
  intros E. inversion E. exists p. split; [done|]. split; [done|].
  unfold initial_phase. by destruct (outcome_at w p).
Qed.

(** What [_handleDispatchPromises] sets up for two or more records whose
    promises nothing else waits on, whether they are settled or not and
    whether two records hold the same promise or not. *)
Lemma batch_setup (w : World) (items : list DispatchRecord) (ps : list nat) :
  current_records w = items ->
  2 <= length items ->
  map promise items = map VPromise ps ->
  (forall p, p ∈ ps -> exists c, promises w !! p = Some c /\ unobserved c) ->
  jobs w = [] ->
  exists w1,
    _handleDispatchPromises w
    = Ret (VPromise (length (promises w) + 2 * length items + 1)) w1 /\
    batch_inv items ps (length (promises w)) (length (alls w)) (log w)
      {| phases := initial_phase w <$> ps; verdict := None;
         to_map := settled_at w ps; to_join := []; to_trigger := None |} w1.
Proof.
  intros Hrec Hn Hmap Hpend Hjobs.
  rewrite handleDispatchPromises_many by (rewrite Hrec; done). rewrite Hrec.
  set (w0 := world_of (clear_records w)).
  set (L := length (promises w)).
  assert (length ps = length items) as Hpslen.
  { rewrite <- (length_map promise items), Hmap, length_map. done. }
  destruct (map_then_prefix items ps w0 Hpslen Hmap Hpend (length items) (le_n _))
    as (P' & E1 & HlenP' & Hsrc & Hfresh1).
  rewrite firstn_all in E1.
  change (length (promises w0)) with L in *.
  change (jobs w0) with (jobs w) in E1. rewrite Hjobs in E1. simpl app in E1.
  change (settled_upto w0 ps (length items)) with (settled_upto w ps (length items)) in E1.
  rewrite <- Hpslen in E1 at 2. fold (settled_at w ps) in E1.
  unfold bind at 1. rewrite E1.
  unfold bind at 1. unfold promise_all.
  set (wm := with_jobs _ (with_promises P' w0)).
  set (w1 := with_alls _ (with_promises (promises wm ++ [pending_cell]) wm)).
  assert (promises wm = P') as HPm by reflexivity.
  change (promises wm) with P' in *. change (alls wm) with (alls w) in *.
  rewrite HlenP'.
  assert (length (promises w1) = L + (length items) + 1) as Hlenw1.
  { subst w1. simpl. rewrite length_app, HlenP'. reflexivity. }
  destruct (all_loop_spec (length (alls w)) (L + (length items)) (seq L (length items)) 0 w1
              {| all_promise := L + (length items); all_values := []; all_remaining := 1 |})
    as (Hlen2 & Hreact & Hfresh2 & Hframe2 & Halls2 & Hjobs2 & Hlog2).
  { apply NoDup_seq. }
  { intros m Hm. apply elem_of_seq in Hm. exists pending_cell. split; [|done].
    subst w1. simpl. rewrite lookup_app_l by lia.
    replace m with (L + (m - L)) by lia. apply Hfresh1. lia. }
  { subst w1. simpl. rewrite HlenP'. rewrite lookup_app_r by done.
    by rewrite Nat.sub_diag. }
  set (w2 := all_loop (length (alls w)) (L + (length items)) 0
               (map VPromise (seq L (length items))) w1) in *.
  rewrite Hlenw1, length_seq in *. simpl in Halls2, Hreact.
  set (w3 := update_all _ _ w2).
  assert (alls w3 !! length (alls w) =
          Some {| all_promise := L + (length items);
                  all_values := replicate (length items) VUndefined;
                  all_remaining := (length items) |}) as Halls3.
  { subst w3. simpl. rewrite list_lookup_alter_eq, Halls2. simpl.
    by rewrite Nat.sub_0_r. }
  rewrite Halls3. simpl all_remaining.
  destruct (Nat.eqb (length items) 0) eqn:Hz; [apply Nat.eqb_eq in Hz; lia|].
  assert (promises w3 !! (L + (length items)) = Some pending_cell) as HA.
  { subst w3. simpl. rewrite Hframe2.
    - subst w1. simpl. rewrite lookup_app_r by lia.
      by replace (L + (length items) - length P') with 0 by lia.
    - lia.
    - rewrite elem_of_seq. lia. }
  assert (length (promises w3) = L + 2 * (length items) + 1) as Hlen3
    by (subst w3; simpl; lia).
  unfold resolve. simpl. unfold perform_then. rewrite HA, Hlen3. simpl.
  eexists. split; [reflexivity|].
  assert (length (promises w2) = L + 2 * (length items) + 1) as Hlenw2 by lia.
  split; cbn [phases verdict to_map to_join to_trigger promises alls jobs log
              with_promises with_alls with_jobs].
  - by rewrite length_fmap.
  - intros i o. unfold settled_at. rewrite elem_of_settled_upto, list_lookup_fmap. split.
    + intros (_ & p & -> & Ho). simpl. unfold initial_phase. by rewrite Ho.
    + destruct (ps !! i) as [p|] eqn:Hp; [|done]. simpl. unfold initial_phase.
      destruct (outcome_at w p) as [o'|] eqn:Ho; [|done].
      intros E. inversion E; subst o'. split; [by eapply lookup_lt_Some|]. by exists p.
  - intros i o. split; [by intros ?%elem_of_nil|].
    intros (p & _ & E & _)%initial_phase_lookup. unfold initial_phase in E.
    by destruct (outcome_at w p).
  - apply NoDup_settled_upto.
  - apply NoDup_nil_2.
  - intros i p ph Hp Hph. apply initial_phase_lookup in Hph as (p' & Hp' & -> & _).
    assert (p' = p) as -> by congruence.
    assert (p ∈ ps) as Hin by (by eapply list_elem_of_lookup_2).
    destruct (Hpend p Hin) as (c0 & Hc0 & _). apply lookup_lt_Some in Hc0.
    fold L in Hc0.
    rewrite list_lookup_insert_ne by lia. rewrite lookup_app_l by lia.
    rewrite Hframe2; [|lia|rewrite elem_of_seq; lia].
    subst w1. simpl. rewrite lookup_app_l by lia.
    destruct (Hsrc p Hin) as (c' & -> & Hst & Hh). f_equal.
    rewrite <- Hpslen, firstn_all in Hh. specialize (Hh Hin).
    change (outcome_at w0 p) with (outcome_at w p) in Hst.
    unfold initial_phase. destruct c' as [s h]. simpl in *. subst h.
    destruct (outcome_at w p); subst s; [done|].
    unfold source_of, waiting_reactions, holders. by rewrite Hpslen.
  - intros i ph Hph. pose proof (lookup_lt_Some _ _ _ Hph) as Hi.
    rewrite length_fmap, Hpslen in Hi.
    apply initial_phase_lookup in Hph as (p & _ & _ & -> & _).
    rewrite list_lookup_insert_ne by lia. rewrite lookup_app_l by lia.
    rewrite (Hreact i (L + i)) by (by apply lookup_seq_lt).
    unfold mapped_cell, all_reaction. cell_eq.
  - intros i ph Hph. pose proof (lookup_lt_Some _ _ _ Hph) as Hi.
    rewrite length_fmap, Hpslen in Hi.
    apply initial_phase_lookup in Hph as (p & _ & _ & _ & ->).
    rewrite list_lookup_insert_ne by lia. rewrite lookup_app_l by lia.
    by apply Hfresh2.
  - assert (L + length items < length (promises w2 ++ [pending_cell])) as Hside
      by (rewrite length_app, Hlenw2; simpl; lia).
    rewrite list_lookup_insert_eq by exact Hside.
    reflexivity.
  - rewrite list_lookup_insert_ne by lia. rewrite lookup_app_r by lia.
    match goal with |- _ !! ?k = _ => replace k with 0 by lia end. reflexivity.
  - change (alter _ _ (alls w2)) with (alls w3).
    rewrite Halls3, joined_initial, Hpslen, slots_replicate, fulfilled_count_replicate.
    cell_eq.
  - change (jobs w2 = (map_job items L <$> settled_at w ps) ++ [] ++ []).
    rewrite Hjobs2. simpl. by rewrite app_nil_r.
  - done.
  - done.
  - change (log w2 = log w ++ []). rewrite Hlog2. simpl. by rewrite app_nil_r.
Qed.

(** ** The outcome of the aggregate, from the settlements *)

Lemma fulfilled_count_lt (st : list (option Outcome)) (j : nat) :
  st !! j = Some None -> fulfilled_count st < length st.
Proof.
  revert j. induction st as [|s st IH]; intros [|j] H; simpl in *; try discriminate.
  - inversion H; subst. clear IH H.
    assert (forall l, fulfilled_count l <= length l) as Hle.
    { induction l as [|[[?|?]|] l IHl]; simpl; lia. }
    specialize (Hle st). lia.
  - specialize (IH j H). destruct s as [[?|?]|]; lia.
Qed.

Lemma fulfilled_count_full (st : list (option Outcome)) :
  (forall i, i < length st -> exists v, st !! i = Some (Some (Fulfilled v))) ->
  fulfilled_count st = length st.
Proof.
  induction st as [|s st IH]; intros H; [done|].
  destruct (H 0) as (v & E); [simpl; lia|]. simpl in E. inversion E; subst s.
  simpl. f_equal. apply IH. intros i Hi. apply (H (S i)). simpl. lia.
Qed.

(** The state of the aggregate while every settlement is a fulfilment. *)
Lemma aggregate_run_fulfilled (items : list DispatchRecord) (seen : list (nat * Outcome)) :
  (forall x, x ∈ seen -> fulfilled x.2) ->
  let s := aggregate_run items seen in
  length s.1 = length items /\
  (forall i, i < length items -> i ∉ seen.*1 -> s.1 !! i = Some None) /\
  (forall i o, s.1 !! i = Some (Some o) -> (i, o) ∈ seen) /\
  (forall i, i < length items -> i ∈ seen.*1 -> exists o, s.1 !! i = Some (Some o)) /\
  (0 < length items ->
   s.2 = if Nat.eqb (length items - fulfilled_count s.1) 0
         then Some (Fulfilled (VArray (slots items s.1))) else None).
Proof.
  induction seen as [|[j o] seen IH] using rev_ind; intros Hful.
  - cbv zeta. unfold aggregate_run. simpl. rewrite length_replicate.
    split; [done|]. split; [intros i Hi _; by apply lookup_replicate_2|].
    split; [intros i o [E _]%lookup_replicate; discriminate|].
    split; [intros i _ Hi; by apply elem_of_nil in Hi|].
    intros Hpos. rewrite fulfilled_count_replicate.
    destruct (Nat.eqb_spec (length items - 0) 0); [lia|done].
  - destruct IH as (Hlen & Hout & Hin & Hcov & Hvd).
    { intros x Hx. apply Hful, elem_of_app. by left. }
    assert (fulfilled o) as Ho by (apply (Hful (j, o)), elem_of_app; right; by left).
    destruct o as [v|e]; [clear Ho|done].
    cbv zeta. unfold aggregate_run in *. rewrite foldl_app. simpl.
    set (s := foldl (verdict_step items) (replicate (length items) None, None) seen) in *.
    assert (forall i, i ∈ (seen ++ [(j, Fulfilled v)]).*1 <-> i ∈ seen.*1 \/ i = j) as Hmem.
    { intros i. rewrite fmap_app, elem_of_app. simpl. by rewrite list_elem_of_singleton. }
    unfold verdict_step. cbn [fst snd].
    destruct (s.1 !! j) as [[o'|]|] eqn:Hj.
    + split; [done|]. split; [intros i Hi Hn; apply Hout; [done|]; rewrite Hmem in Hn; tauto|].
      split; [intros i o Hi; apply elem_of_app; left; by apply Hin|].
      split; [|done].
      intros i Hi [Hs| ->]%Hmem; [by apply Hcov|eauto].
    + cbn [fst snd]. split; [by rewrite length_insert|].
      split; [|split; [|split]].
      * intros i Hi Hn. rewrite Hmem in Hn.
        rewrite list_lookup_insert_ne by (intros ->; tauto). apply Hout; [done|tauto].
      * intros i o Hi. apply elem_of_app. destruct (decide (i = j)) as [->|Hne].
        -- rewrite list_lookup_insert_eq in Hi by (by eapply lookup_lt_Some).
           inversion Hi; subst o. right. by left.
        -- rewrite list_lookup_insert_ne in Hi by done. left. by apply Hin.
      * intros i Hi [Hs| ->]%Hmem.
        -- destruct (decide (i = j)) as [->|Hne].
           ++ rewrite list_lookup_insert_eq by (by eapply lookup_lt_Some). eauto.
           ++ rewrite list_lookup_insert_ne by done. by apply Hcov.
        -- rewrite list_lookup_insert_eq by (by eapply lookup_lt_Some). eauto.
      * intros Hpos. rewrite (Hvd Hpos).
        pose proof (fulfilled_count_lt _ _ Hj) as Hlt. rewrite Hlen in Hlt.
        destruct (Nat.eqb_spec (length items - fulfilled_count s.1) 0); [lia|].
        reflexivity.
    + apply lookup_ge_None in Hj. rewrite Hlen in Hj.
      split; [done|]. split; [intros i Hi Hn; apply Hout; [done|]; rewrite Hmem in Hn; tauto|].
      split; [intros i o Hi; apply elem_of_app; left; by apply Hin|].
      split; [|done].
      intros i Hi [Hs| ->]%Hmem; [by apply Hcov|lia].
Qed.

(** No outcome while a record is unsettled and none has failed. *)
Lemma aggregate_run_waits (items : list DispatchRecord) (seen : list (nat * Outcome)) (j : nat) :
  (forall x, x ∈ seen -> fulfilled x.2) ->
  j < length items -> j ∉ seen.*1 ->
  (aggregate_run items seen).1 !! j = Some None /\ (aggregate_run items seen).2 = None.
Proof.
  intros Hful Hj Hn.
  destruct (aggregate_run_fulfilled items seen Hful) as (Hlen & Hout & _ & _ & Hvd).
  pose proof (Hout j Hj Hn) as Hs. split; [done|].
  rewrite Hvd by lia. pose proof (fulfilled_count_lt _ _ Hs) as Hlt. rewrite Hlen in Hlt.
  destruct (Nat.eqb_spec (length items - fulfilled_count (aggregate_run items seen).1) 0);
    [lia|done].
Qed.

(** Every record fulfilled: the entries in the order of the records. *)
Lemma aggregate_run_completes (items : list DispatchRecord) (seen : list (nat * Outcome))
    (vs : list Value) :
  0 < length items ->
  length vs = length items ->
  (forall i, i < length items -> i ∈ seen.*1) ->
  (forall x, x ∈ seen -> x.2 = Fulfilled (default VUndefined (vs !! x.1))) ->
  (aggregate_run items seen).2 = Some (Fulfilled (VArray (zip_with entry items vs))).
Proof.
  intros Hpos Hvs Hall Hval.
  destruct (aggregate_run_fulfilled items seen) as (Hlen & _ & Hin & Hcov & Hvd).
  { intros x Hx. by rewrite (Hval x Hx). }
  assert (forall i, i < length items ->
            (aggregate_run items seen).1 !! i
            = Some (Some (Fulfilled (default VUndefined (vs !! i))))) as Hst.
  { intros i Hi. destruct (Hcov i Hi (Hall i Hi)) as (o & Ho). rewrite Ho.
    pose proof (Hval _ (Hin i o Ho)) as E. simpl in E. by rewrite E. }
  rewrite Hvd by done.
  rewrite fulfilled_count_full, Hlen, Nat.sub_diag by (rewrite Hlen; intros i Hi; eauto).
  simpl. by rewrite (slots_all_fulfilled items vs).
Qed.

(** The first failure is the outcome, whatever is settled afterwards. *)
Lemma aggregate_run_fails (items : list DispatchRecord) (pre rest : list (nat * Outcome))
    (j : nat) (e : Value) :
  (forall x, x ∈ pre -> fulfilled x.2) ->
  j < length items -> j ∉ pre.*1 ->
  (aggregate_run items (pre ++ (j, Rejected e) :: rest)).2 = Some (Rejected e).
Proof.
  intros Hful Hj Hn. destruct (aggregate_run_waits items pre j Hful Hj Hn) as [Hs Hvd].
  unfold aggregate_run in *. rewrite foldl_app. simpl.
  set (s := foldl (verdict_step items) (replicate (length items) None, None) pre) in *.
  assert (verdict_step items s (j, Rejected e) = (<[j := Some (Rejected e)]> s.1, Some (Rejected e)))
    as ->.
  { unfold verdict_step. cbn [fst snd]. rewrite Hs, Hvd. reflexivity. }
  apply verdict_step_settled.
Qed.

(** What the outcome of the aggregate means for the log. *)
Lemma aggregate_cases (items : list DispatchRecord) (seen : list (nat * Outcome))
    (base l : list Event) :
  0 < length items ->
  l = base ++ verdict_events (aggregate_run items seen).2 ->
  ((forall x, x ∈ seen -> fulfilled x.2) ->
   (exists j, j < length items /\ j ∉ seen.*1) ->
   l = base) /\
  (forall vs,
     length vs = length items ->
     (forall i, i < length items -> i ∈ seen.*1) ->
     (forall x, x ∈ seen -> x.2 = Fulfilled (default VUndefined (vs !! x.1))) ->
     l = base ++ [ETrigger Completed (VArray (zip_with entry items vs))]) /\
  (forall pre j e rest,
     seen = pre ++ (j, Rejected e) :: rest ->
     (forall x, x ∈ pre -> fulfilled x.2) ->
     j < length items -> j ∉ pre.*1 ->
     l = base ++ [ETrigger Failed e]).
Proof.
  intros Hpos Hlog. split; [|split].
  - intros Hful (j & Hj & Hjn). rewrite Hlog.
    destruct (aggregate_run_waits items seen j Hful Hj Hjn) as [_ ->].
    simpl. by rewrite app_nil_r.
  - intros vs Hvs Hall Hval. rewrite Hlog.
    rewrite (aggregate_run_completes items seen vs) by (first [lia|done]). reflexivity.
  - intros pre j e rest Hseen Hful Hj Hjn. rewrite Hlog, Hseen.
    rewrite (aggregate_run_fails items pre rest j e) by done. reflexivity.
Qed.

(** What the settlements bring about once the aggregate is set up, from
    the end of the turn of the cycle on. *)
Lemma batch_outcomes (items : list DispatchRecord) (ps : list nat) (L a : nat)
    (base_log : list Event) (w w1 : World) (sched : list (nat * Outcome)) :
  length ps = length items ->
  (forall i p, ps !! i = Some p -> p < L) ->
  batch_inv items ps L a base_log
    {| phases := initial_phase w <$> ps; verdict := None;
       to_map := settled_at w ps; to_join := []; to_trigger := None |} w1 ->
  log (settle_records ps sched (drain w1))
  = base_log ++ verdict_events (aggregate_run items (settlements w ps sched)).2.
Proof.
  intros Hlen Hlt Hinv.
  destruct (drain_batch items ps L a base_log Hlen Hlt _ _ _ (le_n _) Hinv) as (phs & H1 & E1).
  destruct (settle_records_follow items ps L a base_log Hlen Hlt sched _ _ _ H1)
    as (phs' & H2 & _).
  rewrite (bi_log _ _ _ _ _ _ _ H2). cbn [to_trigger verdict]. do 2 f_equal.
  rewrite E1. unfold settlements, aggregate_run. rewrite foldl_app.
  rewrite <- surjective_pairing. unfold settle_all. cbn [phases verdict to_map to_join].
  rewrite joined_initial, Hlen. reflexivity.
Qed.

(** C2: two or more tracked records, on whose promises nothing else waits
    when the cycle is resolved; a promise may be settled already, and two
    records may hold the same promise.  [_handleDispatchPromises] returns
    normally and triggers nothing itself.  From the end of that turn on,
    with [seen] the settlements of the records' promises in the order in
    which they occur (those found settled at the resolution first, in the
    order of the records):
    - the log grows by what the aggregate of the mapped promises decides;
    - while a record's promise is unsettled and none has failed, no child
      is triggered;
    - once all are fulfilled, "completed" is triggered once, with the
      array of the [{listener, value}] entries in the order of the records;
    - the first failure triggers "failed" once with its error, whatever is
      settled afterwards. *)
Theorem many_records_aggregate (w : World) (items : list DispatchRecord) (ps : list nat) :
  current_records w = items ->
  2 <= length items ->
  map promise items = map VPromise ps ->
  (forall p, p ∈ ps -> exists c, promises w !! p = Some c /\ unobserved c) ->
  jobs w = [] ->
  let w1 := world_of (_handleDispatchPromises w) in
  (exists r, _handleDispatchPromises w = Ret r w1) /\
  log w1 = log w /\
  forall sched,
    let seen := settlements w ps sched in
    let w2 := settle_records ps sched (drain w1) in
    log w2 = log w ++ verdict_events (aggregate_run items seen).2 /\
    ((forall x, x ∈ seen -> fulfilled x.2) ->
     (exists j, j < length items /\ j ∉ seen.*1) ->
     log w2 = log w) /\
    (forall vs,
       length vs = length items ->
       (forall i, i < length items -> i ∈ seen.*1) ->
       (forall x, x ∈ seen -> x.2 = Fulfilled (default VUndefined (vs !! x.1))) ->
       log w2 = log w ++ [ETrigger Completed (VArray (zip_with entry items vs))]) /\
    (forall pre j e rest,
       seen = pre ++ (j, Rejected e) :: rest ->
       (forall x, x ∈ pre -> fulfilled x.2) ->
       j < length items -> j ∉ pre.*1 ->
       log w2 = log w ++ [ETrigger Failed e]).
Proof.
  intros Hrec Hn Hmap Hpend Hjobs w1.
  destruct (batch_setup w items ps Hrec Hn Hmap Hpend Hjobs) as (w1' & E & Hinv).
  assert (w1 = w1') as Hw1 by (subst w1; by rewrite E).
  clearbody w1. subst w1.
  assert (length ps = length items) as Hpslen.
  { rewrite <- (length_map promise items), Hmap, length_map. done. }
  assert (forall i p, ps !! i = Some p -> p < length (promises w)) as Hlt.
  { intros i p Hp. destruct (Hpend p) as (c & Hc & _); [by eapply list_elem_of_lookup_2|].
    by eapply lookup_lt_Some. }
  split; [eauto|].
  split; [rewrite (bi_log _ _ _ _ _ _ _ Hinv); simpl; by rewrite app_nil_r|].
  intros sched seen w2.
  assert (log w2 = log w ++ verdict_events (aggregate_run items seen).2) as Hlog
    by (apply (batch_outcomes items ps _ _ _ w w1' sched Hpslen Hlt Hinv)).
  split; [exact Hlog|].
  exact (aggregate_cases items seen (log w) _ ltac:(lia) Hlog).
Qed.

Lemma many_records_aggregate_witness :
  log (settle_records [0; 1; 1] [(1, Fulfilled (VNum 20))]
         (drain (world_of (_handleDispatchPromises w_mixed))))
  = [ETrigger Completed
       (VArray [VObject [("listener", VFun 1); ("value", VNum 5)];
                VObject [("listener", VFun 2); ("value", VNum 20)];
                VObject [("listener", VFun 3); ("value", VNum 20)]])].
Proof.
  assert (forall p, p ∈ [0; 1; 1] ->
            exists c, promises w_mixed !! p = Some c /\ unobserved c) as Hp.
  { intros p Hin. apply elem_of_cons in Hin as [->|Hin].
    - by exists (fulfilled_cell (VNum 5) false).
    - exists pending_cell. apply elem_of_cons in Hin as [->|Hin]; [done|].
      apply list_elem_of_singleton in Hin as ->. done. }
  destruct (many_records_aggregate w_mixed items_mixed [0; 1; 1] eq_refl
              (le_S 2 2 (le_n 2)) eq_refl Hp eq_refl) as (_ & _ & H).
  destruct (H [(1, Fulfilled (VNum 20))]) as (_ & _ & Hc & _).
  refine (Hc [VNum 5; VNum 20; VNum 20] eq_refl _ _).
  - intros i Hi.
    change (i ∈ [0; 1; 2]). destruct i as [|[|[|i]]]; [repeat constructor..|simpl in Hi; lia].
  - intros x Hx.
    change (x ∈ [(0, Fulfilled (VNum 5)); (1, Fulfilled (VNum 20)); (2, Fulfilled (VNum 20))])
      in Hx.
    apply elem_of_cons in Hx as [->|Hx]; [done|].
    apply elem_of_cons in Hx as [->|Hx]; [done|].
    apply list_elem_of_singleton in Hx as ->. done.
Defined.

(** ** Subscribing and unsubscribing *)

Lemma alter_abort_twice (h : nat) (cl : list Closure) :
  alter (fun c => {| aborted := true; callback := callback c |}) h
    (alter (fun c => {| aborted := true; callback := callback c |}) h cl)
  = alter (fun c => {| aborted := true; callback := callback c |}) h cl.
Proof.
  rewrite list_alter_alter_eq. apply list_alter_ext; [|done]. intros c _. reflexivity.
Qed.

Lemma removeListener_twice ty h em :
  removeListener ty h (removeListener ty h em) = removeListener ty h em.
Proof.
  unfold removeListener. induction em as [|r em IH]; [done|].
  rewrite filter_cons. case_decide; [|exact IH].
  rewrite filter_cons. case_decide; [|done]. by rewrite IH.
Qed.

(** The function that [listen] returns may be called again: the second
    call returns as the first one did and leaves the very same state. *)
Theorem unsubscribe_idempotent (cfg : Config) (h : nat) (w : World) :
  unsubscribe cfg h (world_of (unsubscribe cfg h w)) = unsubscribe cfg h w.
Proof.
  unfold unsubscribe, bind, modify. simpl. f_equal.
  unfold with_emitter, with_closures. simpl.
  by rewrite alter_abort_twice, removeListener_twice.
Qed.

Lemma listeners_removeListener ty h em :
  listeners ty (removeListener ty h em) = filter (fun h' => h' <> h) (listeners ty em).
Proof.
  unfold listeners, removeListener. induction em as [|[t k] em IH]; [done|].
  rewrite !filter_cons. repeat case_decide; simpl in *;
    rewrite ?filter_cons; repeat case_decide; simpl in *;
    rewrite ?filter_cons; repeat case_decide; simpl in *;
    try (exfalso; tauto); try exact IH; try (f_equal; exact IH).
Qed.

Lemma listeners_removeListener_other ty ty' h em :
  ty' <> ty -> listeners ty' (removeListener ty h em) = listeners ty' em.
Proof.
  intros Hne. unfold listeners, removeListener. induction em as [|[t k] em IH]; [done|].
  rewrite !filter_cons. repeat case_decide; simpl in *;
    rewrite ?filter_cons; repeat case_decide; simpl in *;
    try (exfalso; intuition congruence); try exact IH; try (f_equal; exact IH).
Qed.

(** Unsubscribing touches the subscription it belongs to and nothing else:
    the other handlers stay registered, in their order, the other closures
    keep their flag and their callback, and neither the log, the records,
    the promises, the jobs nor the deferred calls change. *)
Theorem unsubscribe_only_its_own (cfg : Config) (h : nat) (w : World) :
  let w' := world_of (unsubscribe cfg h w) in
  listeners (eventType cfg) (emitter w')
  = filter (fun h' => h' <> h) (listeners (eventType cfg) (emitter w)) /\
  (forall ty, ty <> eventType cfg -> listeners ty (emitter w') = listeners ty (emitter w)) /\
  (forall h', h' <> h -> closures w' !! h' = closures w !! h') /\
  length (closures w') = length (closures w) /\
  log w' = log w /\ arrays w' = arrays w /\ dispatchPromises w' = dispatchPromises w /\
  promises w' = promises w /\ jobs w' = jobs w /\ ticks w' = ticks w.
Proof.
  simpl. split; [apply listeners_removeListener|].
  split; [intros ty Hty; by apply listeners_removeListener_other|].
  split; [intros h' Hne; by rewrite list_lookup_alter_ne|].
  split; [by rewrite length_alter|]. done.
Qed.

Lemma removeListener_addListener ty h em :
  Forall (fun r : string * nat => r.2 <> h) em ->
  removeListener ty h (addListener ty h em) = em.
Proof.
  intros H. unfold removeListener, addListener. rewrite list.filter_app.
  rewrite (filter_cons _ (ty, h)). case_decide; [simpl in *; tauto|].
  rewrite filter_nil, app_nil_r.
  induction H as [|r em Hr _ IH]; [done|].
  rewrite filter_cons. case_decide; [by rewrite IH|tauto].
Qed.

(** [listen] logs and calls nothing: it makes a live subscription, which
    the bus serves after the handlers registered before.  Calling the
    function it returned takes the handler out again: the bus is as it was
    before [listen], and what remains is the closure, marked as aborted. *)
Theorem listen_unsubscribe_round_trip (cfg : Config) (cb : Callback) (w : World) :
  handlers_known w ->
  let h := length (closures w) in
  let w1 := world_of (listen cfg cb w) in
  let w2 := world_of (unsubscribe cfg h w1) in
  listen cfg cb w = Ret h w1 /\
  listeners (eventType cfg) (emitter w1) = listeners (eventType cfg) (emitter w) ++ [h] /\
  closures w1 !! h = Some {| aborted := false; callback := cb |} /\
  log w1 = log w /\
  emitter w2 = emitter w /\
  closures w2 = closures w ++ [{| aborted := true; callback := cb |}] /\
  handlers_known w2 /\
  log w2 = log w.
Proof.
  intros Hk h w1 w2. subst w2 w1 h. simpl.
  split; [reflexivity|]. split.
  { unfold listeners, addListener. rewrite list.filter_app, fmap_app.
    rewrite (filter_cons _ (eventType cfg, length (closures w))).
    case_decide; [done|simpl in *; tauto]. }
  split; [rewrite lookup_app_r by lia; by rewrite Nat.sub_diag|].
  split; [reflexivity|].
  assert (removeListener (eventType cfg) (length (closures w))
            (addListener (eventType cfg) (length (closures w)) (emitter w)) = emitter w) as E.
  { apply removeListener_addListener. eapply list.Forall_impl; [exact Hk|].
    intros r Hr. simpl in Hr. lia. }
  split; [exact E|]. split.
  { replace (length (closures w)) with (length (closures w) + 0) at 1 by lia.
    rewrite alter_app_r. reflexivity. }
  split; [|done].
  unfold handlers_known. simpl. rewrite E, length_alter, length_app.
  eapply list.Forall_impl; [exact Hk|]. intros r Hr. simpl in *. lia.
Qed.

Lemma listen_unsubscribe_round_trip_witness :
  emitter (world_of (unsubscribe cfg_plain 1
                       (world_of (listen cfg_plain (CbUser 1) w_subscribed))))
  = emitter w_subscribed.
Proof.
  refine (proj1 (proj2 (proj2 (proj2 (proj2
    (listen_unsubscribe_round_trip cfg_plain (CbUser 1) w_subscribed _)))))).
  constructor; [simpl; lia|constructor].
Defined.

(** ** Deferred publication *)

(** [trigger] only puts the call off: it returns at once, no listener is
    invoked and nothing but the queue of deferred calls changes.  When
    the queue was empty, the next deferred call to run is [triggerSync]
    with the arguments of [trigger], in the state [trigger] was called in. *)
Theorem trigger_defers (cfg : Config) (fuel : nat) (arguments : list Value) (w : World) :
  ticks w = [] ->
  let w1 := world_of (trigger arguments w) in
  trigger arguments w = Ret tt w1 /\
  log w1 = log w /\ arrays w1 = arrays w /\ dispatchPromises w1 = dispatchPromises w /\
  closures w1 = closures w /\ emitter w1 = emitter w /\
  promises w1 = promises w /\ jobs w1 = jobs w /\
  run_tick cfg fuel w1 = triggerSync cfg (exec cfg fuel) arguments w.
Proof.
  intros Ht w1. subst w1. simpl. repeat split.
  unfold run_tick. simpl. rewrite Ht. simpl. f_equal.
  destruct w. simpl in Ht. subst. reflexivity.
Qed.

Lemma trigger_defers_witness :
  run_tick cfg_plain 1 (world_of (trigger [VNum 1] w_subscribed))
  = triggerSync cfg_plain (exec cfg_plain 1) [VNum 1] w_subscribed.
Proof.
  exact (proj2 (proj2 (proj2 (proj2 (proj2 (proj2 (proj2 (proj2
    (trigger_defers cfg_plain 1 [VNum 1] w_subscribed eq_refl))))))))).
Defined.

(** ** The fan-out to passive listeners *)

Lemma exec_nil cfg fuel w : exec cfg (S fuel) [] w = Ret tt w.
Proof. reflexivity. Qed.

Lemma eventHandler_passive cfg fuel h args w :
  passive cfg ->
  Forall (fun c => plain_closure c = true) (closures w) ->
  dispatchPromises w < length (arrays w) ->
  eventHandler cfg (exec cfg (S fuel)) h args w
  = Ret tt
      (with_log (log w ++ (delivery cfg (closures w) args h).1)
         (with_arrays
            (alter (fun a => a ++ (delivery cfg (closures w) args h).2)
               (dispatchPromises w) (arrays w)) w)).
Proof.
  intros Hp Hcl Hd.
  assert (forall w0 : World, with_log (log w0 ++ [])
            (with_arrays (alter (fun a => a ++ []) (dispatchPromises w0) (arrays w0)) w0)
          = w0) as Hid.
  { intros w0. rewrite app_nil_r, list_alter_id by (intros; apply app_nil_r).
    by destruct w0. }
  unfold eventHandler, delivery. unfold bind at 1. unfold gets at 1.
  destruct (closures w !! h) as [c|] eqn:Hc; [|simpl; by rewrite Hid].
  destruct (aborted c) eqn:Ha; [simpl; by rewrite Hid|].
  assert (plain_closure c = true) as Hpc.
  { exact (Forall_lookup_1 _ _ _ _ Hcl Hc). }
  unfold plain_closure in Hpc. rewrite Ha in Hpc. simpl in Hpc.
  destruct (callback c) as [f|] eqn:Hcb; [|discriminate].
  unfold bind at 1. unfold emit_event at 1. unfold modify. cbv beta iota.
  unfold bind at 1. unfold apply_callback, call_user.
  unfold bind at 1. unfold emit_event at 1. unfold modify. cbv beta iota.
  unfold bind at 1. rewrite Hp, exec_nil. unfold ret at 1. cbv beta iota.
  cbn [fn_value].
  destruct (isPromise (result (body cfg f VPublisher (apply_list args)))) eqn:Hr.
  - unfold bind at 1. unfold emit_event at 1. unfold modify. cbv beta iota.
    destruct (canHandlePromise cfg); simpl.
    + unfold push_record, modify. simpl. f_equal.
      unfold_world. rewrite <- !app_assoc. reflexivity.
    + unfold emit_event, modify. f_equal. unfold_world.
      rewrite <- !app_assoc. rewrite list_alter_id by (intros; apply app_nil_r).
      reflexivity.
  - unfold ret. f_equal. unfold_world.
    rewrite <- !app_assoc. rewrite list_alter_id by (intros; apply app_nil_r).
    reflexivity.
Qed.

Lemma for_each_passive cfg fuel args hs : forall w,
  passive cfg ->
  Forall (fun c => plain_closure c = true) (closures w) ->
  dispatchPromises w < length (arrays w) ->
  for_each (fun h => eventHandler cfg (exec cfg (S fuel)) h args) hs w
  = Ret tt
      (with_log (log w ++ fanout_log cfg (closures w) args hs)
         (with_arrays
            (alter (fun a => a ++ fanout_records cfg (closures w) args hs)
               (dispatchPromises w) (arrays w)) w)).
Proof.
  induction hs as [|h hs IH]; intros w Hp Hcl Hd.
  - simpl. unfold ret. f_equal.
    rewrite app_nil_r, list_alter_id by (intros; apply app_nil_r). by destruct w.
  - cbn [for_each]. unfold bind at 1.
    rewrite eventHandler_passive by assumption.
    rewrite IH by (first [assumption | simpl; by rewrite length_alter]).
    f_equal. unfold fanout_log, fanout_records. unfold_world.
    rewrite <- !app_assoc. rewrite list_alter_alter_eq. f_equal.
    apply list_alter_ext; [|done]. intros a _. simpl. by rewrite <- app_assoc.
Qed.

(** The fan-out of a cycle to passive listeners, in the order of the bus. *)
Lemma fanout_passive cfg fuel args w :
  passive cfg ->
  Forall (fun c => plain_closure c = true) (closures w) ->
  (clear_records ;; emit cfg (exec cfg (S fuel)) (eventType cfg) args) w
  = Ret tt (after_fanout cfg args w).
Proof.
  intros Hp Hcl. unfold bind at 1. unfold clear_records at 1. unfold modify.
  cbv beta iota. unfold emit. unfold bind at 1. unfold gets at 1. cbv beta iota.
  rewrite for_each_passive; [|assumption|exact Hcl|simpl; rewrite length_app; simpl; lia].
  f_equal. unfold after_fanout. unfold_world.
  rewrite alter_app_r_alt by lia. by rewrite Nat.sub_diag.
Qed.

Lemma map_then_returns (items : list DispatchRecord) : forall w,
  Forall holds_promise items ->
  exists ms w',
    map_m (fun item => promise_then (promise item) (Some (HMapItem (listener item))) None)
      items w = Ret ms w'.
Proof.
  induction items as [|item items IH]; intros w H; [by eexists _, _|].
  apply list.Forall_cons in H as [Hi H]. unfold holds_promise in Hi.
  destruct (promise item) as [| | | | | | | | | |p|] eqn:E; try discriminate.
  cbn [map_m]. unfold bind at 1.
  destruct (promise_then (promise item) (Some (HMapItem (listener item))) None w)
    as [y w1|e w1|w1] eqn:Hpt.
  - unfold bind at 1. destruct (IH w1 H) as (ms & w' & ->). by eexists _, _.
  - rewrite E in Hpt. simpl in Hpt. destruct (perform_then p _ None w). discriminate.
  - rewrite E in Hpt. simpl in Hpt. destruct (perform_then p _ None w). discriminate.
Qed.

(** [_handleDispatchPromises] returns normally when every record it finds
    holds a promise. *)
Lemma handleDispatchPromises_returns w :
  Forall holds_promise (current_records w) ->
  exists r w', _handleDispatchPromises w = Ret r w'.
Proof.
  intros H. rewrite handleDispatchPromises_unfold. cbv zeta.
  destruct (current_records w) as [|item [|item2 items]] eqn:E.
  - by eexists _, _.
  - apply list.Forall_cons in H as [Hi _]. unfold holds_promise in Hi.
    destruct (promise item) as [| | | | | | | | | |p|]; try discriminate.
    apply resolve_promise_returns.
  - unfold bind at 1.
    destruct (map_then_returns (item :: item2 :: items) (world_of (clear_records w)) H)
      as (ms & w1 & ->).
    unfold bind at 1. unfold promise_all at 1.
    match goal with |- context [resolve (VPromise ?p) ?w] =>
      apply (resolve_promise_returns p w) end.
Qed.

Lemma delivery_holds_promise cfg cl args h :
  Forall holds_promise (delivery cfg cl args h).2.
Proof.
  unfold delivery. destruct (cl !! h) as [c|]; [|constructor].
  destruct (aborted c); [constructor|]. destruct (callback c); [|constructor].
  destruct (isPromise _) eqn:E; [|constructor].
  destruct (canHandlePromise cfg); constructor; [exact E|constructor].
Qed.

Lemma fanout_records_hold_promises cfg cl args hs :
  Forall holds_promise (fanout_records cfg cl args hs).
Proof.
  unfold fanout_records. induction hs as [|h hs IH]; [constructor|].
  simpl. apply Forall_app. split; [apply delivery_holds_promise|exact IH].
Qed.

Lemma current_records_after_fanout cfg args w :
  current_records (after_fanout cfg args w)
  = fanout_records cfg (closures w) args (listeners (eventType cfg) (emitter w)).
Proof.
  unfold current_records, array_at, after_fanout. simpl.
  rewrite lookup_app_r by lia. by rewrite Nat.sub_diag.
Qed.

(** A cycle that emits to listeners which are functions given to [listen]
    and call nothing of the publisher: the handlers are served in the
    order of the bus; each live one applies its callback once, to the
    arguments of the cycle and with the publisher as [this]; the promises
    returned are tracked in that order, each with its callback, in a new
    array; and that is the state in which the resolution starts.  The
    cycle returns normally, and when no promise was tracked it only
    replaces the array once more. *)
Theorem fanout_of_passive_listeners (cfg : Config) (fuel : nat) (arguments : list Value)
    (w : World) :
  passive cfg ->
  Forall (fun c => plain_closure c = true) (closures w) ->
  let args := cycle_args cfg arguments in
  truthy (shouldEmit cfg (apply_list args)) = true ->
  let w1 := after_fanout cfg args w in
  current_records w1
  = fanout_records cfg (closures w) args (listeners (eventType cfg) (emitter w)) /\
  triggerSync cfg (exec cfg (S fuel)) arguments w
  = (_handleDispatchPromises ;; ret tt) w1 /\
  (exists w', triggerSync cfg (exec cfg (S fuel)) arguments w = Ret tt w') /\
  (current_records w1 = [] ->
   triggerSync cfg (exec cfg (S fuel)) arguments w = Ret tt (world_of (clear_records w1))).
Proof.
  intros Hp Hcl args Ht w1.
  assert (triggerSync cfg (exec cfg (S fuel)) arguments w
          = (_handleDispatchPromises ;; ret tt) w1) as E.
  { rewrite triggerSync_cycle. fold args. unfold cycle. rewrite Ht.
    pose proof (fanout_passive cfg fuel args w Hp Hcl) as H.
    unfold bind at 1 in H. unfold bind at 1.
    destruct (clear_records w) as [[] w0|e w0|w0]; try discriminate.
    unfold bind at 1. rewrite H. reflexivity. }
  split; [apply current_records_after_fanout|]. split; [exact E|]. split.
  - rewrite E. unfold bind.
    destruct (handleDispatchPromises_returns w1) as (r & w' & ->); [|eauto].
    subst w1. rewrite current_records_after_fanout. apply fanout_records_hold_promises.
  - intros H0. rewrite E. unfold bind at 1.
    rewrite handleDispatchPromises_unfold. cbv zeta. rewrite H0. reflexivity.
Qed.

Lemma fanout_of_passive_listeners_witness :
  current_records (after_fanout (cfg_promises true) (VArguments []) w_promising)
  = [{| promise := VPromise 0; listener := VFun 0 |}].
Proof.
  refine (proj1 (fanout_of_passive_listeners (cfg_promises true) 0 [] w_promising _ _ _)).
  - intros f this args. reflexivity.
  - constructor; [reflexivity|constructor].
  - reflexivity.
Defined.

(** A cycle on a publisher that has no listener for its event, as a new
    one: [triggerSync] returns normally, calls nothing, triggers no child,
    makes no promise and queues no job; the record list is empty. *)
Theorem triggerSync_no_listeners (cfg : Config) (exec : list Cmd -> M unit)
    (arguments : list Value) (w : World) :
  listeners (eventType cfg) (emitter w) = [] ->
  exists w',
    triggerSync cfg exec arguments w = Ret tt w' /\
    log w' = log w /\ promises w' = promises w /\ jobs w' = jobs w /\
    closures w' = closures w /\ emitter w' = emitter w /\ ticks w' = ticks w /\
    (truthy (shouldEmit cfg (apply_list (cycle_args cfg arguments))) = true ->
     current_records w' = []).
Proof.
  intros Hl. rewrite triggerSync_cycle. unfold cycle.
  destruct (truthy _) eqn:Ht; [|eexists; split; [reflexivity|]; repeat split; done].
  pose proof (current_records_cleared w) as Hc.
  unfold bind at 1. change (clear_records w) with (Ret tt (world_of (clear_records w))).
  set (w0 := world_of (clear_records w)) in *. cbv beta iota.
  unfold bind at 1. unfold emit. unfold bind at 1. unfold gets at 1. cbv beta iota.
  change (emitter w0) with (emitter w). rewrite Hl. cbn [for_each].
  unfold ret at 1. cbv beta iota. unfold bind at 1.
  rewrite handleDispatchPromises_unfold. cbv zeta. rewrite Hc.
  eexists. split; [reflexivity|]. repeat split.
  intros _. apply current_records_cleared.
Qed.

Lemma triggerSync_no_listeners_witness :
  exists w',
    triggerSync cfg_plain (exec cfg_plain 1) [VNum 1] constructor = Ret tt w' /\
    log w' = [] /\ promises w' = [] /\ jobs w' = [] /\
    closures w' = [] /\ emitter w' = [] /\ ticks w' = [] /\
    (truthy (shouldEmit cfg_plain (apply_list (cycle_args cfg_plain [VNum 1]))) = true ->
     current_records w' = []).
Proof.
  exact (triggerSync_no_listeners cfg_plain (exec cfg_plain 1) [VNum 1] constructor eq_refl).
Defined.

(** ** A cycle from the fan-out to the children *)

Lemma triggerSync_passive cfg fuel arguments w :
  passive cfg ->
  Forall (fun c => plain_closure c = true) (closures w) ->
  truthy (shouldEmit cfg (apply_list (cycle_args cfg arguments))) = true ->
  triggerSync cfg (exec cfg (S fuel)) arguments w
  = (_handleDispatchPromises ;; ret tt) (after_fanout cfg (cycle_args cfg arguments) w).
Proof.
  intros Hp Hcl Ht. rewrite triggerSync_cycle. unfold cycle. rewrite Ht.
  pose proof (fanout_passive cfg fuel (cycle_args cfg arguments) w Hp Hcl) as H.
  unfold bind at 1 in H. unfold bind at 1.
  destruct (clear_records w) as [[] w0|e w0|w0]; try discriminate.
  unfold bind at 1. rewrite H. reflexivity.
Qed.

(** A cycle of passive listeners in which exactly one record was tracked
    (the publisher can handle promises, and exactly one listener returned
    a promise), from the call of [triggerSync] to the end of the turn, when
    no job waits at the start: every listener has run before a child is
    triggered; when the promise is settled already, the turn ends with the
    one trigger of "completed" or "failed" carrying its bare value or
    error; when it is pending and nothing else waits on it, nothing is
    triggered until it is settled, and then that one trigger follows. *)
Theorem passive_cycle_one_promise (cfg : Config) (fuel : nat) (arguments : list Value)
    (w : World) (item : DispatchRecord) (p : nat) (c : PromiseCell) (o : Outcome) :
  passive cfg ->
  Forall (fun c => plain_closure c = true) (closures w) ->
  let args := cycle_args cfg arguments in
  let hs := listeners (eventType cfg) (emitter w) in
  truthy (shouldEmit cfg (apply_list args)) = true ->
  fanout_records cfg (closures w) args hs = [item] ->
  promise item = VPromise p ->
  promises w !! p = Some c ->
  jobs w = [] ->
  let w' := run_task cfg (S fuel) (TCmd (CTriggerSync arguments)) w in
  (cell_state c = Settled o ->
     log w' = log w ++ fanout_log cfg (closures w) args hs ++ [trigger_of o]) /\
  (cell_state c = Pending [] ->
     log w' = log w ++ fanout_log cfg (closures w) args hs /\
     log (drain (settle p o w'))
     = log w ++ fanout_log cfg (closures w) args hs ++ [trigger_of o]).
Proof.
  intros Hp Hcl args hs Ht Hrec Hitem Hc Hj w'.
  subst w'. unfold run_task. cbn [run_cmd].
  rewrite (triggerSync_passive cfg fuel arguments w Hp Hcl Ht). fold args.
  set (w1 := after_fanout cfg args w).
  assert (current_records w1 = [item]) as Hcur
    by (subst w1; rewrite current_records_after_fanout; exact Hrec).
  set (w0 := world_of (clear_records w1)).
  assert (world_of ((_handleDispatchPromises ;; ret tt) w1)
          = world_of (resolve (VPromise p) w0)) as ->.
  { unfold bind. rewrite handleDispatchPromises_unfold. cbv zeta. rewrite Hcur, Hitem.
    fold w0. by destruct (resolve (VPromise p) w0). }
  assert (promises w0 !! p = Some c) as Hc0 by exact Hc.
  assert (jobs w0 = []) as Hj0 by exact Hj.
  assert (log w0 = log w ++ fanout_log cfg (closures w) args hs) as Hl0 by reflexivity.
  split; intros Hs.
  - destruct (resolve_settled w0 p c o Hc0 Hs Hj0) as [_ ->]. simpl.
    rewrite <- app_assoc. reflexivity.
  - destruct (resolve_pending w0 p c o Hc0 Hs Hj0) as (-> & Hd & Hd2).
    cbn [world_of]. rewrite Hd. split; [exact Hl0|]. rewrite Hd2. simpl.
    rewrite <- app_assoc. reflexivity.
Qed.

Lemma passive_cycle_one_promise_witness :
  log (run_task (cfg_promises true) 1 (TCmd (CTriggerSync [])) w_promising)
  = [EInvoke 0 []; ECall 0 0 VPublisher []; ECanHandlePromise; ETrigger Completed (VNum 5)].
Proof.
  refine (proj1 (passive_cycle_one_promise (cfg_promises true) 0 [] w_promising
            {| promise := VPromise 0; listener := VFun 0 |} 0
            (fulfilled_cell (VNum 5) false) (Fulfilled (VNum 5))
            _ _ eq_refl eq_refl eq_refl eq_refl eq_refl) eq_refl).
  - intros f this args. reflexivity.
  - constructor; [reflexivity|constructor].
Defined.

(** A cycle of passive listeners in which two or more records were tracked
    (the publisher can handle promises, and two or more listeners returned
    a promise), from the call of [triggerSync] on.  No job waits when the
    cycle starts and nothing else waits on the promises; a promise may be
    settled already, and two listeners may have returned the same promise.
    With [seen] the settlements of the records' promises in the order in
    which they occur (those found settled first, in the order of the
    records), after the listeners' deliveries:
    - the log grows by what the aggregate of the mapped promises decides;
    - while a record's promise is unsettled and none has failed, no child
      is triggered;
    - once all are fulfilled, "completed" is triggered once with the
      [{listener, value}] entries in the order in which the bus served the
      listeners;
    - the first failure triggers "failed" once with its error. *)
Theorem passive_cycle_many_promises (cfg : Config) (fuel : nat) (arguments : list Value)
    (w : World) (items : list DispatchRecord) (ps : list nat) :
  passive cfg ->
  Forall (fun c => plain_closure c = true) (closures w) ->
  let args := cycle_args cfg arguments in
  let hs := listeners (eventType cfg) (emitter w) in
  truthy (shouldEmit cfg (apply_list args)) = true ->
  fanout_records cfg (closures w) args hs = items ->
  2 <= length items ->
  map promise items = map VPromise ps ->
  (forall p, p ∈ ps -> exists c, promises w !! p = Some c /\ unobserved c) ->
  jobs w = [] ->
  let w' := run_task cfg (S fuel) (TCmd (CTriggerSync arguments)) w in
  let delivered := log w ++ fanout_log cfg (closures w) args hs in
  forall sched,
    let seen := settlements w ps sched in
    let w2 := settle_records ps sched w' in
    log w2 = delivered ++ verdict_events (aggregate_run items seen).2 /\
    ((forall x, x ∈ seen -> fulfilled x.2) ->
     (exists j, j < length items /\ j ∉ seen.*1) ->
     log w2 = delivered) /\
    (forall vs,
       length vs = length items ->
       (forall i, i < length items -> i ∈ seen.*1) ->
       (forall x, x ∈ seen -> x.2 = Fulfilled (default VUndefined (vs !! x.1))) ->
       log w2 = delivered ++ [ETrigger Completed (VArray (zip_with entry items vs))]) /\
    (forall pre j e rest,
       seen = pre ++ (j, Rejected e) :: rest ->
       (forall x, x ∈ pre -> fulfilled x.2) ->
       j < length items -> j ∉ pre.*1 ->
       log w2 = delivered ++ [ETrigger Failed e]).
Proof.
  intros Hp Hcl args hs Ht Hrec Hn Hmap Hpend Hj w' delivered sched seen w2.
  subst w2 w'. unfold run_task. cbn [run_cmd].
  rewrite (triggerSync_passive cfg fuel arguments w Hp Hcl Ht). fold args.
  set (w1 := after_fanout cfg args w).
  assert (current_records w1 = items) as Hcur
    by (subst w1; rewrite current_records_after_fanout; exact Hrec).
  destruct (batch_setup w1 items ps Hcur Hn Hmap Hpend Hj) as (w2 & E & Hinv).
  assert (world_of ((_handleDispatchPromises ;; ret tt) w1) = w2) as ->
    by (unfold bind; by rewrite E).
  assert (length ps = length items) as Hpslen.
  { rewrite <- (length_map promise items), Hmap, length_map. done. }
  assert (forall i p, ps !! i = Some p -> p < length (promises w1)) as Hlt.
  { intros i p Hi. destruct (Hpend p) as (c & Hc & _); [by eapply list_elem_of_lookup_2|].
    by eapply lookup_lt_Some. }
  assert (log (settle_records ps sched (drain w2))
          = delivered ++ verdict_events (aggregate_run items seen).2) as Hlog
    by (apply (batch_outcomes items ps _ _ _ w1 w2 sched Hpslen Hlt Hinv)).
  split; [exact Hlog|].
  exact (aggregate_cases items seen delivered _ ltac:(lia) Hlog).
Qed.

Lemma passive_cycle_many_promises_witness :
  log (settle_records [0; 1] [(1, Fulfilled (VNum 20))]
         (run_task (cfg_promises true) 1 (TCmd (CTriggerSync []))
            (run_tasks (cfg_promises true) 1 [TCmd (CListen 0); TCmd (CListen 1)]
               w_resolved)))
  = [EInvoke 0 []; ECall 0 0 VPublisher []; ECanHandlePromise;
     EInvoke 1 []; ECall 1 1 VPublisher []; ECanHandlePromise;
     ETrigger Completed
       (VArray [VObject [("listener", VFun 0); ("value", VNum 5)];
                VObject [("listener", VFun 1); ("value", VNum 20)]])].
Proof.
  assert (forall p, p ∈ [0; 1] ->
            exists c, promises (run_tasks (cfg_promises true) 1
                                  [TCmd (CListen 0); TCmd (CListen 1)] w_resolved) !! p
                      = Some c /\ unobserved c) as Hp.
  { intros p Hin. apply elem_of_cons in Hin as [->|Hin].
    - by exists (fulfilled_cell (VNum 5) false).
    - exists pending_cell. apply list_elem_of_singleton in Hin as ->. done. }
  assert (passive (cfg_promises true)) as Hpas by (intros f this args; reflexivity).
  assert (Forall (fun c => plain_closure c = true)
            (closures (run_tasks (cfg_promises true) 1
                         [TCmd (CListen 0); TCmd (CListen 1)] w_resolved))) as Hcl
    by (constructor; [reflexivity|constructor; [reflexivity|constructor]]).
  destruct (passive_cycle_many_promises (cfg_promises true) 0 []
              (run_tasks (cfg_promises true) 1 [TCmd (CListen 0); TCmd (CListen 1)] w_resolved)
              [{| promise := VPromise 0; listener := VFun 0 |};
               {| promise := VPromise 1; listener := VFun 1 |}] [0; 1]
              Hpas Hcl eq_refl eq_refl (le_n 2) eq_refl Hp eq_refl
              [(1, Fulfilled (VNum 20))]) as (_ & _ & H & _).
  refine (H [VNum 5; VNum 20] eq_refl _ _).
  - intros i Hi.
    change (i ∈ [0; 1]). destruct i as [|[|i]]; [repeat constructor..|simpl in Hi; lia].
  - intros x Hx.
    change (x ∈ [(0, Fulfilled (VNum 5)); (1, Fulfilled (VNum 20))]) in Hx.
    apply elem_of_cons in Hx as [->|Hx]; [done|].
    apply list_elem_of_singleton in Hx as ->. done.
Defined.

(** ** The first delivery to a subscription made by [listenOnce] *)

Lemma listenOnce_at_most_once_witness :
  calls 0 (log (run_tasks cfg_plain 1
                  [TCmd (CTriggerSync [VNum 1]); TCmd (CTriggerSync [VNum 2])]
                  (world_of (listenOnce cfg_plain 0 None constructor)))) <= 1.
Proof.
  exact (listenOnce_at_most_once cfg_plain 1 0 None constructor
           [TCmd (CTriggerSync [VNum 1]); TCmd (CTriggerSync [VNum 2])] eq_refl).
Defined.

(** The first event that reaches a subscription made by [listenOnce], the
    callback calling nothing of the publisher: the subscription is
    cancelled and taken off the bus, the callback is applied once, to the
    arguments of [listenOnce], and a promise that it returns is tracked
    all the same, with the arrow function of [listenOnce] as its listener
    (or discarded with a warning when promises cannot be handled). *)
Theorem listenOnce_first_delivery (cfg : Config) (fuel : nat) (f : nat)
    (ctx : option Value) (args : Value) (w : World) :
  let h := length (closures w) in
  let this := js_or (default VUndefined ctx) VPublisher in
  let own := VFun f :: option_list ctx in
  let r := result (body cfg f this own) in
  let w1 := world_of (listenOnce cfg f ctx w) in
  actions (body cfg f this own) = [] ->
  dispatchPromises w < length (arrays w) ->
  exists w2,
    eventHandler cfg (exec cfg (S fuel)) h args w1 = Ret tt w2 /\
    is_aborted h w2 /\
    (h ∉ listeners (eventType cfg) (emitter w2)) /\
    current_records w2
    = current_records w ++
      (if isPromise r && canHandlePromise cfg
       then [{| promise := r; listener := VWrapper h |}] else []) /\
    log w2
    = log w ++ [EInvoke h (apply_list args); ECall h f this own] ++
      (if isPromise r
       then ECanHandlePromise ::
            (if canHandlePromise cfg then []
             else [EWarn ("Unhandled promise for " +:+ eventType cfg)])
       else []).
Proof.
  intros h this own r w1 Hact Hd.
  assert (closures w1 !! h =
          Some {| aborted := false; callback := CbOnce f this own h |}) as Hc.
  { subst w1 h. simpl. rewrite lookup_app_r by lia. by rewrite Nat.sub_diag. }
  destruct (lookup_lt_is_Some_2 (arrays w) (dispatchPromises w) Hd) as [a Ha].
  assert (current_records w = a) as Hcur
    by (unfold current_records, array_at; by rewrite Ha).
  unfold eventHandler. unfold bind at 1. unfold gets at 1. rewrite Hc.
  cbn [aborted callback]. unfold bind at 1. unfold emit_event at 1. unfold modify.
  cbv beta iota. unfold bind at 1. unfold apply_callback. unfold bind at 1.
  unfold unsubscribe at 1. unfold bind at 1. unfold modify. cbv beta iota.
  unfold call_user. unfold bind at 1. unfold emit_event at 1. unfold modify.
  cbv beta iota. unfold bind at 1. rewrite Hact, exec_nil. unfold ret at 1.
  cbv beta iota. fold r. cbn [fn_value].
  match goal with |- context [add_log (ECall _ _ _ _) ?w0] => set (w3 := w0) end.
  assert (is_aborted h w3) as Hab.
  { eexists. subst w3. simpl. rewrite list_lookup_alter_eq.
    change (closures w ++ _) with (closures w1). rewrite Hc. simpl. eauto. }
  assert (h ∉ listeners (eventType cfg) (emitter w3)) as Hnot.
  { subst w3. simpl. rewrite listeners_removeListener.
    intros Hin. apply list_elem_of_filter in Hin as [Hne _]. by apply Hne. }
  assert (arrays w3 = arrays w) as Harr by reflexivity.
  assert (dispatchPromises w3 = dispatchPromises w) as Hdp by reflexivity.
  assert (log w3 = log w ++ [EInvoke h (apply_list args)]) as Hlog by reflexivity.
  clearbody w3.
  destruct (isPromise r) eqn:Hr.
  - unfold bind at 1. unfold emit_event at 1. unfold modify. cbv beta iota.
    destruct (canHandlePromise cfg) eqn:Hcan; simpl.
    + eexists. split; [reflexivity|]. repeat split; try assumption.
      * rewrite Hcur. unfold current_records, array_at. simpl. rewrite Harr, Hdp.
        by rewrite list_lookup_alter_eq, Ha.
      * simpl. rewrite Hlog, <- !app_assoc. reflexivity.
    + eexists. split; [reflexivity|]. repeat split; try assumption.
      * rewrite Hcur, app_nil_r. unfold current_records, array_at. simpl.
        by rewrite Harr, Hdp, Ha.
      * simpl. rewrite Hlog, <- !app_assoc. reflexivity.
  - eexists. split; [reflexivity|]. repeat split; try assumption.
    + rewrite Hcur, app_nil_r. unfold current_records, array_at. simpl.
      by rewrite Harr, Hdp, Ha.
    + simpl. rewrite Hlog, <- !app_assoc. reflexivity.
Qed.

Lemma listenOnce_first_delivery_witness :
  exists w2,
    eventHandler (cfg_promises true) (exec (cfg_promises true) 1) 0 (VArguments [VNum 7])
      (world_of (listenOnce (cfg_promises true) 0 None w_resolved)) = Ret tt w2 /\
    is_aborted 0 w2 /\
    (0 ∉ listeners "event" (emitter w2)) /\
    current_records w2 = [{| promise := VPromise 0; listener := VWrapper 0 |}] /\
    log w2 = [EInvoke 0 [VNum 7]; ECall 0 0 VPublisher [VFun 0]; ECanHandlePromise].
Proof.
  refine (listenOnce_first_delivery (cfg_promises true) 0 0 None (VArguments [VNum 7])
            w_resolved eq_refl _).
  simpl. lia.
Defined.

(** ** What every run keeps *)

Section Keeps.

Context (I : World -> Prop) (R : relation World) `{!PreOrder R}.

Lemma keeps_ret {A} (a : A) : keeps I R (ret a).
Proof. intros w H. simpl. repeat split; [done..|discriminate]. Qed.

Lemma keeps_gets {A} (f : World -> A) : keeps I R (gets f).
Proof. intros w H. simpl. repeat split; [done..|discriminate]. Qed.

Lemma keeps_bind {A B} (m : M A) (k : A -> M B) :
  keeps I R m -> (forall a, keeps I R (k a)) -> keeps I R (bind m k).
Proof.
  intros Hm Hk w H. unfold bind. destruct (Hm w H) as (H1 & H2 & H3).
  destruct (m w) as [a w1|e w1|w1]; simpl in *.
  - destruct (Hk a w1 H1) as (H4 & H5 & H6). repeat split; [done| |done].
    etrans; eassumption.
  - exfalso. by eapply H3.
  - repeat split; [done..|discriminate].
Qed.

Lemma keeps_for_each {A} (f : A -> M unit) (xs : list A) :
  (forall x, keeps I R (f x)) -> keeps I R (for_each f xs).
Proof.
  intros Hf. induction xs as [|x xs IH]; simpl.
  - apply keeps_ret.
  - apply keeps_bind; [apply Hf|]. intros _. exact IH.
Qed.

End Keeps.

(** What the steps of the publisher keep, every run keeps.  A record is
    pushed only when promises can be handled, and only with a promise. *)
Section Guarded.

Variable cfg : Config.
Context (I : World -> Prop) (R : relation World) `{!PreOrder R}.

Hypothesis K_event : forall e, ~ is_trigger e -> keeps I R (emit_event e).
Hypothesis K_unsubscribe : forall h, keeps I R (unsubscribe cfg h).
Hypothesis K_clear : keeps I R clear_records.
Hypothesis K_listen : forall cb, keeps I R (listen cfg cb).
Hypothesis K_trigger : forall args, keeps I R (trigger args).
Hypothesis K_push : forall r,
  canHandlePromise cfg = true -> holds_promise r -> keeps I R (push_record r).
Hypothesis K_handle : keeps I R _handleDispatchPromises.

Section Calls.

Variable exec : list Cmd -> M unit.
Hypothesis K_exec : forall cs, keeps I R (exec cs).

Lemma keeps_call_user h f this args : keeps I R (call_user cfg exec h f this args).
Proof.
  unfold call_user. apply keeps_bind; [done|apply K_event; exact id|]. intros _.
  apply keeps_bind; [done|apply K_exec|]. intros _. by apply keeps_ret.
Qed.

Lemma keeps_apply_callback h cb this args :
  keeps I R (apply_callback cfg exec h cb this args).
Proof.
  destruct cb; simpl; [apply keeps_call_user|].
  apply keeps_bind; [done|apply K_unsubscribe|]. intros _. apply keeps_call_user.
Qed.

Lemma keeps_eventHandler h args : keeps I R (eventHandler cfg exec h args).
Proof.
  unfold eventHandler. apply keeps_bind; [done|by apply keeps_gets|].
  intros [c|]; [|by apply keeps_ret].
  destruct (aborted c); [by apply keeps_ret|].
  apply keeps_bind; [done|apply K_event; exact id|]. intros _.
  apply keeps_bind; [done|apply keeps_apply_callback|]. intros result.
  destruct (isPromise result) eqn:Hr; [|by apply keeps_ret].
  apply keeps_bind; [done|apply K_event; exact id|]. intros _.
  destruct (canHandlePromise cfg) eqn:Hc; simpl.
  - by apply K_push.
  - apply K_event. exact id.
Qed.

Lemma keeps_emit ty args : keeps I R (emit cfg exec ty args).
Proof.
  unfold emit. apply keeps_bind; [done|by apply keeps_gets|]. intros hs.
  apply keeps_for_each; [done|]. intros h. apply keeps_eventHandler.
Qed.

Lemma keeps_triggerSync args : keeps I R (triggerSync cfg exec args).
Proof.
  rewrite triggerSync_cycle. unfold cycle. destruct (truthy _); [|by apply keeps_ret].
  apply keeps_bind; [done|apply K_clear|]. intros _.
  apply keeps_bind; [done|apply keeps_emit|]. intros _.
  apply keeps_bind; [done|apply K_handle|]. intros _. by apply keeps_ret.
Qed.

Lemma keeps_run_cmd c : keeps I R (run_cmd cfg exec c).
Proof.
  destruct c; simpl.
  - apply K_unsubscribe.
  - apply keeps_triggerSync.
  - apply K_trigger.
  - apply keeps_bind; [done|apply K_listen|]. intros _. by apply keeps_ret.
  - apply keeps_bind; [done| |intros _; by apply keeps_ret].
    unfold listenOnce. apply keeps_bind; [done|by apply keeps_gets|].
    intros u. apply K_listen.
Qed.

End Calls.

Lemma keeps_exec fuel : forall cs, keeps I R (exec cfg fuel cs).
Proof.
  induction fuel as [|n IH]; intros cs; simpl.
  - intros w H. simpl. repeat split; [done..|discriminate].
  - apply keeps_for_each; [done|]. apply keeps_run_cmd. exact IH.
Qed.

Lemma keeps_command fuel c w :
  I w ->
  I (world_of (run_cmd cfg (exec cfg fuel) c w)) /\
  R w (world_of (run_cmd cfg (exec cfg fuel) c w)) /\
  forall e w', run_cmd cfg (exec cfg fuel) c w <> Exn e w'.
Proof. apply keeps_run_cmd, keeps_exec. Qed.

End Guarded.

#[local] Instance any_world_preorder : PreOrder any_world.
Proof. split; done. Qed.

#[local] Instance unresolved_preorder : PreOrder unresolved.
Proof.
  split.
  - intros w. repeat split. exists []. rewrite app_nil_r. split; [done|].
    intros c v H. by apply elem_of_nil in H.
  - intros w1 w2 w3 (P1 & J1 & A1 & e1 & E1 & N1) (P2 & J2 & A2 & e2 & E2 & N2).
    repeat split; [congruence..|]. exists (e1 ++ e2).
    rewrite E2, E1, app_assoc. split; [done|].
    intros c v H. apply elem_of_app in H as [H|H]; [by eapply N1|by eapply N2].
Qed.

Lemma tracks_promises_same w w' :
  arrays w' = arrays w -> tracks_promises w -> tracks_promises w'.
Proof. unfold tracks_promises. by intros ->. Qed.

Lemma tracks_promises_current w :
  tracks_promises w -> Forall holds_promise (current_records w).
Proof.
  intros H. unfold current_records, array_at.
  destruct (arrays w !! dispatchPromises w) as [a|] eqn:E; [|constructor].
  exact (Forall_lookup_1 _ _ _ _ H E).
Qed.

Lemma tracks_promises_step w w' :
  promise_step w w' -> tracks_promises w -> tracks_promises w'.
Proof. intros [_ Ha _ _ _ _]. by apply tracks_promises_same. Qed.

Lemma tracks_promises_command cfg fuel c w :
  tracks_promises w ->
  tracks_promises (world_of (run_cmd cfg (exec cfg fuel) c w)) /\
  forall e w', run_cmd cfg (exec cfg fuel) c w <> Exn e w'.
Proof.
  intros H0.
  assert (tracks_promises (world_of (run_cmd cfg (exec cfg fuel) c w)) /\
          any_world w (world_of (run_cmd cfg (exec cfg fuel) c w)) /\
          forall e w', run_cmd cfg (exec cfg fuel) c w <> Exn e w') as (H1 & _ & H2);
    [|done].
  apply (keeps_command cfg tracks_promises any_world); [| | | | | | |exact H0].
  - intros e _ w0 H. simpl. repeat split; [done|discriminate].
  - intros h w0 H. simpl. repeat split; [done|discriminate].
  - intros w0 H. simpl. repeat split; [|discriminate].
    unfold tracks_promises. simpl. apply Forall_app. split; [done|by repeat constructor].
  - intros cb w0 H. simpl. repeat split; [done|discriminate].
  - intros args w0 H. simpl. repeat split; [done|discriminate].
  - intros r _ Hr w0 H. simpl. repeat split; [|discriminate].
    unfold tracks_promises. simpl. apply Forall_alter; [done|].
    intros a _ Ha. apply Forall_app. split; [done|by repeat constructor].
  - intros w0 H. repeat split.
    + eapply tracks_promises_step; [apply handleDispatchPromises_after_clear|].
      unfold tracks_promises. simpl. apply Forall_app. split; [done|by repeat constructor].
    + destruct (handleDispatchPromises_returns w0 (tracks_promises_current w0 H))
        as (r & w' & ->). discriminate.
Qed.

Lemma tracks_promises_tick cfg fuel w :
  tracks_promises w ->
  tracks_promises (world_of (run_tick cfg fuel w)) /\
  forall e w', run_tick cfg fuel w <> Exn e w'.
Proof.
  intros H0. unfold run_tick. destruct (ticks w) as [|args rest] eqn:Ht.
  - simpl. split; [done|discriminate].
  - apply (tracks_promises_command cfg fuel (CTriggerSync args) (with_ticks rest w)).
    exact H0.
Qed.

Lemma tracks_promises_run_tasks cfg fuel ts : forall w,
  tracks_promises w -> tracks_promises (run_tasks cfg fuel ts w).
Proof.
  induction ts as [|t ts IH]; intros w H; simpl; [done|].
  apply IH. unfold run_task.
  eapply tracks_promises_step; [apply drain_step|].
  destruct t.
  - by apply tracks_promises_command.
  - eapply tracks_promises_step; [apply resolve_step|done].
  - by apply tracks_promises_tick.
  - done.
  - eapply tracks_promises_step; [apply settle_step|done].
Qed.

(** A record is pushed only with a value that [isPromise] accepts, so that
    every record of every array holds a promise, whatever the publisher is
    asked to do and whatever settles; and therefore no call of the
    publisher and no deferred call throws: the [then] that the resolution
    calls on a record's promise is there. *)
Theorem records_hold_promises (cfg : Config) (fuel : nat) (w : World) :
  tracks_promises w ->
  (forall c,
     tracks_promises (world_of (run_cmd cfg (exec cfg fuel) c w)) /\
     forall e w', run_cmd cfg (exec cfg fuel) c w <> Exn e w') /\
  (tracks_promises (world_of (run_tick cfg fuel w)) /\
   forall e w', run_tick cfg fuel w <> Exn e w') /\
  (forall ts, tracks_promises (run_tasks cfg fuel ts w)).
Proof.
  intros H. split; [intros c; by apply tracks_promises_command|].
  split; [by apply tracks_promises_tick|].
  intros ts. by apply tracks_promises_run_tasks.
Qed.

Lemma records_hold_promises_witness :
  tracks_promises
    (run_tasks (cfg_promises true) 1
       [TCmd (CListen 1); TCmd (CListen 2); TCmd (CTriggerSync [])] w_resolved).
Proof.
  refine (proj2 (proj2 (records_hold_promises (cfg_promises true) 1 w_resolved _)) _).
  constructor; constructor.
Defined.

Lemma unresolved_same w w' :
  promises w' = promises w -> jobs w' = jobs w -> alls w' = alls w -> log w' = log w ->
  unresolved w w'.
Proof.
  intros. repeat split; [done..|]. exists []. rewrite app_nil_r. split; [done|].
  intros c v H'. by apply elem_of_nil in H'.
Qed.

Lemma unresolved_event e w : ~ is_trigger e -> unresolved w (add_log e w).
Proof.
  intros He. repeat split. exists [e]. split; [done|].
  intros c v H. apply list_elem_of_singleton in H. subst e. by apply He.
Qed.

(** A publisher that cannot handle promises resolves nothing: whatever it
    is asked to do, nested calls included, no record is tracked, no promise
    gets a reaction, no job is queued and neither child is triggered. *)
Theorem cannot_handle_never_resolves (cfg : Config) (fuel : nat) (c : Cmd) (w : World) :
  canHandlePromise cfg = false ->
  current_records w = [] ->
  let r := run_cmd cfg (exec cfg fuel) c w in
  current_records (world_of r) = [] /\
  unresolved w (world_of r) /\
  forall e w', r <> Exn e w'.
Proof.
  intros Hcan H r. subst r.
  apply (keeps_command cfg (fun w => current_records w = []) unresolved);
    [| | | | | | |exact H].
  - intros e He w0 H0. simpl. split; [|split]; [done|by apply unresolved_event|discriminate].
  - intros h w0 H0. simpl. split; [|split]; [done|by apply unresolved_same|discriminate].
  - intros w0 H0.
    split; [|split]; [apply current_records_cleared|by apply unresolved_same|discriminate].
  - intros cb w0 H0. simpl. split; [|split]; [done|by apply unresolved_same|discriminate].
  - intros args w0 H0. simpl. split; [|split]; [done|by apply unresolved_same|discriminate].
  - intros r Hc. congruence.
  - intros w0 H0. rewrite handleDispatchPromises_unfold, H0. cbv zeta.
    split; [|split]; [apply current_records_cleared|by apply unresolved_same|discriminate].
Qed.

Lemma cannot_handle_never_resolves_witness :
  current_records
    (world_of (run_cmd (cfg_promises false) (exec (cfg_promises false) 1)
                 (CTriggerSync []) w_promising)) = [] /\
  unresolved w_promising
    (world_of (run_cmd (cfg_promises false) (exec (cfg_promises false) 1)
                 (CTriggerSync []) w_promising)) /\
  forall e w',
    run_cmd (cfg_promises false) (exec (cfg_promises false) 1) (CTriggerSync []) w_promising
    <> Exn e w'.
Proof.
  exact (cannot_handle_never_resolves (cfg_promises false) 1 (CTriggerSync []) w_promising
           eq_refl eq_refl).
Defined.

(** ** The states that a publisher reaches *)

#[local] Instance stays_wellformed_preorder : PreOrder stays_wellformed.
Proof. split; [intros w H; exact H|intros w1 w2 w3 H12 H23 H; auto]. Qed.

Lemma wellformed_same w w' :
  dispatchPromises w' = dispatchPromises w -> length (arrays w') = length (arrays w) ->
  emitter w' = emitter w -> length (closures w') = length (closures w) ->
  stays_wellformed w w'.
Proof.
  intros Hd Ha He Hc [H1 H2]. split; [lia|].
  unfold handlers_known in *. by rewrite He, Hc.
Qed.

Lemma wellformed_promise_step w w' : promise_step w w' -> stays_wellformed w w'.
Proof. intros [Hd Ha He Hc _ _]. apply wellformed_same; congruence. Qed.

Lemma wellformed_unsubscribe cfg h : respects stays_wellformed (unsubscribe cfg h).
Proof.
  intros w [H1 H2]. split; [exact H1|].
  unfold handlers_known in *. simpl. rewrite length_alter.
  unfold removeListener. apply list.Forall_forall. intros r Hr.
  apply list_elem_of_filter in Hr as [_ Hr].
  rewrite list.Forall_forall in H2. by apply H2.
Qed.

Lemma wellformed_listen cfg cb : respects stays_wellformed (listen cfg cb).
Proof.
  intros w [H1 H2]. split; [exact H1|].
  unfold handlers_known in *. simpl. rewrite length_app. simpl.
  unfold addListener. apply Forall_app. split.
  - eapply list.Forall_impl; [exact H2|]. intros r Hr. simpl in *. lia.
  - constructor; [simpl; lia|constructor].
Qed.

Lemma wellformed_clear : respects stays_wellformed clear_records.
Proof.
  intros w [H1 H2]. split; [|exact H2]. simpl. rewrite length_app. simpl. lia.
Qed.

Lemma wellformed_push r : respects stays_wellformed (push_record r).
Proof. intros w. apply wellformed_same; simpl; [done|by rewrite length_alter|done..]. Qed.

Ltac wellformed_steps :=
  first
    [ exact _
    | exact wellformed_promise_step
    | exact (wellformed_unsubscribe _)
    | exact (wellformed_listen _)
    | exact wellformed_clear
    | exact wellformed_push
    | (intros; intros ?; apply wellformed_same; reflexivity)
    | (intros; apply wellformed_same; reflexivity) ].

Lemma wellformed_deliver cfg exec :
  (forall cs, respects stays_wellformed (exec cs)) ->
  forall h args, respects stays_wellformed (eventHandler cfg exec h args).
Proof.
  intros Hexec h args. apply respects_eventHandler; first [exact Hexec|wellformed_steps].
Qed.

Lemma wellformed_run_tasks cfg fuel ts w :
  stays_wellformed w (run_tasks cfg fuel ts w).
Proof.
  apply respects_run_tasks; first [exact (wellformed_deliver cfg)|wellformed_steps].
Qed.

(** Whatever a new publisher is asked to do and whatever settles: the
    field [_dispatchPromises] refers to an array, every handler on the bus
    is one that [listen] made, and every record holds a promise. *)
Theorem reachable_states_wellformed (cfg : Config) (fuel : nat) (ts : list Task) :
  let w := run_tasks cfg fuel ts constructor in
  dispatchPromises w < length (arrays w) /\ handlers_known w /\ tracks_promises w.
Proof.
  intros w. subst w.
  destruct (wellformed_run_tasks cfg fuel ts constructor) as [H1 H2].
  { split; [simpl; lia|constructor]. }
  split; [exact H1|]. split; [exact H2|].
  apply tracks_promises_run_tasks. repeat constructor.
Qed.

(** ** Scenarios *)

(** One listener returns a promise that is resolved already: "completed"
    is triggered once with the bare value. *)
Example scenario_one_resolved :
  log (run_tasks (cfg_promises true) 1
         [TCmd (CListen 0); TCmd (CTriggerSync [])] w_resolved)
  = [EInvoke 0 []; ECall 0 0 VPublisher []; ECanHandlePromise;
     ETrigger Completed (VNum 5)].
Proof. vm_compute. reflexivity. Qed.

(** Two listeners return promises that are settled later, the second one
    first: "completed" is triggered once, with both entries in the order
    of the listeners. *)
Example scenario_two_listeners :
  log (run_tasks (cfg_promises true) 1
         [TCmd (CListen 1); TCmd (CListen 2); TCmd (CTriggerSync []);
          TSettle 2 (Fulfilled (VNum 2)); TSettle 1 (Fulfilled (VNum 1))] w_resolved)
  = [EInvoke 0 []; ECall 0 1 VPublisher []; ECanHandlePromise;
     EInvoke 1 []; ECall 1 2 VPublisher []; ECanHandlePromise;
     ETrigger Completed
       (VArray [VObject [("listener", VFun 1); ("value", VNum 1)];
                VObject [("listener", VFun 2); ("value", VNum 2)]])].
Proof. vm_compute. reflexivity. Qed.

(** Without the capability the promise is discarded with one warning and
    no child is triggered. *)
Example scenario_cannot_handle :
  log (run_tasks (cfg_promises false) 1
         [TCmd (CListen 0); TCmd (CTriggerSync [])] w_resolved)
  = [EInvoke 0 []; ECall 0 0 VPublisher []; ECanHandlePromise;
     EWarn "Unhandled promise for event"].
Proof. vm_compute. reflexivity. Qed.

(** The first listener cancels the second one while the event is being
    delivered: the bus still serves the second handler, which does not
    apply its callback. *)
Example scenario_cancelled_in_flight :
  log (run_tasks cfg_cancelling 2
         [TCmd (CListen 0); TCmd (CListen 1); TCmd (CTriggerSync [VNum 7])] constructor)
  = [EInvoke 0 [VNum 7]; ECall 0 0 VPublisher [VNum 7]].
Proof. vm_compute. reflexivity. Qed.

(** When [preEmit] returns an Array, its elements are the arguments that
    the listener receives. *)
Example scenario_preEmit_array :
  log (run_tasks cfg_preEmit 1
         [TCmd (CListen 0); TCmd (CTriggerSync [VNum 7])] constructor)
  = [EInvoke 0 [VNum 7; VStr "extra"]; ECall 0 0 VPublisher [VNum 7; VStr "extra"]].
Proof. vm_compute. reflexivity. Qed.

(** A cycle with a listener that returns a promise runs to its end and
    leaves no record behind. *)
Example scenario_cycle_returns :
  exists w',
    triggerSync (cfg_promises true) (exec (cfg_promises true) 1) []
      (world_of (listen (cfg_promises true) (CbUser 0) w_resolved)) = Ret tt w' /\
    current_records w' = [] /\
    jobs w' = [{| job_reaction := resolve_reaction 3;
                  job_argument := Fulfilled (VNum 5) |}].
Proof. eexists. split; [vm_compute; reflexivity|]. split; reflexivity. Qed.
